(** * Rendering pool, task queues and delivery relay of tier-list-backend

    A shallow embedding of
      - [src/utils/bufferTest.ts] and the transport encoding used by
        [src/services/simpleBotMessaging.service.ts],
      - [src/services/imageQueueService.ts],
      - [src/services/puppeteerPool.service.ts],
    together with the properties the specification states about them. *)

From Stdlib Require Import ZArith NArith Lia.
From Stdlib.Strings Require Import Ascii String Byte.
From stdpp Require Import base decidable option list sorting gmap strings pretty fin_maps.

Local Open Scope string_scope.

#[global] Instance byte_eq_decision : EqDecision byte := Byte.byte_eq_dec.

(** A [Buffer] is a sequence of bytes. *)
Abbreviation Buffer := (list byte).

(** [header[0] === 0xff && header[1] === 0xd8 && header[2] === 0xff] where
    [header = buffer.subarray(0, 3)]: an index past the end reads
    [undefined], which is not equal to any number. *)
Definition subarray (b : Buffer) (from to : nat) : Buffer :=
  take (to - from) (drop from b).

Definition byte_is (o : option byte) (x : byte) : bool :=
  match o with
  | Some y => Byte.eqb y x
  | None => false
  end.

Definition isValidJPEG (b : Buffer) : bool :=
  let jpegHeader := subarray b 0 3 in
  byte_is (jpegHeader !! 0%nat) xff
  && byte_is (jpegHeader !! 1%nat) xd8
  && byte_is (jpegHeader !! 2%nat) xff.

(** ** The base64 codec of the runtime

    [buffer.toString('base64')] and [Buffer.from(s, 'base64')] belong to the
    JavaScript runtime, not to the repository.  They are modelled after
    RFC 4648: three bytes are cut into four 6-bit digits, a trailing group of
    one or two bytes is padded with [=].  The decoder reads digits up to the
    first [=], skips characters outside the alphabet, and also accepts the
    URL-safe digits [-] and [_]. *)
Module Base64.

Definition alphabet : string :=
  "ABCDEFGHIJKLMNOPQRSTUVWXYZabcdefghijklmnopqrstuvwxyz0123456789+/".

Definition pad : ascii := "="%char.

Definition digit (n : N) : ascii :=
  match String.get (N.to_nat n) alphabet with
  | Some c => c
  | None => pad
  end.

Fixpoint index_from (i : N) (c : ascii) (s : string) : option N :=
  match s with
  | EmptyString => None
  | String d s' => if Ascii.eqb c d then Some i else index_from (N.succ i) c s'
  end.

Definition value (c : ascii) : option N :=
  if Ascii.eqb c "-"%char then Some 62%N
  else if Ascii.eqb c "_"%char then Some 63%N
  else index_from 0%N c alphabet.

(** The digit of [n] decodes to [n], is not the padding character and
    passes the character class of [base64Regex]. *)
Definition digit_ok (n : N) : bool :=
  match value (digit n) with
  | Some m => N.eqb m n
  | None => false
  end
  && negb (Ascii.eqb (digit n) pad)
  && bool_decide (is_Some (index_from 0%N (digit n) alphabet)).

Definition byte_of_N (n : N) : byte :=
  match Byte.of_N n with
  | Some b => b
  | None => x00
  end.

Section Groups.
Local Open Scope N_scope.

Definition group3 (a b c : byte) : list N :=
  let n := Byte.to_N a * 65536 + Byte.to_N b * 256 + Byte.to_N c in
  [n / 262144; (n / 4096) mod 64; (n / 64) mod 64; n mod 64].

Definition group2 (a b : byte) : list N :=
  let n := (Byte.to_N a * 256 + Byte.to_N b) * 4 in
  [n / 4096; (n / 64) mod 64; n mod 64].

Definition group1 (a : byte) : list N :=
  let n := Byte.to_N a * 16 in
  [n / 64; n mod 64].

Definition ungroup4 (s0 s1 s2 s3 : N) : list byte :=
  let n := ((s0 * 64 + s1) * 64 + s2) * 64 + s3 in
  [byte_of_N (n / 65536); byte_of_N ((n / 256) mod 256); byte_of_N (n mod 256)].

Definition ungroup3 (s0 s1 s2 : N) : list byte :=
  let n := (s0 * 64 + s1) * 64 + s2 in
  [byte_of_N (n / 1024); byte_of_N ((n / 4) mod 256)].

Definition ungroup2 (s0 s1 : N) : list byte :=
  let n := s0 * 64 + s1 in
  [byte_of_N (n / 16)].
End Groups.

Definition digits (l : list N) : string :=
  string_of_list_ascii (digit <$> l).

(** [buffer.toString('base64')] *)
Fixpoint encode (b : Buffer) : string :=
  match b with
  | [] => ""
  | [a] => digits (group1 a) ++ "=="
  | [a; b] => digits (group2 a b) ++ "="
  | a :: b :: c :: rest => digits (group3 a b c) ++ encode rest
  end.

Fixpoint sextets (s : string) : list N :=
  match s with
  | EmptyString => []
  | String c s' =>
      if Ascii.eqb c pad then []
      else match value c with
           | Some v => v :: sextets s'
           | None => sextets s'
           end
  end.

Fixpoint bytes_of_sextets (l : list N) : Buffer :=
  match l with
  | s0 :: s1 :: s2 :: s3 :: rest => ungroup4 s0 s1 s2 s3 ++ bytes_of_sextets rest
  | [s0; s1; s2] => ungroup3 s0 s1 s2
  | [s0; s1] => ungroup2 s0 s1
  | _ => []
  end.

(** [Buffer.from(s, 'base64')] *)
Definition decode (s : string) : Buffer := bytes_of_sextets (sextets s).

(** [/^[A-Za-z0-9+/]*={0,2}$/.test(s)] *)
Fixpoint strip_digits (s : string) : string :=
  match s with
  | String c s' =>
      if bool_decide (is_Some (index_from 0%N c alphabet)) then strip_digits s' else s
  | EmptyString => ""
  end.

Definition base64Regex (s : string) : bool :=
  let tail := strip_digits s in
  bool_decide (tail = "" ∨ tail = "=" ∨ tail = "==").

End Base64.

(** ** [src/utils/bufferTest.ts] *)

(** [testBufferConversion(originalBuffer, description)].  The argument is
    typed as a [Buffer], so the [Buffer.isBuffer] tests succeed; logging is
    left out. *)
Definition testBufferConversion (originalBuffer : Buffer) : bool :=
  if bool_decide (length originalBuffer = 0%nat) then false
  else
    let base64String := Base64.encode originalBuffer in
    if bool_decide (String.length base64String = 0%nat) then false
    else
      let convertedBuffer := Base64.decode base64String in
      if bool_decide (length convertedBuffer = 0%nat) then false
      else if bool_decide (length originalBuffer ≠ length convertedBuffer) then false
      else
        let areEqual := bool_decide (originalBuffer = convertedBuffer) in
        if negb areEqual then false
        else
          let verificationBase64 := Base64.encode convertedBuffer in
          if bool_decide (base64String ≠ verificationBase64) then false
          else true.

(** ** [src/services/simpleBotMessaging.service.ts] *)
Module Relay.

(** [interface ImageTask]; [imageBuffer] is the base64 text. *)
Record ImageTask := {
  id : string;
  chatId : Z;
  imageBuffer : string;
  caption : string;
  timestamp : Z;
}.

(** The object stored under [image_result:<id>].  It is written with
    [JSON.stringify] and read with [JSON.parse]; the model keeps the
    object itself. *)
Record ImageResult := {
  success : bool;
  result_timestamp : Z;
  error : option string;
}.

(** The shared store: the list [image_send_queue], the result keys, and
    whether a command sent to it succeeds ([up]) or throws. *)
Record Redis := {
  image_send_queue : list ImageTask;
  image_result : gmap string ImageResult;
  up : bool;
}.

Definition set_queue (q : list ImageTask) (r : Redis) : Redis :=
  {| image_send_queue := q; image_result := image_result r; up := up r |}.

Definition set_result (m : gmap string ImageResult) (r : Redis) : Redis :=
  {| image_send_queue := image_send_queue r; image_result := m; up := up r |}.

(** [this.botService]: [None] when no bot service was set.  A call of
    its [sendImage] either answers a boolean or throws. *)
Inductive BotReply :=
| Sent (ok : bool)
| Throws (message : string).

Record BotService := {
  isBotAvailable : bool;
  bot_sendImage : Z → Buffer → string → BotReply;
}.

Definition botAvailable (bot : option BotService) : bool :=
  match bot with
  | Some b => isBotAvailable b
  | None => false
  end.

(** [validateImageBuffer(buffer)]: at least 1 KB, at most 20 MB
    ([length / (1024 * 1024) > 20] is [length > 20 * 1024 * 1024]), and
    the JPEG signature. *)
Definition validateImageBuffer (buffer : Buffer) : bool :=
  if bool_decide (length buffer = 0%nat) then false
  else if bool_decide (Z.of_nat (length buffer) < 1024)%Z then false
  else if bool_decide (20 * 1024 * 1024 < Z.of_nat (length buffer))%Z then false
  else isValidJPEG buffer.

Definition MAX_POLLS : nat := 450.

(** The wait loop of [sendImage]:
    [for (let i = 0; i < 450; i++) { get; if (result) { del; return };
    sleep(100) }], followed by [return false].  [budget] is the number of
    iterations left, [i] the loop counter.  [others i] is what the other
    processes did to the store since the sender's previous command: before
    poll [0] while the task was pushed, before poll [i] during the sleep
    that follows poll [i - 1], and [others 450] during the last sleep.
    A command sent while the store is down throws; the surrounding
    [catch] turns that into [false].  The result is the answer, the store
    when the call returns, and the number of [get] commands sent. *)
Fixpoint waitForResult (budget i : nat) (key : string)
    (others : nat → Redis → Redis) (r : Redis) : bool * Redis * nat :=
  let r := others i r in
  match budget with
  | O => (false, r, i)
  | S budget' =>
      if negb (up r) then (false, r, S i)
      else
        match image_result r !! key with
        | Some parsed =>
            (success parsed, set_result (delete key (image_result r)) r, S i)
        | None => waitForResult budget' (S i) key others r
        end
  end.

(** Where the call runs and what it draws from its surroundings. *)
Record SendEnv := {
  isMasterProcess : bool;
  botService : option BotService;
  taskId : string;
  now : Z;
  others : nat → Redis → Redis;
}.

Definition resultKey (taskId : string) : string := "image_result:" ++ taskId.

(** The direct path of [sendImage]: taken in the master process when
    the bot is available; an exception falls through to the queue. *)
Definition directSend (env : SendEnv) (chat : Z) (buffer : Buffer)
    (cap : string) : option bool :=
  if isMasterProcess env && botAvailable (botService env) then
    match botService env with
    | Some b =>
        match bot_sendImage b chat buffer cap with
        | Sent result => Some result
        | Throws _ => None
        end
    | None => None
    end
  else None.

Definition imageTask (env : SendEnv) (chat : Z) (buffer : Buffer)
    (cap : string) : ImageTask :=
  {| id := taskId env; chatId := chat; imageBuffer := Base64.encode buffer;
     caption := cap; timestamp := now env |}.

(** [rpush('image_send_queue', JSON.stringify(task))] *)
Definition rpush (task : ImageTask) (r : Redis) : Redis :=
  set_queue (image_send_queue r ++ [task]) r.

(** [sendImage(chatId, imageBuffer, caption)] *)
Definition sendImage (env : SendEnv) (r : Redis)
    (chat : Z) (buffer : Buffer) (cap : string) : bool * Redis :=
  if negb (validateImageBuffer buffer) then (false, r)
  else
    match directSend env chat buffer cap with
    | Some result => (result, r)
    | None =>
        if negb (isValidJPEG buffer) then (false, r)
        else if negb (testBufferConversion buffer) then (false, r)
        else
          let base64String := Base64.encode buffer in
          if bool_decide (String.length base64String = 0%nat) then (false, r)
          else if negb (up r) then (false, r)
          else
            let '(res, r2, _) :=
              waitForResult MAX_POLLS 0 (resultKey (taskId env)) (others env)
                (rpush (imageTask env chat buffer cap) r) in
            (res, r2)
    end.



Definition conversionError (message : string) : string :=
  "Ошибка конвертации base64 в Buffer: " ++ message.

(** [handleImageTask(task)], run by the process that owns the bot: the
    store after the [finally] block, and the buffer handed to the bot.
    The key is written with a time to live of 60 seconds; expiry is not
    modelled. *)
Definition handleImageTask (bot : option BotService) (now : Z)
    (task : ImageTask) (r : Redis) : Redis * option Buffer :=
  let '(ok, errorMessage, delivered) :=
    if negb (botAvailable bot) then
      (false, "Bot service недоступен при обработке задачи", None)
    else if bool_decide (imageBuffer task = "") then
      (false, conversionError "Base64 строка не определена или не является строкой", None)
    else if negb (Base64.base64Regex (imageBuffer task)) then
      (false, conversionError "Некорректный формат base64 строки", None)
    else
      let buffer := Base64.decode (imageBuffer task) in
      if bool_decide (length buffer = 0%nat) then
        (false, conversionError "Результат конвертации пустой", None)
      else if bool_decide (Base64.encode buffer ≠ imageBuffer task) then
        (false, conversionError
           "Данные повреждены при конвертации - проверка целостности не пройдена", None)
      else if negb (validateImageBuffer buffer) then
        (false, "Buffer невалиден после конвертации из base64", None)
      else
        match bot with
        | Some b =>
            match bot_sendImage b (chatId task) buffer (caption task) with
            | Sent result => (result, "", Some buffer)
            | Throws message => (false, message, Some buffer)
            end
        | None => (false, "", None)
        end in
  let result := {| success := ok; result_timestamp := now;
                   error := if bool_decide (errorMessage = "") then None
                            else Some errorMessage |} in
  if up r then
    (set_result (<[resultKey (id task) := result]> (image_result r)) r, delivered)
  else (r, delivered).

End Relay.

(** A promise is settled by calling its [resolve] or its [reject].  The
    models below number the promises in the order of the [generateImage]
    calls that create them and log every such call. *)
Inductive Settlement :=
| Fulfilled (buffer : Buffer)
| Rejected (message : string).

Definition settlementsOf (p : nat) (log : list (nat * Settlement)) : list Settlement :=
  snd <$> filter (λ e, fst e = p) log.

(** [array.splice(index, 1)]; a negative index counts from the end, so
    [splice(-1, 1)] removes the last element. *)
Definition splice1 {A} (index : Z) (l : list A) : list A :=
  let start :=
    if bool_decide (index < 0)%Z then Z.max 0 (Z.of_nat (length l) + index)
    else index in
  delete (Z.to_nat start) l.

(** [array.findIndex(pred)] and [array.indexOf(x)]: [-1] when absent. *)
Fixpoint findIndex {A} (pred : A → bool) (l : list A) : Z :=
  match l with
  | [] => -1
  | x :: l' =>
      if pred x then 0%Z
      else let i := findIndex pred l' in
           if bool_decide (i = -1)%Z then (-1)%Z else (1 + i)%Z
  end.

(** ** Order of submission *)

(** [a] was submitted before [b]: promises are numbered in the order of
    the [generateImage] calls. *)
Definition byAge {T} (promise : T → nat) : relation T :=
  λ a b, (promise a < promise b)%nat.

(** What both queues keep: the tasks are in the order of their
    submission, and their promises were created by earlier calls. *)
Definition inOrder {T} (promise : T → nat) (created : nat) (queue : list T) : Prop :=
  StronglySorted (byAge promise) queue ∧ Forall (λ t, (promise t < created)%nat) queue.

(** ** Valid images *)

(** A buffer that is not empty and starts with the bytes FF D8 FF. *)
Definition jpegSignature : Buffer := [xff; xd8; xff].



(** ** [src/services/imageQueueService.ts] *)
Module ImageQueue.

Definition MAX_WORKERS : nat := 4.
Definition MAX_QUEUE_SIZE : nat := 100.
Definition TASK_TIMEOUT : Z := 30000.
Definition WORKER_RESTART_THRESHOLD : nat := 50.

(** [interface ImageGenerationTask]; [promise] stands for the pair
    [resolve], [reject]. *)
Record ImageGenerationTask := {
  id : string;
  html : string;
  width : Z;
  height : Z;
  quality : Z;
  optimizeForSpeed : bool;
  promise : nat;
  createdAt : Z;
}.

(** [interface WorkerInfo]; the [Worker] thread itself is outside. *)
Record WorkerInfo := {
  busy : bool;
  currentTaskId : option string;
  tasksCompleted : nat;
}.

Record Metrics := {
  m_tasksCompleted : nat;
  tasksQueued : nat;
  tasksFailed : nat;
}.

(** The service object.  [WorkerInfo] objects are shared between the
    [workers] array and the event handlers of their threads, so they live
    in [heap] and [workers] holds references.  [timers] are the armed
    task timeouts with what their closures hold (the promise and the task
    id); [restarts] are the calls of [restartWorker] waiting for
    [terminate()], each with the index it computed before waiting.
    [averageExecutionTime] and [queueWaitTime] are floating-point
    statistics and are left out. *)
Record State := {
  heap : gmap nat WorkerInfo;
  workers : list nat;
  taskQueue : list ImageGenerationTask;
  metrics : Metrics;
  timers : list (nat * string);
  restarts : list Z;
  promises : nat;
  settlements : list (nat * Settlement);
  isInitialized : bool;
}.

Definition initial : State :=
  {| heap := ∅; workers := []; taskQueue := [];
     metrics := {| m_tasksCompleted := 0; tasksQueued := 0; tasksFailed := 0 |};
     timers := []; restarts := []; promises := 0; settlements := [];
     isInitialized := false |}.

Definition with_heap (x : gmap nat WorkerInfo) (s : State) : State :=
  {| heap := x; workers := workers s; taskQueue := taskQueue s;
     metrics := metrics s; timers := timers s; restarts := restarts s;
     promises := promises s; settlements := settlements s;
     isInitialized := isInitialized s |}.

Definition with_workers (x : list nat) (s : State) : State :=
  {| heap := heap s; workers := x; taskQueue := taskQueue s;
     metrics := metrics s; timers := timers s; restarts := restarts s;
     promises := promises s; settlements := settlements s;
     isInitialized := isInitialized s |}.

Definition with_taskQueue (x : list ImageGenerationTask) (s : State) : State :=
  {| heap := heap s; workers := workers s; taskQueue := x;
     metrics := metrics s; timers := timers s; restarts := restarts s;
     promises := promises s; settlements := settlements s;
     isInitialized := isInitialized s |}.

Definition with_metrics (x : Metrics) (s : State) : State :=
  {| heap := heap s; workers := workers s; taskQueue := taskQueue s;
     metrics := x; timers := timers s; restarts := restarts s;
     promises := promises s; settlements := settlements s;
     isInitialized := isInitialized s |}.

Definition with_timers (x : list (nat * string)) (s : State) : State :=
  {| heap := heap s; workers := workers s; taskQueue := taskQueue s;
     metrics := metrics s; timers := x; restarts := restarts s;
     promises := promises s; settlements := settlements s;
     isInitialized := isInitialized s |}.

Definition with_restarts (x : list Z) (s : State) : State :=
  {| heap := heap s; workers := workers s; taskQueue := taskQueue s;
     metrics := metrics s; timers := timers s; restarts := x;
     promises := promises s; settlements := settlements s;
     isInitialized := isInitialized s |}.

Definition with_promises (x : nat) (s : State) : State :=
  {| heap := heap s; workers := workers s; taskQueue := taskQueue s;
     metrics := metrics s; timers := timers s; restarts := restarts s;
     promises := x; settlements := settlements s;
     isInitialized := isInitialized s |}.

Definition with_settlements (x : list (nat * Settlement)) (s : State) : State :=
  {| heap := heap s; workers := workers s; taskQueue := taskQueue s;
     metrics := metrics s; timers := timers s; restarts := restarts s;
     promises := promises s; settlements := x;
     isInitialized := isInitialized s |}.

Definition with_isInitialized (x : bool) (s : State) : State :=
  {| heap := heap s; workers := workers s; taskQueue := taskQueue s;
     metrics := metrics s; timers := timers s; restarts := restarts s;
     promises := promises s; settlements := settlements s;
     isInitialized := x |}.

(** A call of [resolve] or [reject] of promise [p]. *)
Definition settle (p : nat) (o : Settlement) (s : State) : State :=
  with_settlements (settlements s ++ [(p, o)]) s.

Definition failed (s : State) : State :=
  with_metrics {| m_tasksCompleted := m_tasksCompleted (metrics s);
                  tasksQueued := tasksQueued (metrics s);
                  tasksFailed := S (tasksFailed (metrics s)) |} s.

Definition queued (s : State) : State :=
  with_metrics {| m_tasksCompleted := m_tasksCompleted (metrics s);
                  tasksQueued := S (tasksQueued (metrics s));
                  tasksFailed := tasksFailed (metrics s) |} s.

(** [updateMetrics(executionTime)], without the running average. *)
Definition updateMetrics (s : State) : State :=
  with_metrics {| m_tasksCompleted := S (m_tasksCompleted (metrics s));
                  tasksQueued := tasksQueued (metrics s);
                  tasksFailed := tasksFailed (metrics s) |} s.

Definition isFree (s : State) (w : nat) : bool :=
  match heap s !! w with
  | Some info => negb (busy info)
  | None => false
  end.

Definition setWorker (w : nat) (info : WorkerInfo) (s : State) : State :=
  with_heap (<[w := info]> (heap s)) s.

(** [findTaskById(taskId)]: a search of [taskQueue]. *)
Definition findTaskById (taskId : option string) (s : State)
    : option ImageGenerationTask :=
  match taskId with
  | Some i => List.find (λ task, bool_decide (id task = i)) (taskQueue s)
  | None => None
  end.

(** [handleTaskError(task, error)] *)
Definition handleTaskError (task : ImageGenerationTask) (message : string)
    (s : State) : State :=
  settle (promise task) (Rejected message) (failed s).

(** [processQueue()].  [post] tells whether [postMessage] throws, and
    with which message. *)
Definition processQueue (post : option string) (s : State) : State :=
  match List.find (isFree s) (workers s), taskQueue s with
  | Some freeWorker, task :: rest =>
      let s := with_taskQueue rest s in
      let info := default {| busy := false; currentTaskId := None; tasksCompleted := 0 |}
                          (heap s !! freeWorker) in
      let s := setWorker freeWorker
                 {| busy := true; currentTaskId := Some (id task);
                    tasksCompleted := tasksCompleted info |} s in
      match post with
      | None => s
      | Some message =>
          let s := handleTaskError task message s in
          setWorker freeWorker
            {| busy := false; currentTaskId := None;
               tasksCompleted := tasksCompleted info |} s
      end
  | _, _ => s
  end.

(** [createWorker(index)]: a new [WorkerInfo] is pushed. *)
Definition createWorker (s : State) : State :=
  let w := size (heap s) in
  with_workers (workers s ++ [w])
    (setWorker w {| busy := false; currentTaskId := None; tasksCompleted := 0 |} s).

(** [initialize()] *)
Definition initialize (s : State) : State :=
  if isInitialized s then s
  else with_isInitialized true (Nat.iter MAX_WORKERS createWorker s).

Definition indexOf (w : nat) (ws : list nat) : Z :=
  findIndex (λ x, bool_decide (x = w)) ws.

(** [restartWorker(workerInfo)] up to [await worker.terminate()], and
    its continuation: [ok] tells whether [terminate()] resolved. *)
Definition restartWorker (w : nat) (s : State) : State :=
  with_restarts (restarts s ++ [indexOf w (workers s)]) s.

Definition terminateDone (ok : bool) (s : State) : State :=
  match restarts s with
  | [] => s
  | index :: rest =>
      let s := with_restarts rest s in
      if ok then createWorker (with_workers (splice1 index (workers s)) s)
      else s
  end.

(** [generateImage(html, width, height, quality, optimizeForSpeed)].
    [taskId] and [time] are what [Date.now()] and [Math.random()] give;
    a [throw] in the [async] function rejects the promise it returns. *)
Definition generateImage (taskId : string) (time : Z) (html : string)
    (width height quality : Z) (optimizeForSpeed : bool)
    (post : option string) (s : State) : State :=
  let p := promises s in
  let s := with_promises (S p) s in
  if bool_decide (MAX_QUEUE_SIZE ≤ length (taskQueue s))%nat then
    settle p (Rejected "Очередь переполнена. Максимальный размер: 100") s
  else
    let task := {| id := taskId; html := html; width := width; height := height;
                   quality := quality; optimizeForSpeed := optimizeForSpeed;
                   promise := p; createdAt := time |} in
    let s := with_taskQueue (taskQueue s ++ [task]) s in
    let s := queued s in
    let s := processQueue post s in
    with_timers (timers s ++ [(p, taskId)]) s.

(** The callback armed by [setTimeout(..., TASK_TIMEOUT)] in
    [generateImage] for promise [p]. *)
Definition timeout (p : nat) (s : State) : State :=
  match List.find (λ t, bool_decide (fst t = p)) (timers s) with
  | None => s
  | Some (_, taskId) =>
      let s := with_timers (filter (λ t, fst t ≠ p) (timers s)) s in
      let taskIndex := findIndex (λ t, bool_decide (id t = taskId)) (taskQueue s) in
      if bool_decide (taskIndex ≠ -1)%Z then
        let s := with_taskQueue (splice1 taskIndex (taskQueue s)) s in
        settle p (Rejected "Таймаут генерации изображения") (failed s)
      else s
  end.

(** The message a worker thread posts back. *)
Record WorkerResult := {
  success : bool;
  data : option Buffer;
  error : option string;
  taskId : string;
}.

Definition workerInfoOf (w : nat) (s : State) : WorkerInfo :=
  default {| busy := false; currentTaskId := None; tasksCompleted := 0 |}
          (heap s !! w).

(** [handleWorkerMessage(workerInfo, result)] *)
Definition handleWorkerMessage (w : nat) (result : WorkerResult)
    (post : option string) (s : State) : State :=
  match findTaskById (Some (taskId result)) s with
  | None => s
  | Some task =>
      let info := workerInfoOf w s in
      let completed := S (tasksCompleted info) in
      let s := setWorker w {| busy := false; currentTaskId := None;
                              tasksCompleted := completed |} s in
      let s :=
        match success result, data result with
        | true, Some buffer => settle (promise task) (Fulfilled buffer) (updateMetrics s)
        | _, _ =>
            let message :=
              match error result with
              | Some e => if bool_decide (e = "") then "Неизвестная ошибка воркера" else e
              | None => "Неизвестная ошибка воркера"
              end in
            settle (promise task) (Rejected message) (failed s)
        end in
      let s := if bool_decide (WORKER_RESTART_THRESHOLD ≤ completed)%nat
               then restartWorker w s else s in
      processQueue post s
  end.

(** [handleWorkerError(workerInfo, error)] *)
Definition handleWorkerError (w : nat) (message : string) (s : State) : State :=
  let info := workerInfoOf w s in
  let s := match findTaskById (currentTaskId info) s with
           | Some task => handleTaskError task message s
           | None => s
           end in
  let s := setWorker w {| busy := false; currentTaskId := None;
                          tasksCompleted := tasksCompleted info |} s in
  restartWorker w s.

(** [handleWorkerExit(workerInfo)] *)
Definition handleWorkerExit (w : nat) (s : State) : State :=
  let index := indexOf w (workers s) in
  if bool_decide (index ≠ -1)%Z then
    createWorker (with_workers (splice1 index (workers s)) s)
  else s.

(** What can happen to the service: a call of a public method, a timer,
    an event of a worker thread, or the end of a [terminate()]. *)
Inductive Event :=
| Initialize
| GenerateImage (taskId : string) (time : Z) (html : string)
    (width height quality : Z) (optimizeForSpeed : bool) (post : option string)
| Timeout (p : nat)
| WorkerMessage (w : nat) (result : WorkerResult) (post : option string)
| WorkerError (w : nat) (message : string)
| WorkerExit (w : nat)
| TerminateDone (ok : bool).

Definition step (s : State) (e : Event) : State :=
  match e with
  | Initialize => initialize s
  | GenerateImage i t h wd ht q o post => generateImage i t h wd ht q o post s
  | Timeout p => timeout p s
  | WorkerMessage w r post => handleWorkerMessage w r post s
  | WorkerError w m => handleWorkerError w m s
  | WorkerExit w => handleWorkerExit w s
  | TerminateDone ok => terminateDone ok s
  end.

Definition run (s : State) (trace : list Event) : State := foldl step s trace.

(** What the service keeps about its queue. *)
Definition wellFormed (s : State) : Prop :=
  inOrder promise (promises s) (taskQueue s)
  ∧ (length (taskQueue s) ≤ MAX_QUEUE_SIZE)%nat.

(** Promise [p] can no longer be settled: it was created, no queued
    task and no armed timer holds it, and nothing settled it so far. *)
Definition lost (p : nat) (s : State) : Prop :=
  (p < promises s)%nat
  ∧ Forall (λ t, promise t ≠ p) (taskQueue s)
  ∧ Forall (λ t, t.1 ≠ p) (timers s)
  ∧ settlementsOf p (settlements s) = [].

(** Who can be settled by a step: the promise the step creates, the
    promise of a queued task, or the promise of an armed timer. *)
Definition settles (s : State) (e : nat * Settlement) : Prop :=
  e.1 = promises s
  ∨ (∃ t, t ∈ taskQueue s ∧ promise t = e.1)
  ∨ (∃ t, t ∈ timers s ∧ t.1 = e.1).

End ImageQueue.

(** ** [src/services/puppeteerPool.service.ts] *)
Module Pool.

Definition POOL_SIZE : nat := 8.
Definition MAX_PAGES_PER_BROWSER : Z := 10.
Definition BROWSER_TIMEOUT : Z := 30 * 60 * 1000.
Definition PAGE_TIMEOUT : Z := 2 * 60 * 1000.
Definition QUEUE_TIMEOUT : Z := 60 * 1000.
Definition BROWSER_RESTART_THRESHOLD : Z := 100.

(** [interface BrowserInstance].  The browser process and the page
    objects are outside; [pages] keeps the keys of the page map. *)
Record BrowserInstance := {
  pages : gset string;
  activePages : Z;
  createdAt : Z;
  lastUsed : Z;
  processingTasks : Z;
}.

Record PageTaskOptions := {
  html : string;
  viewportWidth : Z;
  viewportHeight : Z;
  quality : Z;
  optimizeForSpeed : bool;
}.

(** An entry of [processingQueue]; [promise] stands for the pair
    [resolve], [reject]. *)
Record QueuedTask := {
  id : string;
  options : PageTaskOptions;
  promise : nat;
  task_createdAt : Z;
}.

(** [metrics], without the floating-point [averageTaskTime]. *)
Record Metrics := {
  totalTasksProcessed : nat;
  activeTasks : Z;
  browsersCreated : nat;
  browsersDestroyed : nat;
  peakConcurrency : Z;
}.

(** Who waits for a [createBrowser()] call, suspended at
    [await puppeteer.launch(...)]: iteration [i] of the loop of
    [initialize], or [getAvailableBrowser] on behalf of [processQueue]. *)
Inductive Origin :=
| FromInitialize (i : nat)
| FromProcessQueue.

(** An [executeTask] call in progress, with the task [processQueue] took
    for it; [page] tells whether [newPage()] has answered, that is
    whether the local variable [page] is no longer [null]. *)
Record Running := {
  task : QueuedTask;
  browserId : string;
  pageId : string;
  page : bool;
}.

(** A callback handed to [setImmediate]. *)
Inductive Immediate :=
| ImmProcessQueue
| ImmDestroyBrowser (browserId : string).

(** The service object together with the asynchronous calls that are
    suspended at an [await] and the armed callbacks:
    - [awaiting]: calls of [processQueue] suspended at
      [await this.getAvailableBrowser()] whose promise is already
      resolved with the browser id listed;
    - [launching]: calls of [createBrowser] waiting for the launch;
    - [running]: calls of [executeTask] waiting for the page;
    - [destroying]: calls of [destroyBrowser] waiting for the pages and
      the browser to close;
    - [immediates], [timers]: callbacks of [setImmediate], and of the
      [setTimeout] of [generateImage] with the promise and the task id
      its closure holds. *)
Record State := {
  browserPool : gmap string BrowserInstance;
  availableBrowsers : list string;
  processingQueue : list QueuedTask;
  metrics : Metrics;
  isInitialized : bool;
  shutdownInProgress : bool;
  awaiting : list string;
  launching : list Origin;
  running : list Running;
  destroying : list string;
  immediates : list Immediate;
  timers : list (nat * string);
  promises : nat;
  settlements : list (nat * Settlement);
}.

Definition noMetrics : Metrics :=
  {| totalTasksProcessed := 0; activeTasks := 0; browsersCreated := 0;
     browsersDestroyed := 0; peakConcurrency := 0 |}.

Definition initial : State :=
  {| browserPool := ∅; availableBrowsers := []; processingQueue := [];
     metrics := noMetrics; isInitialized := false; shutdownInProgress := false;
     awaiting := []; launching := []; running := []; destroying := [];
     immediates := []; timers := []; promises := 0; settlements := [] |}.

Definition with_browserPool (x : gmap string BrowserInstance) (s : State) : State :=
  {| browserPool := x; availableBrowsers := availableBrowsers s;
     processingQueue := processingQueue s; metrics := metrics s;
     isInitialized := isInitialized s;
     shutdownInProgress := shutdownInProgress s; awaiting := awaiting s;
     launching := launching s; running := running s;
     destroying := destroying s; immediates := immediates s;
     timers := timers s; promises := promises s;
     settlements := settlements s |}.

Definition with_availableBrowsers (x : list string) (s : State) : State :=
  {| browserPool := browserPool s; availableBrowsers := x;
     processingQueue := processingQueue s; metrics := metrics s;
     isInitialized := isInitialized s;
     shutdownInProgress := shutdownInProgress s; awaiting := awaiting s;
     launching := launching s; running := running s;
     destroying := destroying s; immediates := immediates s;
     timers := timers s; promises := promises s;
     settlements := settlements s |}.

Definition with_processingQueue (x : list QueuedTask) (s : State) : State :=
  {| browserPool := browserPool s;
     availableBrowsers := availableBrowsers s; processingQueue := x;
     metrics := metrics s; isInitialized := isInitialized s;
     shutdownInProgress := shutdownInProgress s; awaiting := awaiting s;
     launching := launching s; running := running s;
     destroying := destroying s; immediates := immediates s;
     timers := timers s; promises := promises s;
     settlements := settlements s |}.

Definition with_metrics (x : Metrics) (s : State) : State :=
  {| browserPool := browserPool s;
     availableBrowsers := availableBrowsers s;
     processingQueue := processingQueue s; metrics := x;
     isInitialized := isInitialized s;
     shutdownInProgress := shutdownInProgress s; awaiting := awaiting s;
     launching := launching s; running := running s;
     destroying := destroying s; immediates := immediates s;
     timers := timers s; promises := promises s;
     settlements := settlements s |}.

Definition with_isInitialized (x : bool) (s : State) : State :=
  {| browserPool := browserPool s;
     availableBrowsers := availableBrowsers s;
     processingQueue := processingQueue s; metrics := metrics s;
     isInitialized := x; shutdownInProgress := shutdownInProgress s;
     awaiting := awaiting s; launching := launching s;
     running := running s; destroying := destroying s;
     immediates := immediates s; timers := timers s;
     promises := promises s; settlements := settlements s |}.

Definition with_shutdownInProgress (x : bool) (s : State) : State :=
  {| browserPool := browserPool s;
     availableBrowsers := availableBrowsers s;
     processingQueue := processingQueue s; metrics := metrics s;
     isInitialized := isInitialized s; shutdownInProgress := x;
     awaiting := awaiting s; launching := launching s;
     running := running s; destroying := destroying s;
     immediates := immediates s; timers := timers s;
     promises := promises s; settlements := settlements s |}.

Definition with_awaiting (x : list string) (s : State) : State :=
  {| browserPool := browserPool s;
     availableBrowsers := availableBrowsers s;
     processingQueue := processingQueue s; metrics := metrics s;
     isInitialized := isInitialized s;
     shutdownInProgress := shutdownInProgress s; awaiting := x;
     launching := launching s; running := running s;
     destroying := destroying s; immediates := immediates s;
     timers := timers s; promises := promises s;
     settlements := settlements s |}.

Definition with_launching (x : list Origin) (s : State) : State :=
  {| browserPool := browserPool s;
     availableBrowsers := availableBrowsers s;
     processingQueue := processingQueue s; metrics := metrics s;
     isInitialized := isInitialized s;
     shutdownInProgress := shutdownInProgress s; awaiting := awaiting s;
     launching := x; running := running s; destroying := destroying s;
     immediates := immediates s; timers := timers s;
     promises := promises s; settlements := settlements s |}.

Definition with_running (x : list Running) (s : State) : State :=
  {| browserPool := browserPool s;
     availableBrowsers := availableBrowsers s;
     processingQueue := processingQueue s; metrics := metrics s;
     isInitialized := isInitialized s;
     shutdownInProgress := shutdownInProgress s; awaiting := awaiting s;
     launching := launching s; running := x; destroying := destroying s;
     immediates := immediates s; timers := timers s;
     promises := promises s; settlements := settlements s |}.

Definition with_destroying (x : list string) (s : State) : State :=
  {| browserPool := browserPool s;
     availableBrowsers := availableBrowsers s;
     processingQueue := processingQueue s; metrics := metrics s;
     isInitialized := isInitialized s;
     shutdownInProgress := shutdownInProgress s; awaiting := awaiting s;
     launching := launching s; running := running s; destroying := x;
     immediates := immediates s; timers := timers s;
     promises := promises s; settlements := settlements s |}.

Definition with_immediates (x : list Immediate) (s : State) : State :=
  {| browserPool := browserPool s;
     availableBrowsers := availableBrowsers s;
     processingQueue := processingQueue s; metrics := metrics s;
     isInitialized := isInitialized s;
     shutdownInProgress := shutdownInProgress s; awaiting := awaiting s;
     launching := launching s; running := running s;
     destroying := destroying s; immediates := x; timers := timers s;
     promises := promises s; settlements := settlements s |}.

Definition with_timers (x : list (nat * string)) (s : State) : State :=
  {| browserPool := browserPool s;
     availableBrowsers := availableBrowsers s;
     processingQueue := processingQueue s; metrics := metrics s;
     isInitialized := isInitialized s;
     shutdownInProgress := shutdownInProgress s; awaiting := awaiting s;
     launching := launching s; running := running s;
     destroying := destroying s; immediates := immediates s; timers := x;
     promises := promises s; settlements := settlements s |}.

Definition with_promises (x : nat) (s : State) : State :=
  {| browserPool := browserPool s;
     availableBrowsers := availableBrowsers s;
     processingQueue := processingQueue s; metrics := metrics s;
     isInitialized := isInitialized s;
     shutdownInProgress := shutdownInProgress s; awaiting := awaiting s;
     launching := launching s; running := running s;
     destroying := destroying s; immediates := immediates s;
     timers := timers s; promises := x; settlements := settlements s |}.

Definition with_settlements (x : list (nat * Settlement)) (s : State) : State :=
  {| browserPool := browserPool s;
     availableBrowsers := availableBrowsers s;
     processingQueue := processingQueue s; metrics := metrics s;
     isInitialized := isInitialized s;
     shutdownInProgress := shutdownInProgress s; awaiting := awaiting s;
     launching := launching s; running := running s;
     destroying := destroying s; immediates := immediates s;
     timers := timers s; promises := promises s; settlements := x |}.

(** A call of [resolve] or [reject] of promise [p]. *)
Definition settle (p : nat) (o : Settlement) (s : State) : State :=
  with_settlements (settlements s ++ [(p, o)]) s.

Definition setImmediate (i : Immediate) (s : State) : State :=
  with_immediates (immediates s ++ [i]) s.

(** *** [executeTask], block by block *)

(** What the page answers to the calls of [executeTask] between
    [newPage()] and the [finally] block: [Some e] is an exception with
    message [e].  [interception] covers [setRequestInterception] and
    [setJavaScriptEnabled], which are only called in speed mode;
    [fonts] is [evaluateHandle('document.fonts.ready')], only called
    otherwise. *)
Inductive Screenshot :=
| ShotThrows (message : string)
| ShotNull
| Shot (buffer : Buffer).

Record PageResponses := {
  interception : option string;
  viewport : option string;
  content : option string;
  fonts : option string;
  screenshot : Screenshot;
  closeOk : bool;
}.

Inductive Result :=
| Returned (buffer : Buffer)
| Thrown (message : string).

(** The quality handed to [page.screenshot] and the pixel ratio handed
    to [page.setViewport] (in tenths: 25, 20 or 15). *)
Definition screenshotQuality (o : PageTaskOptions) : Z :=
  Z.max 85 (Z.min 100 (quality o)).

Definition devicePixelRatio10 (o : PageTaskOptions) : Z :=
  if bool_decide (95 ≤ quality o)%Z then 25
  else if bool_decide (90 ≤ quality o)%Z then 20 else 15.

(** The validation of the screenshot. *)
Definition validate (shot : Screenshot) : Result :=
  match shot with
  | ShotThrows e => Thrown e
  | ShotNull => Thrown "Пустой скриншот"
  | Shot buffer =>
      if bool_decide (length buffer = 0%nat) then Thrown "Пустой скриншот"
      else if isValidJPEG buffer then Returned buffer
      else Thrown "Невалидный JPEG файл"
  end.

(** The body of the [try] block once the page exists. *)
Definition render (o : PageTaskOptions) (r : PageResponses) : Result :=
  match (if optimizeForSpeed o then interception r else None) with
  | Some e => Thrown e
  | None =>
      match viewport r with
      | Some e => Thrown e
      | None =>
          match content r with
          | Some e => Thrown e
          | None =>
              match (if optimizeForSpeed o then None else fonts r) with
              | Some e => Thrown e
              | None => validate (screenshot r)
              end
          end
      end
  end.

(** [activePages++; processingTasks++; lastUsed = Date.now()] *)
Definition enter (time : Z) (b : BrowserInstance) : BrowserInstance :=
  {| pages := pages b; activePages := activePages b + 1;
     createdAt := createdAt b; lastUsed := time;
     processingTasks := processingTasks b + 1 |}.

(** [browserInstance.pages.set(pageId, page)] *)
Definition setPage (pageId : string) (b : BrowserInstance) : BrowserInstance :=
  {| pages := {[pageId]} ∪ pages b; activePages := activePages b;
     createdAt := createdAt b; lastUsed := lastUsed b;
     processingTasks := processingTasks b |}.

(** The [finally] block: [page] tells whether a page was opened,
    [closed] whether [page.close()] resolved. *)
Definition leave (pageId : string) (page closed : bool)
    (b : BrowserInstance) : BrowserInstance :=
  {| pages := if page && closed then pages b ∖ {[pageId]} else pages b;
     activePages := activePages b - 1;
     createdAt := createdAt b; lastUsed := lastUsed b;
     processingTasks := processingTasks b - 1 |}.

(** The test that ends the [finally] block. *)
Definition restartDue (b : BrowserInstance) : bool :=
  bool_decide (BROWSER_RESTART_THRESHOLD ≤ processingTasks b)%Z.

(** One [executeTask] call run alone on its browser instance, from entry
    to the end of [finally]: the instance afterwards, what the call
    returns or throws, and whether [destroyBrowser] was scheduled.
    [newPage] is [Some e] when [browser.newPage()] throws [e]. *)
Definition executeTask (time : Z) (pageId : string) (o : PageTaskOptions)
    (newPage : option string) (r : PageResponses) (b : BrowserInstance)
    : BrowserInstance * Result * bool :=
  let b := enter time b in
  let '(b, page, result) :=
    match newPage with
    | Some e => (b, false, Thrown e)
    | None => (setPage pageId b, true, render o r)
    end in
  let b := leave pageId page (closeOk r) b in
  (b, result, restartDue b).

(** *** The pool *)

Definition freshInstance (time : Z) : BrowserInstance :=
  {| pages := ∅; activePages := 0; createdAt := time; lastUsed := time;
     processingTasks := 0 |}.

Definition hasCapacity (s : State) (browserId : string) : bool :=
  match browserPool s !! browserId with
  | Some b => bool_decide (activePages b < MAX_PAGES_PER_BROWSER)%Z
  | None => false
  end.

(** [processQueue()] up to its first [await]: the test of the queue and
    the part of [getAvailableBrowser()] that runs at once. *)
Definition processQueue (s : State) : State :=
  if bool_decide (length (processingQueue s) = 0%nat) then s
  else
    match List.find (hasCapacity s) (availableBrowsers s) with
    | Some browserId => with_awaiting (awaiting s ++ [browserId]) s
    | None =>
        if bool_decide (size (browserPool s) < POOL_SIZE)%nat
        then with_launching (launching s ++ [FromProcessQueue]) s
        else s
    end.

Definition updateMetrics (f : Metrics → Metrics) (s : State) : State :=
  with_metrics (f (metrics s)) s.

Definition taskStarted (m : Metrics) : Metrics :=
  {| totalTasksProcessed := totalTasksProcessed m;
     activeTasks := activeTasks m + 1;
     browsersCreated := browsersCreated m;
     browsersDestroyed := browsersDestroyed m;
     peakConcurrency := Z.max (peakConcurrency m) (activeTasks m + 1) |}.

Definition taskEnded (m : Metrics) : Metrics :=
  {| totalTasksProcessed := totalTasksProcessed m;
     activeTasks := activeTasks m - 1;
     browsersCreated := browsersCreated m;
     browsersDestroyed := browsersDestroyed m;
     peakConcurrency := peakConcurrency m |}.

Definition taskProcessed (m : Metrics) : Metrics :=
  {| totalTasksProcessed := S (totalTasksProcessed m);
     activeTasks := activeTasks m;
     browsersCreated := browsersCreated m;
     browsersDestroyed := browsersDestroyed m;
     peakConcurrency := peakConcurrency m |}.

Definition browserCreated (m : Metrics) : Metrics :=
  {| totalTasksProcessed := totalTasksProcessed m;
     activeTasks := activeTasks m;
     browsersCreated := S (browsersCreated m);
     browsersDestroyed := browsersDestroyed m;
     peakConcurrency := peakConcurrency m |}.

Definition browserDestroyed (m : Metrics) : Metrics :=
  {| totalTasksProcessed := totalTasksProcessed m;
     activeTasks := activeTasks m;
     browsersCreated := browsersCreated m;
     browsersDestroyed := S (browsersDestroyed m);
     peakConcurrency := peakConcurrency m |}.

(** The end of [processQueue] after [executeTask] returned or threw. *)
Definition finish (t : QueuedTask) (result : Result) (s : State) : State :=
  let s :=
    match result with
    | Returned buffer =>
        settle (promise t) (Fulfilled buffer) (updateMetrics taskProcessed s)
    | Thrown e => settle (promise t) (Rejected e) s
    end in
  setImmediate ImmProcessQueue (updateMetrics taskEnded s).

(** [processQueue()] after [await this.getAvailableBrowser()], up to the
    [await browser.newPage()] of [executeTask]. *)
Definition resume (time : Z) (pageId : string) (s : State) : State :=
  match awaiting s with
  | [] => s
  | browserId :: rest =>
      let s := with_awaiting rest s in
      match processingQueue s with
      | [] => s
      | t :: queue =>
          let s := with_processingQueue queue s in
          let s := updateMetrics taskStarted s in
          match browserPool s !! browserId with
          | None => finish t (Thrown "Браузер недоступен") s
          | Some b =>
              let s := with_browserPool (<[browserId := enter time b]> (browserPool s)) s in
              with_running (running s ++
                [{| task := t; browserId := browserId; pageId := pageId;
                    page := false |}]) s
          end
      end
  end.

Definition findRunning (p : nat) (s : State) : option Running :=
  List.find (λ r, bool_decide (promise (task r) = p)) (running s).

Definition dropRunning (p : nat) (s : State) : State :=
  with_running (filter (λ r, promise (task r) ≠ p) (running s)) s.

(** [newPage()] answered: [browserInstance.pages.set(pageId, page)].
    [browserInstance] is the object [executeTask] read from the pool at
    its entry; once [destroyBrowser] has removed it from the pool nobody
    else sees it, and the model drops updates to it. *)
Definition pageOpened (p : nat) (s : State) : State :=
  match findRunning p s with
  | Some r =>
      if page r then s
      else
        let s := with_browserPool
                   (alter (setPage (pageId r)) (browserId r) (browserPool s)) s in
        with_running
          (running (dropRunning p s) ++
             [{| task := task r; browserId := browserId r; pageId := pageId r;
                 page := true |}]) s
  | None => s
  end.

(** The [finally] block of [executeTask] for the call [r]. *)
Definition leaveTask (r : Running) (closed : bool) (s : State) : State :=
  let s := dropRunning (promise (task r)) s in
  match browserPool s !! browserId r with
  | Some b =>
      let b := leave (pageId r) (page r) closed b in
      let s := with_browserPool (<[browserId r := b]> (browserPool s)) s in
      if restartDue b then setImmediate (ImmDestroyBrowser (browserId r)) s
      else s
  | None => s
  end.

(** The [finally] block of [executeTask], then the end of
    [processQueue]. *)
Definition exitTask (r : Running) (closed : bool) (result : Result)
    (s : State) : State :=
  finish (task r) result (leaveTask r closed s).

(** [newPage()] threw [e]. *)
Definition pageFailed (p : nat) (e : string) (s : State) : State :=
  match findRunning p s with
  | Some r => if page r then s else exitTask r false (Thrown e) s
  | None => s
  end.

(** The page answered the remaining calls as [resp] says. *)
Definition taskSettled (p : nat) (resp : PageResponses) (s : State) : State :=
  match findRunning p s with
  | Some r =>
      if page r then exitTask r (closeOk resp) (render (options (task r)) resp) s
      else s
  | None => s
  end.

(** [initialize()] up to its first [await]. *)
Definition initialize (s : State) : State :=
  if isInitialized s then s
  else with_launching (launching s ++ [FromInitialize 0]) s.

(** What follows a [createBrowser()] call for the caller that awaits
    it: [browser] is the id it returned, [None] when it threw. *)
Definition afterLaunch (o : Origin) (browser : option string) (s : State) : State :=
  match o with
  | FromProcessQueue =>
      match browser with
      | Some browserId => with_awaiting (awaiting s ++ [browserId]) s
      | None => s
      end
  | FromInitialize i =>
      if bool_decide (S i < Nat.min 3 POOL_SIZE)%nat
      then with_launching (launching s ++ [FromInitialize (S i)]) s
      else with_isInitialized true s
  end.

(** [createBrowser()] after the launch of call number [k] succeeded:
    [browserId] and [time] are what [Date.now()] and [Math.random()]
    gave. *)
Definition launched (k : nat) (browserId : string) (time : Z) (s : State) : State :=
  match launching s !! k with
  | Some o =>
      let s := with_launching (delete k (launching s)) s in
      let s := with_browserPool (<[browserId := freshInstance time]> (browserPool s)) s in
      let s := with_availableBrowsers (availableBrowsers s ++ [browserId]) s in
      let s := updateMetrics browserCreated s in
      afterLaunch o (Some browserId) s
  | None => s
  end.

Definition launchFailed (k : nat) (s : State) : State :=
  match launching s !! k with
  | Some o => afterLaunch o None (with_launching (delete k (launching s)) s)
  | None => s
  end.

(** [destroyBrowser(browserId)] up to its first [await]. *)
Definition destroyBrowser (browserId : string) (s : State) : State :=
  match browserPool s !! browserId with
  | Some _ => with_destroying (destroying s ++ [browserId]) s
  | None => s
  end.

Definition indexOf (x : string) (l : list string) : Z :=
  findIndex (λ y, bool_decide (y = x)) l.

(** [destroyBrowser] call number [k] after its pages and its browser
    were closed; [ok] is false when [browser.close()] threw. *)
Definition destroyDone (k : nat) (ok : bool) (s : State) : State :=
  match destroying s !! k with
  | Some browserId =>
      let s := with_destroying (delete k (destroying s)) s in
      if ok then
        let s := with_browserPool (delete browserId (browserPool s)) s in
        let index := indexOf browserId (availableBrowsers s) in
        let s := if bool_decide (index ≠ -1)%Z
                 then with_availableBrowsers (splice1 index (availableBrowsers s)) s
                 else s in
        updateMetrics browserDestroyed s
      else s
  | None => s
  end.

(** [generateImage(options)] *)
Definition generateImage (taskId : string) (o : PageTaskOptions) (time : Z)
    (s : State) : State :=
  let p := promises s in
  let s := with_promises (S p) s in
  if shutdownInProgress s then
    settle p (Rejected "Сервис находится в процессе завершения работы") s
  else
    let t := {| id := taskId; options := o; promise := p; task_createdAt := time |} in
    let s := with_processingQueue (processingQueue s ++ [t]) s in
    let s := with_timers (timers s ++ [(p, taskId)]) s in
    processQueue s.

(** The callback armed by [setTimeout(..., QUEUE_TIMEOUT)]. *)
Definition timeout (p : nat) (s : State) : State :=
  match List.find (λ t, bool_decide (fst t = p)) (timers s) with
  | None => s
  | Some (_, taskId) =>
      let s := with_timers (filter (λ t, fst t ≠ p) (timers s)) s in
      let queueIndex := findIndex (λ t, bool_decide (id t = taskId)) (processingQueue s) in
      if bool_decide (queueIndex ≠ -1)%Z then
        let s := with_processingQueue (splice1 queueIndex (processingQueue s)) s in
        settle p (Rejected "Таймаут генерации изображения") s
      else s
  end.

Definition rejectAll (message : string) (l : list QueuedTask) (s : State) : State :=
  with_settlements
    (settlements s ++ ((λ t, (promise t, Rejected message)) <$> l)) s.

Definition tooOld (time : Z) (b : BrowserInstance) : Prop :=
  (BROWSER_TIMEOUT < time - createdAt b)%Z.

Definition stale (time : Z) (t : QueuedTask) : Prop :=
  (QUEUE_TIMEOUT < time - task_createdAt t)%Z.

#[global] Instance tooOld_dec time b : Decision (tooOld time b).
Proof. unfold tooOld. apply _. Defined.

#[global] Instance stale_dec time t : Decision (stale time t).
Proof. unfold stale. apply _. Defined.

(** The callback of [startCleanupTask], every 30 seconds. *)
Definition sweepInstance (time : Z) (b : BrowserInstance) : BrowserInstance :=
  if decide (tooOld time b) then b
  else if bool_decide (activePages b = 0)%Z then
    {| pages := ∅; activePages := activePages b; createdAt := createdAt b;
       lastUsed := lastUsed b; processingTasks := processingTasks b |}
  else b.

Definition cleanup (time : Z) (s : State) : State :=
  let old := (map_to_list (filter (λ kv, tooOld time kv.2) (browserPool s))).*1 in
  let s := with_destroying (destroying s ++ old) s in
  let s := with_browserPool (sweepInstance time <$> browserPool s) s in
  let s := rejectAll "Таймаут очереди" (filter (stale time) (processingQueue s)) s in
  with_processingQueue (filter (λ t, ¬ stale time t) (processingQueue s)) s.

(** [shutdown()] up to [await Promise.all(destroyPromises)]. *)
Definition shutdown (s : State) : State :=
  let s := with_shutdownInProgress true s in
  let s := rejectAll "Сервис завершает работу" (processingQueue s) s in
  let s := with_processingQueue [] s in
  with_destroying (destroying s ++ (map_to_list (browserPool s)).*1) s.

Definition runImmediate (s : State) : State :=
  match immediates s with
  | [] => s
  | i :: rest =>
      let s := with_immediates rest s in
      match i with
      | ImmProcessQueue => processQueue s
      | ImmDestroyBrowser browserId => destroyBrowser browserId s
      end
  end.

(** What can happen to the pool.  Each event is a piece of code that
    runs without interruption: a call of a public method up to its
    first [await], the continuation of a suspended call, or a callback.
    [Tick] is the callback of [startQueueProcessor]; [Disconnected] is
    the ['disconnected'] event of a browser. *)
Inductive Event :=
| Initialize
| GenerateImage (taskId : string) (o : PageTaskOptions) (time : Z)
| Tick
| RunImmediate
| Resume (time : Z) (pageId : string)
| Launched (k : nat) (browserId : string) (time : Z)
| LaunchFailed (k : nat)
| PageOpened (p : nat)
| PageFailed (p : nat) (e : string)
| TaskSettled (p : nat) (resp : PageResponses)
| Disconnected (browserId : string)
| DestroyDone (k : nat) (ok : bool)
| Cleanup (time : Z)
| Timeout (p : nat)
| Shutdown.

Definition step (s : State) (e : Event) : State :=
  match e with
  | Initialize => initialize s
  | GenerateImage i o t => generateImage i o t s
  | Tick => processQueue s
  | RunImmediate => runImmediate s
  | Resume t pg => resume t pg s
  | Launched k b t => launched k b t s
  | LaunchFailed k => launchFailed k s
  | PageOpened p => pageOpened p s
  | PageFailed p e => pageFailed p e s
  | TaskSettled p r => taskSettled p r s
  | Disconnected b => destroyBrowser b s
  | DestroyDone k ok => destroyDone k ok s
  | Cleanup t => cleanup t s
  | Timeout p => timeout p s
  | Shutdown => shutdown s
  end.

Definition run (s : State) (trace : list Event) : State := foldl step s trace.

(** [getMetrics()]: the four figures computed from the pool. *)
Record PoolMetrics := {
  totalBrowsers : nat;
  m_availableBrowsers : nat;
  queueSize : nat;
  totalPages : nat;
}.

Definition getMetrics (s : State) : PoolMetrics :=
  {| totalBrowsers := size (browserPool s);
     m_availableBrowsers := length (availableBrowsers s);
     queueSize := length (processingQueue s);
     totalPages := map_fold (λ _ b sum, sum + size (pages b))%nat 0%nat (browserPool s) |}.

(** The ids that [createBrowser] drew along a trace. *)
Definition launchedIds (trace : list Event) : list string :=
  omap (λ e, match e with Launched _ browserId _ => Some browserId | _ => None end)
       trace.

(** The list of ids and the map of browsers hold the same ids, the list
    each of them once. *)
Definition inSync (s : State) : Prop :=
  NoDup (availableBrowsers s)
  ∧ ∀ browserId,
      browserId ∈ availableBrowsers s ↔ is_Some (browserPool s !! browserId).

(** How many continuations of [processQueue] hold browser [b]. *)
Definition occurrences (b : string) (l : list string) : Z :=
  Z.of_nat (length (filter (λ x, x = b) l)).

Definition holders (b : string) (s : State) : Z := occurrences b (awaiting s).

(** Every browser has room for the pages it has open and for the tasks
    that were promised to it. *)
Definition withinCap (s : State) : Prop :=
  ∀ b inst, browserPool s !! b = Some inst →
    (activePages inst + holders b s ≤ MAX_PAGES_PER_BROWSER)%Z.

(** Event [e] calls [processQueue] in state [s]. *)
Definition callsProcessQueue (s : State) (e : Event) : bool :=
  match e with
  | GenerateImage _ _ _ => negb (shutdownInProgress s)
  | Tick => true
  | RunImmediate =>
      match immediates s with
      | ImmProcessQueue :: _ => true
      | _ => false
      end
  | _ => false
  end.

(** The calls of [processQueue] come one at a time: none is made while
    another one is suspended with a browser in hand.  This is how the
    calls fall when every submission arrives in a turn of its own, as the
    continuation runs before the next turn starts. *)
Fixpoint oneAtATime (s : State) (trace : list Event) : Prop :=
  match trace with
  | [] => True
  | e :: rest =>
      (callsProcessQueue s e = true → awaiting s = [])
      ∧ oneAtATime (step s e) rest
  end.

End Pool.

(** ** Concrete inputs *)

(** A buffer of 1 KB that starts with the JPEG signature. *)
Definition jpeg1k : Buffer := [xff; xd8; xff] ++ replicate 1021 x00.

Definition emptyRedis : Relay.Redis :=
  {| Relay.image_send_queue := []; Relay.image_result := ∅; Relay.up := true |}.



Definition workerEnv (others : nat → Relay.Redis → Relay.Redis) : Relay.SendEnv :=
  {| Relay.isMasterProcess := false; Relay.botService := None;
     Relay.taskId := "1700000000000-0.5"; Relay.now := 1700000000000;
     Relay.others := others |}.



(** One task goes through the image queue service: the pool of workers
    is set up, the task is submitted and handed to the first worker, the
    worker posts its image back, and the timer of the task fires. *)
Definition workerSuccess (taskId : string) : ImageQueue.WorkerResult :=
  {| ImageQueue.success := true; ImageQueue.data := Some jpeg1k;
     ImageQueue.error := None; ImageQueue.taskId := taskId |}.

Definition submitted (taskId : string) : ImageQueue.Event :=
  ImageQueue.GenerateImage taskId 1000 "<html></html>" 550 800 85 true None.

Definition dispatchedThenAnswered : list ImageQueue.Event :=
  [ImageQueue.Initialize; submitted "task_1";
   ImageQueue.WorkerMessage 0 (workerSuccess "task_1") None;
   ImageQueue.Timeout 0].


(** A page whose calls all succeed and whose screenshot is [jpeg1k]. *)
Definition goodPage : Pool.PageResponses :=
  {| Pool.interception := None; Pool.viewport := None; Pool.content := None;
     Pool.fonts := None; Pool.screenshot := Pool.Shot jpeg1k; Pool.closeOk := true |}.

(** The same page, except that [page.close()] throws. *)
Definition stuckPage : Pool.PageResponses :=
  {| Pool.interception := None; Pool.viewport := None; Pool.content := None;
     Pool.fonts := None; Pool.screenshot := Pool.Shot jpeg1k; Pool.closeOk := false |}.

Definition tierList : Pool.PageTaskOptions :=
  {| Pool.html := "<html></html>"; Pool.viewportWidth := 550;
     Pool.viewportHeight := 800; Pool.quality := 90;
     Pool.optimizeForSpeed := false |}.

(** The pool as [initialize()] leaves it when the three launches
    succeed. *)
Definition poolOfThree : list Pool.Event :=
  [Pool.Initialize; Pool.Launched 0 "browser_1" 0; Pool.Launched 0 "browser_2" 1;
   Pool.Launched 0 "browser_3" 2].

Definition taskName (i : nat) : string := "task_" +:+ pretty i.
Definition pageName (i : nat) : string := "page_" +:+ pretty i.

(** [n] calls of [generateImage] made in one go, for instance by
    [Promise.all(inputs.map(o => pool.generateImage(o)))]: each call runs
    up to the [await] of [processQueue]; the suspended calls of
    [processQueue] continue afterwards, in the order of their creation. *)
Definition burst (n : nat) : list Pool.Event :=
  ((λ i, Pool.GenerateImage (taskName i) tierList 1000) <$> seq 0 n)
  ++ ((λ i, Pool.Resume 1000 (pageName i)) <$> seq 0 n).

(** Task number [i] from its submission to its image, alone in the pool:
    the call of [generateImage], the continuation of [processQueue], the
    page, the screenshot, and the [setImmediate] callback that
    [processQueue] leaves behind. *)
Definition oneTask (i : nat) : list Pool.Event :=
  [Pool.GenerateImage (taskName i) tierList (1000 + Z.of_nat i);
   Pool.Resume (1000 + Z.of_nat i) (pageName i);
   Pool.PageOpened i; Pool.TaskSettled i goodPage; Pool.RunImmediate].

Definition oneAfterAnother (n : nat) : list Pool.Event :=
  flat_map oneTask (seq 0 n).

(** Ten tasks are under way on the first browser, and the third browser
    has gone. *)
Definition busyPool : list Pool.Event :=
  poolOfThree ++ burst 10 ++ [Pool.Disconnected "browser_3"; Pool.DestroyDone 0 true].

(** The pool at rest after [i] tasks: nothing is queued, suspended or
    scheduled, [i] promises were created and [i] tasks processed, and the
    first browser of the list is idle with no task under way. *)
Definition atRest (i : nat) (s : Pool.State) : Prop :=
  Pool.awaiting s = [] ∧ Pool.running s = [] ∧ Pool.immediates s = []
  ∧ Pool.processingQueue s = [] ∧ Pool.destroying s = []
  ∧ Pool.shutdownInProgress s = false ∧ Pool.promises s = i
  ∧ Pool.totalTasksProcessed (Pool.metrics s) = i
  ∧ (∃ rest, Pool.availableBrowsers s = "browser_1" :: rest)
  ∧ ∃ b, Pool.browserPool s !! "browser_1" = Some b
         ∧ Pool.activePages b = 0%Z ∧ Pool.processingTasks b = 0%Z.

(** ** The log of settlements *)

(** How often the log says [resolve] was called, and how often
    [reject]. *)
Definition isFulfilled (o : Settlement) : bool :=
  match o with
  | Fulfilled _ => true
  | Rejected _ => false
  end.

Definition fulfilled (log : list (nat * Settlement)) : nat :=
  length (filter (λ e, isFulfilled e.2 = true) log).

Definition rejected (log : list (nat * Settlement)) : nat :=
  length (filter (λ e, isFulfilled e.2 = false) log).

(** ** Where the promises of the pool are *)
Module Ledger.

(** The ids that [generateImage] drew along a trace. *)
Definition submittedIds (trace : list Pool.Event) : list string :=
  omap (λ e, match e with Pool.GenerateImage taskId _ _ => Some taskId | _ => None end)
       trace.

(** The promises of the queued tasks, of the tasks that [executeTask] is
    working on, and the promises that were settled, a promise as often as
    [resolve] or [reject] was called for it. *)
Definition waiting (s : Pool.State) : list nat :=
  Pool.promise <$> Pool.processingQueue s.

Definition underWay (s : Pool.State) : list nat :=
  (λ r, Pool.promise (Pool.task r)) <$> Pool.running s.

Definition settled (s : Pool.State) : list nat := fst <$> Pool.settlements s.

Definition pending (s : Pool.State) : list nat := (waiting s ++ underWay s)%list.

(** Every pending promise was created, and none is pending twice. *)
Definition pendingOnce (s : Pool.State) : Prop :=
  NoDup (pending s) ∧ Forall (λ p, (p < Pool.promises s)%nat) (pending s).

(** Every promise is in one place: queued, under way or settled once. *)
Definition accounted (s : Pool.State) : Prop :=
  NoDup (pending s ++ settled s)
  ∧ Forall (λ p, (p < Pool.promises s)%nat) (pending s ++ settled s).

(** The timer of a queued task holds the promise of that task, and the
    ids in the queue and in the timers were drawn by [generateImage]. *)
Definition timersMatch (ids : list string) (s : Pool.State) : Prop :=
  (∀ t p, t ∈ Pool.processingQueue s → (p, Pool.id t) ∈ Pool.timers s →
          Pool.promise t = p)
  ∧ (∀ t, t ∈ Pool.processingQueue s → Pool.id t ∈ ids)
  ∧ (∀ p i, (p, i) ∈ Pool.timers s → i ∈ ids).

(** Every queued task has its timer armed, and no promise has two
    timers. *)
Definition timersArmed (s : Pool.State) : Prop :=
  NoDup (Pool.timers s).*1
  ∧ Forall (λ x, (x.1 < Pool.promises s)%nat) (Pool.timers s)
  ∧ ∀ t, t ∈ Pool.processingQueue s → (Pool.promise t, Pool.id t) ∈ Pool.timers s.

(** What the counters of the pool say, against the calls in progress and
    the log of settlements. *)
Definition metricsAgree (s : Pool.State) : Prop :=
  Pool.activeTasks (Pool.metrics s) = Z.of_nat (length (Pool.running s))
  ∧ (Pool.activeTasks (Pool.metrics s) ≤ Pool.peakConcurrency (Pool.metrics s))%Z
  ∧ Pool.totalTasksProcessed (Pool.metrics s) = fulfilled (Pool.settlements s).

End Ledger.

(** Two tasks are queued in the pool of three browsers, and the calls of
    [processQueue] have not continued yet. *)
Definition twoQueued : list Pool.Event :=
  poolOfThree ++ [Pool.GenerateImage (taskName 0) tierList 1000;
                  Pool.GenerateImage (taskName 1) tierList 1001].

(** The first of them has its page, the second is still queued. *)
Definition onePageOpen : list Pool.Event :=
  twoQueued ++ [Pool.Resume 1002 (pageName 0); Pool.PageOpened 0].

(** ** The counters of a browser *)
Module Counters.

(** The calls of [executeTask] in progress on browser [b]. *)
Definition inProgress (b : string) (s : Pool.State) : Z :=
  Pool.occurrences b (Pool.browserId <$> Pool.running s).

(** [activePages] of every browser of the pool is the number of calls in
    progress on it, and every call in progress is on a browser that
    [createBrowser] made. *)
Definition pagesCounted (ids : list string) (s : Pool.State) : Prop :=
  (∀ r, r ∈ Pool.running s → Pool.browserId r ∈ ids)
  ∧ ∀ b inst, Pool.browserPool s !! b = Some inst →
      Pool.activePages inst = inProgress b s.

End Counters.

(** ** Submissions and launches *)

(** A call of [generateImage] with what [Date.now()] and [Math.random()]
    give it. *)
Definition submission (x : string * Pool.PageTaskOptions * Z) : Pool.Event :=
  Pool.GenerateImage x.1.1 x.1.2 x.2.

(** The end of the oldest pending launch: the id and the time of the new
    browser, or [None] when the launch failed. *)
Definition launchEnds (o : option (string * Z)) : Pool.Event :=
  match o with
  | Some (browserId, time) => Pool.Launched 0 browserId time
  | None => Pool.LaunchFailed 0
  end.

(** ** The task processor of [simpleBotMessaging.service.ts] *)
Module Processor.

(** The part of the service object that the task processor uses;
    [taskProcessorInterval] tells whether the interval is armed. *)
Record Service := {
  botService : option Relay.BotService;
  isProcessingTasks : bool;
  taskProcessorInterval : bool;
}.

(** The fields as the class declares them. *)
Definition created : Service :=
  {| botService := None; isProcessingTasks := false; taskProcessorInterval := false |}.

(** [startTaskProcessor()], called by the constructor;
    [isMasterProcess] is [process.env.pm_id === '0']. *)
Definition startTaskProcessor (isMasterProcess : bool) (s : Service) : Service :=
  if isMasterProcess && negb (isProcessingTasks s) then
    {| botService := botService s; isProcessingTasks := true;
       taskProcessorInterval := true |}
  else s.

(** [setBotService(botService)] *)
Definition setBotService (bot : Relay.BotService) (s : Service) : Service :=
  {| botService := Some bot; isProcessingTasks := isProcessingTasks s;
     taskProcessorInterval := taskProcessorInterval s |}.

(** [stop()] *)
Definition stop (s : Service) : Service :=
  {| botService := botService s; isProcessingTasks := false;
     taskProcessorInterval := false |}.

(** [lpop('image_send_queue')] *)
Definition lpop (r : Relay.Redis) : option Relay.ImageTask * Relay.Redis :=
  match Relay.image_send_queue r with
  | [] => (None, r)
  | task :: rest => (Some task, Relay.set_queue rest r)
  end.

(** [processImageTasks()]: the store afterwards and the buffer handed to
    the bot, if any.  A command sent while the store is down throws, and
    the [catch] logs the error. *)
Definition processImageTasks (isMasterProcess : bool) (s : Service) (now : Z)
    (r : Relay.Redis) : Relay.Redis * option Buffer :=
  if negb isMasterProcess || negb (isProcessingTasks s) then (r, None)
  else if negb (Relay.up r) then (r, None)
  else
    match lpop r with
    | (Some task, r') => Relay.handleImageTask (botService s) now task r'
    | (None, _) => (r, None)
    end.

(** The callback of the interval, every 100 ms while it is armed. *)
Definition tick (isMasterProcess : bool) (s : Service) (now : Z)
    (r : Relay.Redis) : Relay.Redis * option Buffer :=
  if taskProcessorInterval s && isProcessingTasks s
  then processImageTasks isMasterProcess s now r
  else (r, None).

(** What the owning process does to the store while a sender polls: its
    processor ticks during the sender's step number [d], and leaves the
    store alone otherwise. *)
Definition ownerAt (d : nat) (s : Service) (now : Z) : nat → Relay.Redis → Relay.Redis :=
  λ i r, if bool_decide (i = d) then (tick true s now r).1 else r.

End Processor.


(** A bot that is available and delivers every image, the service of
    the owning process with that bot, and a worker process whose task the
    owner takes at its fourth tick. *)
Definition goodBot : Relay.BotService :=
  {| Relay.isBotAvailable := true; Relay.bot_sendImage := λ _ _ _, Relay.Sent true |}.

Definition ownerService : Processor.Service :=
  Processor.setBotService goodBot (Processor.startTaskProcessor true Processor.created).

Definition servedEnv : Relay.SendEnv :=
  workerEnv (Processor.ownerAt 3 ownerService 1700000000300).

(** ** [sendImage] of the bot service

    The method of [TelegramBotService] that [handleImageTask] and the
    direct path of [sendImage] call. *)
Module TelegramBot.

(** What Telegram does during one call of [sendImage]: [sendPhoto a] is
    the outcome of [bot.sendPhoto] in attempt number [a], [Some message]
    when it throws an error with that message; [viaFile a] is what
    [sendImageViaFile] answers when it is called after attempt [a] failed,
    and [viaFile 0] when it is called instead of the attempts.
    [sendImageViaFile] catches whatever it throws, so it always answers. *)
Record Telegram := {
  sendPhoto : nat → option string;
  viaFile : nat → bool;
}.

(** [errorMessage.includes(sub)] *)
Definition includes (sub errorMessage : string) : bool :=
  match String.index 0 sub errorMessage with
  | Some _ => true
  | None => false
  end.

(** [validateJPEGBuffer(buffer)]: the test of the last two bytes only
    logs a warning. *)
Definition validateJPEGBuffer (buffer : Buffer) : bool :=
  if bool_decide (length buffer < 10)%nat then false
  else if negb (isValidJPEG buffer) then false
  else true.

Definition maxAttempts : nat := 3.

(** The errors after which the file method is tried. *)
Definition bufferError (errorMessage : string) : bool :=
  includes "Maximum call stack size exceeded" errorMessage
  || includes "Unsupported Buffer file-type" errorMessage
  || includes "EFATAL" errorMessage.

(** The loop [while (attempt < maxAttempts)]: [left] is
    [maxAttempts - attempt].  The answer, and how often [bot.sendPhoto]
    was called with the buffer. *)
Fixpoint attempts (t : Telegram) (left attempt : nat) : bool * nat :=
  match left with
  | O => (false, attempt)
  | S left' =>
      let attempt := S attempt in
      match sendPhoto t attempt with
      | None => (true, attempt)
      | Some errorMessage =>
          if bufferError errorMessage && viaFile t attempt then (true, attempt)
          else attempts t left' attempt
      end
  end.

(** [sendImage(chatId, imageBuffer, caption)]; [bot] tells whether
    [this.bot] is set. *)
Definition sendImage (bot : bool) (t : Telegram) (imageBuffer : Buffer) : bool * nat :=
  if negb bot then (false, 0%nat)
  else if bool_decide (length imageBuffer = 0%nat) then (false, 0%nat)
  else if negb (validateJPEGBuffer imageBuffer) then (viaFile t 0, 0%nat)
  else attempts t maxAttempts 0.

(** Attempt [a] ends the call with [true]. *)
Definition delivers (t : Telegram) (a : nat) : bool :=
  match sendPhoto t a with
  | None => true
  | Some errorMessage => bufferError errorMessage && viaFile t a
  end.

(** [isClusterMaster] of the bot service and [isMasterProcess] of the
    messaging service, from [process.env.pm_id]. *)
Definition isClusterMaster (pm_id : option string) : bool :=
  bool_decide (pm_id = None ∨ pm_id = Some "" ∨ pm_id = Some "0").

Definition isMasterProcess (pm_id : option string) : bool :=
  bool_decide (pm_id = Some "0").

(** [isBotAvailable()] and the bot service as the relay sees it. *)
Definition botService (pm_id : option string) (bot : bool) (t : Telegram)
    : Relay.BotService :=
  {| Relay.isBotAvailable := isClusterMaster pm_id && bot;
     Relay.bot_sendImage := λ _ imageBuffer _, Relay.Sent (sendImage bot t imageBuffer).1 |}.

(** The messaging service of a process as its constructor and
    [setBotService] leave it. *)
Definition messaging (pm_id : option string) (bot : bool) (t : Telegram)
    : Processor.Service :=
  Processor.setBotService (botService pm_id bot t)
    (Processor.startTaskProcessor (isMasterProcess pm_id) Processor.created).

(** A call of [sendImage] in a process whose store is touched by the
    task processors of [peers] only: processes with the given [pm_id]s,
    each ticking between any two commands of the sender. *)
Definition peersTick (peers : list (option string * bool * Telegram)) (now : Z)
    (r : Relay.Redis) : Relay.Redis :=
  foldl (λ r peer,
           (Processor.tick (isMasterProcess peer.1.1)
              (messaging peer.1.1 peer.1.2 peer.2) now r).1)
        r peers.

Definition sendEnv (pm_id : option string) (bot : bool) (t : Telegram)
    (peers : list (option string * bool * Telegram)) (taskId : string) (now : Z)
    : Relay.SendEnv :=
  {| Relay.isMasterProcess := isMasterProcess pm_id;
     Relay.botService := Some (botService pm_id bot t);
     Relay.taskId := taskId;
     Relay.now := now;
     Relay.others := λ _ r, peersTick peers now r |}.

End TelegramBot.

(** Telegram accepts the photo at the second attempt. *)
Definition secondTime : TelegramBot.Telegram :=
  {| TelegramBot.sendPhoto := λ a, if bool_decide (a = 2%nat) then None
                                   else Some "ETELEGRAM: 429 Too Many Requests";
     TelegramBot.viaFile := λ _, false |}.

(** ** The counters of the image queue service *)
Module QueueLedger.

(** What the counters say, against the log of settlements: every
    submission is counted as queued or was refused for a full queue, every
    [resolve] is counted as completed, and every [reject] is counted as
    failed, except the refusals for a full queue. *)
Definition metricsAgree (s : ImageQueue.State) : Prop :=
  (ImageQueue.tasksQueued (ImageQueue.metrics s) ≤ ImageQueue.promises s)%nat
  ∧ ImageQueue.m_tasksCompleted (ImageQueue.metrics s)
    = fulfilled (ImageQueue.settlements s)
  ∧ (ImageQueue.tasksFailed (ImageQueue.metrics s)
     + (ImageQueue.promises s - ImageQueue.tasksQueued (ImageQueue.metrics s)))%nat
    = rejected (ImageQueue.settlements s).

End QueueLedger.

(** ** The timers of the image queue service *)
Module QueueTimers.

(** The ids that [generateImage] drew along a trace. *)
Definition submittedIds (trace : list ImageQueue.Event) : list string :=
  omap (λ e, match e with
             | ImageQueue.GenerateImage taskId _ _ _ _ _ _ _ => Some taskId
             | _ => None
             end) trace.

Definition waiting (s : ImageQueue.State) : list nat :=
  ImageQueue.promise <$> ImageQueue.taskQueue s.

(** The timer of a queued task holds the promise of that task, and the
    ids in the queue and in the timers were drawn by [generateImage]. *)
Definition timersMatch (ids : list string) (s : ImageQueue.State) : Prop :=
  (∀ t p, t ∈ ImageQueue.taskQueue s → (p, ImageQueue.id t) ∈ ImageQueue.timers s →
          ImageQueue.promise t = p)
  ∧ (∀ t, t ∈ ImageQueue.taskQueue s → ImageQueue.id t ∈ ids)
  ∧ (∀ p i, (p, i) ∈ ImageQueue.timers s → i ∈ ids).

(** Every queued task has its timer armed, and no promise has two
    timers. *)
Definition timersArmed (s : ImageQueue.State) : Prop :=
  NoDup (ImageQueue.timers s).*1
  ∧ Forall (λ x, (x.1 < ImageQueue.promises s)%nat) (ImageQueue.timers s)
  ∧ ∀ t, t ∈ ImageQueue.taskQueue s →
         (ImageQueue.promise t, ImageQueue.id t) ∈ ImageQueue.timers s.

End QueueTimers.

(** Two tasks are submitted to the image queue service before its
    workers are set up. *)
Definition twoWaiting : list ImageQueue.Event :=
  [submitted "task_1"; submitted "task_2"].

(** ** The cache helpers: [withCache], [invalidateCache],
    [createCacheOptions] *)
Module Cache.

(** The Redis server behind [redisService], as far as the cache uses it.
    A key holds a text and, when it was set with [EX], the second at which
    it expires.  A read command ([GET], [KEYS]) is answered when
    [readable], a write command ([SET], [DEL]) when [writable]; otherwise
    the promise of the client is rejected. *)
Record Store := {
  entries : gmap string (string * option Z);
  readable : bool;
  writable : bool;
}.

Definition with_entries (m : gmap string (string * option Z)) (r : Store) : Store :=
  {| entries := m; readable := readable r; writable := writable r |}.

Definition expired (now : Z) (e : string * option Z) : bool :=
  match e.2 with
  | Some deadline => bool_decide (deadline ≤ now)%Z
  | None => false
  end.

(** [redisService.get(key)] at second [now]: [None] when the command is
    rejected, [Some None] for [null]. *)
Definition get (now : Z) (key : string) (r : Store) : option (option string) :=
  if readable r then
    Some (match entries r !! key with
          | Some e => if expired now e then None else Some e.1
          | None => None
          end)
  else None.

(** [redisService.set(key, value, ttl)]:
    [if (ttl) client.set(key, value, 'EX', ttl) else client.set(key, value)].
    The server refuses an expire time that is not positive. *)
Definition set (now : Z) (key value : string) (ttl : Z) (r : Store) : option Store :=
  if negb (writable r) then None
  else if bool_decide (ttl = 0)%Z then
    Some (with_entries (<[key := (value, None)]> (entries r)) r)
  else if bool_decide (ttl < 0)%Z then None
  else Some (with_entries (<[key := (value, Some (now + ttl)%Z)]> (entries r)) r).

(** [redisService.keys(pattern)]; [glob pattern key] is the pattern
    matching of the server. *)
Definition keys (glob : string → string → bool) (now : Z) (pattern : string)
    (r : Store) : option (list string) :=
  if readable r then
    Some (filter (λ key, glob pattern key = true)
            (map_to_list (filter (λ kv, expired now kv.2 = false) (entries r))).*1)
  else None.

(** [redisService.deleteMany(keys)] *)
Definition deleteMany (ks : list string) (r : Store) : option Store :=
  if bool_decide (length ks = 0%nat) then Some r
  else if negb (writable r) then None
  else Some (with_entries (foldr delete (entries r) ks) r).

(** [interface CacheOptions]; [None] is a field that is not given. *)
Record CacheOptions := {
  ttl : option Z;
  keyPrefix : option string;
  skipCache : option bool;
}.

(** [createCacheOptions(isAdminUser, baseOptions)] *)
Definition createCacheOptions (isAdminUser : bool) (baseOptions : CacheOptions)
    : CacheOptions :=
  {| ttl := ttl baseOptions; keyPrefix := keyPrefix baseOptions;
     skipCache := Some isAdminUser |}.

(** How a call of [withCache] ends: with a value, with the error that
    [fn] threw, or with the rejection of the [GET] command. *)
Inductive Outcome (T : Type) :=
| Returned (x : T)
| Threw (error : string)
| GetRejected.
Arguments Returned {T} x.
Arguments Threw {T} error.
Arguments GetRejected {T}.

(** The key that [withCache] reads and writes. *)
Definition cacheKey (key : string) (options : CacheOptions) : string :=
  let keyPrefix := default "" (keyPrefix options) in
  if bool_decide (keyPrefix ≠ "") then keyPrefix ++ key else key.

(** [withCache(fn, key, options)].  [parse] is [JSON.parse], [None] when
    it throws; [stringify] is [JSON.stringify], [None] when it throws.
    [fn] is what the function does when it is called: its value or the
    error it throws.  The cache is read at second [now] and written at
    second [later].  The result: how the call ends, the store afterwards,
    and whether [fn] was called. *)
Definition withCache {T : Type} (parse : string → option T)
    (stringify : T → option string) (fn : T + string) (key : string)
    (options : CacheOptions) (now later : Z) (r : Store)
    : Outcome T * Store * bool :=
  let ttl := default 3600%Z (ttl options) in
  let skipCache := default false (skipCache options) in
  let cacheKey := cacheKey key options in
  let run :=
    match fn with
    | inl result => Returned result
    | inr error => Threw error
    end in
  if skipCache then (run, r, true)
  else
    match get now cacheKey r with
    | None => (GetRejected, r, false)
    | Some cachedData =>
        let hit :=
          match cachedData with
          | Some text => if bool_decide (text ≠ "") then parse text else None
          | None => None
          end in
        match hit with
        | Some x => (Returned x, r, false)
        | None =>
            match fn with
            | inr error => (Threw error, r, true)
            | inl result =>
                let r' :=
                  match stringify result with
                  | Some text =>
                      match set later cacheKey text ttl r with
                      | Some r' => r'
                      | None => r
                      end
                  | None => r
                  end in
                (Returned result, r', true)
            end
        end
    end.

(** [invalidateCache(keyPattern)] *)
Definition invalidateCache (glob : string → string → bool) (now : Z)
    (keyPattern : string) (r : Store) : Store :=
  match keys glob now keyPattern r with
  | None => r
  | Some ks =>
      if bool_decide (0 < length ks)%nat then
        match deleteMany ks r with
        | Some r' => r'
        | None => r
        end
      else r
  end.

End Cache.

(** A store that answers every command and holds nothing; the same store
    when it refuses to write; a codec for texts, which puts them between
    apostrophes; the matching of a pattern that ends in a star; and the
    options of a cached list of clubs. *)
Definition emptyStore : Cache.Store :=
  {| Cache.entries := ∅; Cache.readable := true; Cache.writable := true |}.

Definition readOnlyStore : Cache.Store :=
  {| Cache.entries := ∅; Cache.readable := true; Cache.writable := false |}.

Definition quote (x : string) : option string := Some ("'" ++ x ++ "'").

Definition unquote (text : string) : option string :=
  if bool_decide (2 ≤ String.length text)%nat
  then Some (String.substring 1 (String.length text - 2) text)
  else None.

Definition prefixGlob (pattern key : string) : bool :=
  String.prefix (String.substring 0 (String.length pattern - 1) pattern) key.

Definition clubsOptions : Cache.CacheOptions :=
  {| Cache.ttl := Some 600%Z; Cache.keyPrefix := Some "cache:clubs:";
     Cache.skipCache := None |}.

(** * Properties *)

(** ** The transport encoding *)

(** The test vectors of RFC 4648, section 10. *)
Example rfc4648_vectors :
  Base64.encode [] = ""
  ∧ Base64.encode [x66] = "Zg=="
  ∧ Base64.encode [x66; x6f] = "Zm8="
  ∧ Base64.encode [x66; x6f; x6f] = "Zm9v"
  ∧ Base64.encode [x66; x6f; x6f; x62] = "Zm9vYg=="
  ∧ Base64.encode [x66; x6f; x6f; x62; x61] = "Zm9vYmE="
  ∧ Base64.encode [x66; x6f; x6f; x62; x61; x72] = "Zm9vYmFy"
  ∧ Base64.decode "Zm9vYmE=" = [x66; x6f; x6f; x62; x61]
  ∧ Base64.base64Regex "Zm9vYmE=" = true
  ∧ Base64.base64Regex "Zm9v=YmE" = false.
Proof. repeat split. Qed.

Section Base64Facts.
Import Base64.
Local Open Scope N_scope.

Local Ltac euclid := zify; Z.to_euclidean_division_equations; lia.

Lemma digit_ok_below_64 n : n < 64 → digit_ok n = true.
Proof.
  intros Hn.
  assert (Hall : forallb digit_ok (N.of_nat <$> seq 0 64) = true)
    by (vm_compute; reflexivity).
  rewrite forallb_forall in Hall. apply Hall.
  apply list_elem_of_In, list_elem_of_fmap. exists (N.to_nat n). split; [lia|].
  apply elem_of_seq. lia.
Qed.

Lemma value_digit n : n < 64 → value (digit n) = Some n.
Proof.
  intros Hn. pose proof (digit_ok_below_64 n Hn) as H.
  unfold digit_ok in H. rewrite !andb_true_iff in H. destruct H as [[H _] _].
  destruct (value (digit n)); [|done]. apply N.eqb_eq in H. by subst.
Qed.

Lemma digit_not_pad n : n < 64 → Ascii.eqb (digit n) pad = false.
Proof.
  intros Hn. pose proof (digit_ok_below_64 n Hn) as H.
  unfold digit_ok in H. rewrite !andb_true_iff in H. destruct H as [[_ H] _].
  by apply negb_true_iff in H.
Qed.

Lemma digit_in_alphabet n : n < 64 → is_Some (index_from 0 (digit n) alphabet).
Proof.
  intros Hn. pose proof (digit_ok_below_64 n Hn) as H.
  unfold digit_ok in H. rewrite !andb_true_iff in H. destruct H as [_ H].
  by apply bool_decide_eq_true in H.
Qed.

Lemma digits_cons n l s :
  digits (n :: l) ++ s = String (digit n) (digits l ++ s).
Proof. reflexivity. Qed.

Lemma sextets_digits l s :
  Forall (λ n, n < 64) l → sextets (digits l ++ s) = (l ++ sextets s)%list.
Proof.
  induction 1 as [|n l Hn _ IH]; [done|].
  rewrite digits_cons. cbn [sextets].
  rewrite digit_not_pad, value_digit by done.
  cbn [app]. f_equal. apply IH.
Qed.

Lemma strip_digits_digits l s :
  Forall (λ n, n < 64) l → strip_digits (digits l ++ s) = strip_digits s.
Proof.
  induction 1 as [|n l Hn _ IH]; [done|].
  rewrite digits_cons. cbn [strip_digits].
  rewrite bool_decide_eq_true_2 by by apply digit_in_alphabet.
  apply IH.
Qed.

Lemma group3_digits a b c : Forall (λ n, n < 64) (group3 a b c).
Proof.
  pose proof (Byte.to_N_bounded a). pose proof (Byte.to_N_bounded b).
  pose proof (Byte.to_N_bounded c).
  unfold group3. repeat constructor; euclid.
Qed.

Lemma group2_digits a b : Forall (λ n, n < 64) (group2 a b).
Proof.
  pose proof (Byte.to_N_bounded a). pose proof (Byte.to_N_bounded b).
  unfold group2. repeat constructor; euclid.
Qed.

Lemma group1_digits a : Forall (λ n, n < 64) (group1 a).
Proof.
  pose proof (Byte.to_N_bounded a).
  unfold group1. repeat constructor; euclid.
Qed.

Lemma byte_of_to_N a n : n = Byte.to_N a → byte_of_N n = a.
Proof. intros ->. unfold byte_of_N. by rewrite Byte.of_to_N. Qed.

Lemma ungroup_group3 a b c rest :
  bytes_of_sextets (group3 a b c ++ rest) = a :: b :: c :: bytes_of_sextets rest.
Proof.
  pose proof (Byte.to_N_bounded a). pose proof (Byte.to_N_bounded b).
  pose proof (Byte.to_N_bounded c).
  unfold group3. cbn [app bytes_of_sextets]. unfold ungroup4. cbn [app].
  f_equal; [|f_equal; [|f_equal]]; apply byte_of_to_N; euclid.
Qed.

Lemma ungroup_group2 a b : bytes_of_sextets (group2 a b) = [a; b].
Proof.
  pose proof (Byte.to_N_bounded a). pose proof (Byte.to_N_bounded b).
  unfold group2. cbn [bytes_of_sextets]. unfold ungroup3.
  f_equal; [|f_equal]; apply byte_of_to_N; euclid.
Qed.

Lemma ungroup_group1 a : bytes_of_sextets (group1 a) = [a].
Proof.
  pose proof (Byte.to_N_bounded a).
  unfold group1. cbn [bytes_of_sextets]. unfold ungroup2.
  f_equal; apply byte_of_to_N; euclid.
Qed.

Lemma list_ind3 {A} (P : list A → Prop) :
  P [] → (∀ a, P [a]) → (∀ a b, P [a; b]) →
  (∀ a b c l, P l → P (a :: b :: c :: l)) → ∀ l, P l.
Proof.
  intros H0 H1 H2 H3 l.
  cut (P l ∧ (∀ a, P (a :: l)) ∧ (∀ a b, P (a :: b :: l))); [tauto|].
  induction l as [|x l (IH0 & IH1 & IH2)]; [by auto|].
  split; [apply IH1|]. split; [intros a; apply IH2|]. intros a b. by apply H3.
Qed.

Lemma decode_encode b : decode (encode b) = b.
Proof.
  unfold decode. induction b as [|a|a b|a b c l IH] using list_ind3.
  - done.
  - cbn [encode]. rewrite sextets_digits by apply group1_digits.
    cbn [sextets]. rewrite app_nil_r. apply ungroup_group1.
  - cbn [encode]. rewrite sextets_digits by apply group2_digits.
    cbn [sextets]. rewrite app_nil_r. apply ungroup_group2.
  - cbn [encode]. rewrite sextets_digits by apply group3_digits.
    rewrite ungroup_group3. by rewrite IH.
Qed.

Lemma encode_nonempty b : b ≠ [] → String.length (encode b) ≠ 0%nat.
Proof.
  destruct b as [|a [|b [|c l]]]; [done|..]; intros _; cbn [encode];
    unfold group1, group2, group3; rewrite digits_cons; cbn [String.length]; lia.
Qed.

Lemma base64Regex_encode b : base64Regex (encode b) = true.
Proof.
  unfold base64Regex. apply bool_decide_eq_true.
  induction b as [|a|a b|a b c l IH] using list_ind3.
  - by left.
  - cbn [encode]. rewrite strip_digits_digits by apply group1_digits. by right; right.
  - cbn [encode]. rewrite strip_digits_digits by apply group2_digits. by right; left.
  - cbn [encode]. by rewrite strip_digits_digits by apply group3_digits.
Qed.

End Base64Facts.

Lemma testBufferConversion_nonempty b :
  b ≠ [] → testBufferConversion b = true ∧ String.length (Base64.encode b) ≠ 0%nat.
Proof.
  intros Hne. split; [|by apply encode_nonempty].
  unfold testBufferConversion. rewrite decode_encode.
  rewrite (bool_decide_eq_false_2 (length b = 0%nat)) by by destruct b.
  rewrite (bool_decide_eq_false_2 (String.length _ = 0%nat))
    by by apply encode_nonempty.
  rewrite (bool_decide_eq_false_2 (length b ≠ _)) by (intros H; by apply H).
  rewrite (bool_decide_eq_true_2 (b = b)) by done.
  by rewrite (bool_decide_eq_false_2 (Base64.encode _ ≠ _)) by (intros H; by apply H).
Qed.

(** C8. The transport encoding of the relay round-trips: decoding the
    base64 text of a buffer gives back the buffer byte for byte, hence
    with the same length and the same leading signature bytes, and
    encoding the decoded buffer gives the same text again.  The
    conversion test of [bufferTest.ts] therefore accepts every buffer
    that is not empty. *)
Theorem transport_encoding_roundtrip (b : Buffer) :
  let sent := Base64.encode b in
  let received := Base64.decode sent in
  received = b
  ∧ length received = length b
  ∧ subarray received 0 3 = subarray b 0 3
  ∧ isValidJPEG received = isValidJPEG b
  ∧ Base64.encode received = sent
  ∧ testBufferConversion b = bool_decide (b ≠ []).
Proof.
  cbv zeta. rewrite decode_encode. repeat split.
  destruct b as [|x b]; [done|].
  rewrite bool_decide_eq_true_2 by done.
  by apply testBufferConversion_nonempty.
Qed.

(** On the owning side the payload written by the sender passes the
    format and integrity checks of [handleImageTask], and the bot is
    handed the sender's buffer. *)
Lemma handleImageTask_delivers_original bot time env chat buffer cap r :
  Relay.isBotAvailable bot = true →
  Relay.validateImageBuffer buffer = true →
  (Relay.handleImageTask (Some bot) time (Relay.imageTask env chat buffer cap) r).2
  = Some buffer.
Proof.
  intros Hbot Hvalid. unfold Relay.handleImageTask. cbn [Relay.botAvailable].
  rewrite Hbot. cbn [negb Relay.imageTask Relay.imageBuffer].
  assert (Hne : buffer ≠ []).
  { intros ->. by vm_compute in Hvalid. }
  rewrite bool_decide_eq_false_2; last first.
  { intros H. apply (encode_nonempty buffer Hne). by rewrite H. }
  rewrite base64Regex_encode, decode_encode. cbn [negb].
  rewrite bool_decide_eq_false_2 by by destruct buffer.
  rewrite bool_decide_eq_false_2 by (intros H; by apply H).
  rewrite Hvalid. cbn [negb].
  by destruct (Relay.bot_sendImage _ _ _ _), (Relay.up r).
Qed.

(** ** The wait loop of the relay *)
Section RelayFacts.
Import Relay.



(** A poll that finds a result ends the call with the stored answer and
    deletes the entry. *)
Lemma waitForResult_found others key budget i r parsed :
  up (others i r) = true →
  image_result (others i r) !! key = Some parsed →
  waitForResult (S budget) i key others r
  = (success parsed,
     set_result (delete key (image_result (others i r))) (others i r), S i).
Proof. intros Hup Hres. cbn [waitForResult]. by rewrite Hup, Hres. Qed.

End RelayFacts.




(** ** Arrays *)
Section ArrayFacts.
Context {A : Type}.
Implicit Types (l : list A) (pred : A → bool).

Lemma findIndex_range pred l :
  (findIndex pred l = -1 ∨ 0 ≤ findIndex pred l < Z.of_nat (length l))%Z.
Proof.
  induction l as [|x l IH]; [by left|]. cbn [findIndex length].
  destruct (pred x); [right; lia|]. case_bool_decide; [by left|]. right. lia.
Qed.

Lemma findIndex_found pred l i :
  findIndex pred l = Z.of_nat i →
  ∃ x, l !! i = Some x ∧ pred x = true ∧ Forall (λ y, pred y = false) (take i l).
Proof.
  revert i. induction l as [|x l IH]; intros i; cbn [findIndex]; [lia|].
  destruct (pred x) eqn:Hx.
  - intros Hi. assert (i = 0%nat) as -> by lia. exists x. by repeat split.
  - case_bool_decide as Hm; [lia|]. intros Hi.
    destruct i as [|i]; [pose proof (findIndex_range pred l); lia|].
    destruct (IH i) as (y & Hy & Hp & Hall); [lia|].
    exists y. repeat split; [done..|]. cbn [take]. by constructor.
Qed.

Lemma findIndex_absent pred l :
  findIndex pred l = (-1)%Z → Forall (λ y, pred y = false) l.
Proof.
  induction l as [|x l IH]; cbn [findIndex]; [by constructor|].
  destruct (pred x) eqn:Hx; [done|]. case_bool_decide as Hm;
    [|pose proof (findIndex_range pred l); intros; lia].
  intros _. constructor; auto.
Qed.

Lemma splice1_at l (i : nat) : splice1 (Z.of_nat i) l = delete i l.
Proof.
  unfold splice1. rewrite bool_decide_eq_false_2 by lia. by rewrite Nat2Z.id.
Qed.

Lemma splice1_sublist index l : splice1 index l `sublist_of` l.
Proof. apply sublist_delete. Qed.

Lemma sublist_Forall_inv (P : A → Prop) l k :
  l `sublist_of` k → Forall P k → Forall P l.
Proof.
  intros Hsub. induction Hsub as [|x l k Hs IH|x l k Hs IH]; [done|..];
    rewrite ?Forall_cons; tauto.
Qed.

Lemma sublist_StronglySorted (R : relation A) l k :
  l `sublist_of` k → StronglySorted R k → StronglySorted R l.
Proof.
  intros Hsub. induction Hsub as [|x l k Hsub IH|x l k Hsub IH]; [done|..];
    intros [Hall Hk]%StronglySorted_cons.
  - apply StronglySorted_cons. split; [|auto]. by eapply sublist_Forall_inv.
  - auto.
Qed.

Lemma sublist_elem_of_inv l k x : l `sublist_of` k → x ∈ l → x ∈ k.
Proof.
  intros Hsub. revert x. apply Forall_forall.
  eapply sublist_Forall_inv; [done|]. by apply Forall_forall.
Qed.

End ArrayFacts.

(** ** Queues in the order of submission *)
Section OrderFacts.
Context {T : Type} (promise : T → nat).
Implicit Types (queue : list T) (t : T).

Lemma inOrder_nil created : inOrder promise created [].
Proof. split; constructor. Qed.

Lemma inOrder_sublist created queue queue' :
  queue' `sublist_of` queue → inOrder promise created queue →
  inOrder promise created queue'.
Proof.
  intros Hsub [Hsorted Hcreated]. split.
  - by eapply sublist_StronglySorted.
  - by eapply sublist_Forall_inv.
Qed.

Lemma inOrder_mono created created' queue :
  (created ≤ created')%nat → inOrder promise created queue →
  inOrder promise created' queue.
Proof.
  intros Hle [Hsorted Hcreated]. split; [done|].
  eapply Forall_impl; [done|]. cbn. intros; lia.
Qed.

Lemma inOrder_push created queue t :
  promise t = created → inOrder promise created queue →
  inOrder promise (S created) (queue ++ [t]).
Proof.
  intros Ht [Hsorted Hcreated]. split.
  - apply StronglySorted_app_2; [|done|repeat constructor].
    intros x1 x2 Hx1 ->%list_elem_of_singleton.
    rewrite Forall_forall in Hcreated. unfold byAge. rewrite Ht. by apply Hcreated.
  - apply Forall_app. split.
    + eapply Forall_impl; [done|]. cbn. intros; lia.
    + constructor; [lia|constructor].
Qed.

(** While an older task is queued, taking the head of the queue does
    not take a younger one. *)
Lemma older_first created t queue t1 t2 :
  inOrder promise created (t :: queue) →
  t1 ∈ t :: queue → t2 ∈ t :: queue → (promise t1 < promise t2)%nat →
  t2 ∈ queue.
Proof.
  intros [[Hall _]%StronglySorted_cons _] H1 H2 Hlt.
  rewrite Forall_forall in Hall. unfold byAge in Hall.
  apply elem_of_cons in H2 as [->|H2]; [|done].
  apply elem_of_cons in H1 as [->|H1]; [lia|].
  specialize (Hall _ H1). lia.
Qed.

End OrderFacts.

(** ** The image queue service *)
Section ImageQueueFacts.
Import ImageQueue.

Lemma iq_processQueue_taskQueue post s :
  taskQueue (processQueue post s) = taskQueue s
  ∨ ∃ t, taskQueue s = t :: taskQueue (processQueue post s).
Proof.
  unfold processQueue.
  destruct (List.find (isFree s) (workers s)); [|by left].
  destruct (taskQueue s) as [|t rest] eqn:Hq; [by left|].
  right. exists t. by destruct post.
Qed.

Lemma iq_processQueue_promises post s :
  promises (processQueue post s) = promises s.
Proof. unfold processQueue. by repeat case_match. Qed.

Lemma iq_processQueue_sublist post s :
  taskQueue (processQueue post s) `sublist_of` taskQueue s.
Proof.
  destruct (iq_processQueue_taskQueue post s) as [->|[t ->]]; [done|].
  by apply sublist_cons.
Qed.

Lemma iq_createWorker_queue s :
  taskQueue (createWorker s) = taskQueue s ∧ promises (createWorker s) = promises s.
Proof. done. Qed.

(** A step leaves the queue as it is, removes tasks from it, or is a
    submission below the ceiling that appends one task. *)
Lemma iq_step_queue s e :
  (taskQueue (step s e) `sublist_of` taskQueue s
   ∧ (promises s ≤ promises (step s e))%nat)
  ∨ (∃ t, taskQueue (step s e) `sublist_of` (taskQueue s ++ [t])%list
       ∧ promise t = promises s
       ∧ promises (step s e) = S (promises s)
       ∧ (length (taskQueue s) < MAX_QUEUE_SIZE)%nat).
Proof.
  destruct e as [|i time h wd ht q o post|p|w r post|w m|w|ok]; cbn [step].
  - left. unfold initialize. by destruct (isInitialized s).
  - unfold generateImage. cbn [taskQueue with_promises].
    case_bool_decide as Hfull.
    + left. cbn. split; [done|lia].
    + right. eexists. split; [|split; [|split]].
      * cbn [taskQueue with_timers]. etrans; [apply iq_processQueue_sublist|].
        cbn. reflexivity.
      * done.
      * cbn [promises with_timers]. by rewrite iq_processQueue_promises.
      * lia.
  - left. unfold timeout. destruct (List.find _ _) as [[? taskId]|]; [|done].
    case_bool_decide; [|done]. cbn. split; [apply splice1_sublist|done].
  - left. unfold handleWorkerMessage.
    destruct (findTaskById _ _); [|done].
    rewrite iq_processQueue_promises. split.
    + etrans; [apply iq_processQueue_sublist|]. by repeat case_match.
    + by repeat case_match.
  - left. unfold handleWorkerError.
    by destruct (findTaskById _ _).
  - left. unfold handleWorkerExit. by case_bool_decide.
  - left. unfold terminateDone. destruct (restarts s); [done|]. by destruct ok.
Qed.

Lemma iq_step_wellFormed s e : wellFormed s → wellFormed (step s e).
Proof.
  intros [Horder Hlen].
  destruct (iq_step_queue s e) as [[Hsub Hp]|(t & Hsub & Ht & Hp & Hroom)].
  - split.
    + eapply inOrder_sublist; [done|]. by eapply inOrder_mono.
    + apply sublist_length in Hsub. lia.
  - split.
    + rewrite Hp. eapply inOrder_sublist; [done|]. by apply inOrder_push.
    + apply sublist_length in Hsub. rewrite length_app in Hsub.
      cbn [length] in Hsub. lia.
Qed.

Lemma iq_run_wellFormed trace : ∀ s, wellFormed s → wellFormed (run s trace).
Proof.
  induction trace as [|e trace IH]; intros s Hs; [done|].
  cbn [run foldl]. apply IH. by apply iq_step_wellFormed.
Qed.

Lemma iq_initial_wellFormed : wellFormed initial.
Proof. split; [apply inOrder_nil|cbn; unfold MAX_QUEUE_SIZE; lia]. Qed.

Lemma iq_processQueue_settlements post s :
  ∃ new, settlements (processQueue post s) = (settlements s ++ new)%list
    ∧ Forall (λ e, ∃ t, t ∈ taskQueue s ∧ promise t = e.1) new.
Proof.
  unfold processQueue.
  destruct (List.find (isFree s) (workers s));
    [|exists []; by rewrite app_nil_r].
  destruct (taskQueue s) as [|t rest] eqn:Hq; [exists []; by rewrite app_nil_r|].
  destruct post as [message|]; [|exists []; by rewrite app_nil_r].
  eexists [_]. split; [reflexivity|]. constructor; [|done].
  exists t. split; [apply elem_of_cons; by left|done].
Qed.

Lemma iq_processQueue_timers post s : timers (processQueue post s) = timers s.
Proof. unfold processQueue. by repeat case_match. Qed.

Lemma find_elem_of {A} (f : A → bool) (l : list A) x :
  List.find f l = Some x → x ∈ l ∧ f x = true.
Proof.
  intros [Hin Hf]%find_some. split; [by apply list_elem_of_In|done].
Qed.

Lemma iq_step_settlements s e :
  ∃ new, settlements (step s e) = (settlements s ++ new)%list
    ∧ Forall (settles s) new.
Proof.
  destruct e as [|i time h wd ht q o post|p|w r post|w m|w|ok]; cbn [step].
  - exists []. rewrite app_nil_r. unfold initialize. by destruct (isInitialized s).
  - unfold generateImage. case_bool_decide as Hfull.
    + eexists [_]. split; [reflexivity|]. constructor; [by left|done].
    + cbn [settlements with_timers].
      match goal with |- context [processQueue post ?s0] =>
        destruct (iq_processQueue_settlements post s0) as (new & -> & Hnew) end.
      exists new. split; [done|].
      eapply Forall_impl; [done|]. intros e (t & Ht & He).
      cbn in Ht. apply elem_of_app in Ht as [Ht| ->%list_elem_of_singleton].
      * right; left. by exists t.
      * left. by rewrite <- He.
  - unfold timeout. destruct (List.find _ _) as [[p' taskId]|] eqn:Hfind;
      [|exists []; by rewrite app_nil_r].
    case_bool_decide; [|exists []; by rewrite app_nil_r].
    eexists [_]. split; [reflexivity|]. constructor; [|done].
    right; right. apply find_elem_of in Hfind as [Hin Hp].
    apply bool_decide_eq_true in Hp. by exists (p', taskId).
  - unfold handleWorkerMessage.
    destruct (findTaskById _ _) as [t|] eqn:Hfind;
      [|exists []; by rewrite app_nil_r].
    apply find_elem_of in Hfind as [Hin _].
    match goal with |- context [processQueue post ?s0] =>
      destruct (iq_processQueue_settlements post s0) as (new & -> & Hnew) end.
    assert (∀ s0 : State, taskQueue s0 = taskQueue s →
            Forall (λ e, ∃ t, t ∈ taskQueue s0 ∧ promise t = e.1) new →
            Forall (settles s) new) as Hqueue.
    { intros s0 Hs0 H0. eapply Forall_impl; [done|].
      intros e (t' & Ht' & He). right; left. exists t'. by rewrite <- Hs0. }
    repeat case_match; cbn [settlements settle with_restarts with_settlements
        restartWorker];
      (eexists (_ :: new); split; [by rewrite <- app_assoc|];
       constructor; [right; left; by exists t|];
       eapply Hqueue; [|done]; done).
  - unfold handleWorkerError.
    destruct (findTaskById _ _) as [t|] eqn:Hfind;
      [|exists []; by rewrite app_nil_r].
    unfold findTaskById in Hfind. destruct (currentTaskId _); [|done].
    apply find_elem_of in Hfind as [Hin _].
    eexists [_]. split; [reflexivity|]. constructor; [|done].
    right; left. by exists t.
  - exists []. rewrite app_nil_r. unfold handleWorkerExit. by case_bool_decide.
  - exists []. rewrite app_nil_r. unfold terminateDone.
    destruct (restarts s); [done|]. by destruct ok.
Qed.

Lemma iq_step_timers s e :
  Forall (λ t, t ∈ timers s ∨ t.1 = promises s) (timers (step s e)).
Proof.
  assert (Forall (λ t, t ∈ timers s ∨ t.1 = promises s) (timers s)) as Hsame.
  { apply Forall_forall. by left. }
  destruct e as [|i time h wd ht q o post|p|w r post|w m|w|ok]; cbn [step].
  - unfold initialize. by destruct (isInitialized s).
  - unfold generateImage. case_bool_decide as Hfull; [done|].
    cbn [timers with_timers]. rewrite iq_processQueue_timers. cbn.
    apply Forall_app. split; [done|]. constructor; [by right|done].
  - unfold timeout. destruct (List.find _ _) as [[p' taskId]|]; [|done].
    assert (Forall (λ t, t ∈ timers s ∨ t.1 = promises s)
              (filter (λ t, t.1 ≠ p) (timers s))) as Hfilter.
    { eapply sublist_Forall_inv; [apply sublist_filter|done]. }
    by case_bool_decide.
  - unfold handleWorkerMessage. destruct (findTaskById _ _); [|done].
    rewrite iq_processQueue_timers. by repeat case_match.
  - unfold handleWorkerError. by destruct (findTaskById _ _).
  - unfold handleWorkerExit. by case_bool_decide.
  - unfold terminateDone. destruct (restarts s); [done|]. by destruct ok.
Qed.

Lemma settlementsOf_app p l1 l2 :
  settlementsOf p (l1 ++ l2) = (settlementsOf p l1 ++ settlementsOf p l2)%list.
Proof. unfold settlementsOf. by rewrite filter_app, fmap_app. Qed.

Lemma settlementsOf_others p l :
  Forall (λ e, e.1 ≠ p) l → settlementsOf p l = [].
Proof.
  intros Hall. unfold settlementsOf.
  induction Hall as [|e l He _ IH]; [done|].
  rewrite filter_cons_False by done. apply IH.
Qed.

(** A lost promise stays lost, whatever happens next. *)
Lemma iq_step_lost p s e : lost p s → lost p (step s e).
Proof.
  intros (Hp & Hqueue & Htimers & Hnone).
  destruct (iq_step_settlements s e) as (new & Hnew & Hwho).
  pose proof (iq_step_timers s e) as Ht.
  split; [|split; [|split]].
  - destruct (iq_step_queue s e) as [[_ ?]|(_ & _ & _ & ? & _)]; lia.
  - destruct (iq_step_queue s e) as [[Hsub _]|(t & Hsub & Hfresh & _)].
    + by eapply sublist_Forall_inv.
    + eapply sublist_Forall_inv; [done|]. apply Forall_app. split; [done|].
      constructor; [lia|done].
  - eapply Forall_impl; [done|]. intros t [Hin|Hfresh]; [|lia].
    rewrite Forall_forall in Htimers. by apply Htimers.
  - rewrite Hnew, settlementsOf_app, Hnone. apply settlementsOf_others.
    eapply Forall_impl; [done|].
    intros e' [Hfresh|[(t & Hin & <-)|(t & Hin & <-)]].
    + lia.
    + rewrite Forall_forall in Hqueue. by apply Hqueue.
    + rewrite Forall_forall in Htimers. by apply Htimers.
Qed.

Lemma iq_run_lost p trace : ∀ s, lost p s → lost p (run s trace).
Proof.
  induction trace as [|e trace IH]; intros s Hs; [done|].
  cbn [run foldl]. apply IH. by apply iq_step_lost.
Qed.

End ImageQueueFacts.

(** C1 (the code departs from the claim).  A task that is handed to a
    worker before its timeout has no terminal outcome: [processQueue]
    takes it off [taskQueue], so neither [handleWorkerMessage], which
    looks the task up in [taskQueue], nor the timer finds it.  After the
    worker has answered and the timer has fired the promise is not
    settled, the worker is still marked busy, and nothing that happens
    later settles the promise. *)
Theorem dispatched_task_is_never_settled (more : list ImageQueue.Event) :
  let s := ImageQueue.run ImageQueue.initial dispatchedThenAnswered in
  ImageQueue.promises s = 1%nat
  ∧ ImageQueue.taskQueue s = []
  ∧ ImageQueue.timers s = []
  ∧ ImageQueue.settlements s = []
  ∧ ImageQueue.busy <$> ImageQueue.heap s !! 0%nat = Some true
  ∧ settlementsOf 0 (ImageQueue.settlements (ImageQueue.run s more)) = [].
Proof.
  cbv zeta. do 5 (split; [by vm_compute|]).
  apply iq_run_lost. repeat split.
  - vm_compute. lia.
  - replace (ImageQueue.taskQueue _) with (@nil ImageQueue.ImageGenerationTask)
      by by vm_compute.
    constructor.
  - replace (ImageQueue.timers _) with (@nil (nat * string)) by by vm_compute.
    constructor.
Qed.



(** ** Rendering one task *)
Section RenderFacts.
Import Pool.

Lemma isValidJPEG_signature b : isValidJPEG b = true ↔ take 3 b = jpegSignature.
Proof.
  unfold isValidJPEG, subarray, jpegSignature.
  destruct b as [|x [|y [|z l]]]; cbn; try (split; [discriminate|done]);
    try (split; [by rewrite ?andb_false_r|done]).
  rewrite !andb_true_iff. split.
  - intros [[->%Byte.byte_dec_bl ->%Byte.byte_dec_bl] ->%Byte.byte_dec_bl]. done.
  - intros [= -> -> ->]. done.
Qed.




End RenderFacts.

(** ** The pool *)
Section PoolFacts.
Import Pool.

Lemma pool_processQueue_frame s :
  processingQueue (processQueue s) = processingQueue s
  ∧ promises (processQueue s) = promises s
  ∧ settlements (processQueue s) = settlements s
  ∧ browserPool (processQueue s) = browserPool s
  ∧ availableBrowsers (processQueue s) = availableBrowsers s.
Proof. unfold processQueue. by repeat case_match. Qed.

Lemma pool_destroyBrowser_frame browserId s :
  processingQueue (destroyBrowser browserId s) = processingQueue s
  ∧ promises (destroyBrowser browserId s) = promises s
  ∧ settlements (destroyBrowser browserId s) = settlements s
  ∧ browserPool (destroyBrowser browserId s) = browserPool s
  ∧ availableBrowsers (destroyBrowser browserId s) = availableBrowsers s.
Proof. unfold destroyBrowser. by case_match. Qed.

Lemma pool_finish_frame t result s :
  processingQueue (finish t result s) = processingQueue s
  ∧ promises (finish t result s) = promises s
  ∧ browserPool (finish t result s) = browserPool s
  ∧ availableBrowsers (finish t result s) = availableBrowsers s.
Proof. unfold finish. by destruct result. Qed.

Lemma pool_finish_settlements t result s :
  settlements (finish t result s)
  = (settlements s ++
     [(promise t, match result with
                  | Returned buffer => Fulfilled buffer
                  | Thrown e => Rejected e
                  end)])%list.
Proof. unfold finish. by destruct result. Qed.

Lemma pool_exitTask_frame r closed result s :
  processingQueue (exitTask r closed result s) = processingQueue s
  ∧ promises (exitTask r closed result s) = promises s
  ∧ availableBrowsers (exitTask r closed result s) = availableBrowsers s.
Proof.
  unfold exitTask.
  destruct (pool_finish_frame (task r) result (leaveTask r closed s))
    as (-> & -> & _ & ->).
  unfold leaveTask. cbn. by repeat case_match.
Qed.

Lemma pool_exitTask_settlements r closed result s :
  settlements (exitTask r closed result s)
  = (settlements s ++
     [(promise (task r), match result with
                         | Returned buffer => Fulfilled buffer
                         | Thrown e => Rejected e
                         end)])%list.
Proof.
  unfold exitTask. rewrite pool_finish_settlements. f_equal.
  unfold leaveTask. cbn. by repeat case_match.
Qed.

(** A step leaves the queue as it is, removes tasks from it, or is a
    submission that appends one task. *)
Lemma pool_step_queue s e :
  (processingQueue (step s e) `sublist_of` processingQueue s
   ∧ (promises s ≤ promises (step s e))%nat)
  ∨ (∃ t, processingQueue (step s e) = (processingQueue s ++ [t])%list
       ∧ promise t = promises s
       ∧ promises (step s e) = S (promises s)).
Proof.
  destruct e; cbn [step].
  - left. unfold initialize. by case_match.
  - unfold generateImage. cbn [shutdownInProgress with_promises].
    destruct (shutdownInProgress s).
    + left. cbn. split; [done|lia].
    + right. eexists.
      match goal with |- context [processQueue ?s0] =>
        destruct (pool_processQueue_frame s0) as (-> & -> & _) end.
      by cbn.
  - left. by destruct (pool_processQueue_frame s) as (-> & -> & _).
  - left. unfold runImmediate. destruct (immediates s) as [|[|b] rest]; [done|..].
    + match goal with |- context [processQueue ?s0] =>
        destruct (pool_processQueue_frame s0) as (-> & -> & _) end. done.
    + match goal with |- context [destroyBrowser b ?s0] =>
        destruct (pool_destroyBrowser_frame b s0) as (-> & -> & _) end. done.
  - left. unfold resume. destruct (awaiting s) as [|b rest]; [done|].
    cbn [processingQueue with_awaiting].
    destruct (processingQueue s) as [|t queue] eqn:Hq;
      [cbn; by rewrite Hq|].
    cbn [browserPool with_processingQueue updateMetrics with_metrics
         with_awaiting].
    destruct (browserPool s !! b).
    + cbn. split; [by apply sublist_cons|done].
    + match goal with |- context [finish t ?res ?s0] =>
        destruct (pool_finish_frame t res s0) as (-> & -> & _) end.
      cbn. split; [by apply sublist_cons|done].
  - left. unfold launched. destruct (launching s !! k) as [o|]; [|done].
    unfold afterLaunch. by repeat case_match.
  - left. unfold launchFailed. destruct (launching s !! k) as [o|]; [|done].
    unfold afterLaunch. by repeat case_match.
  - left. unfold pageOpened. by repeat case_match.
  - left. unfold pageFailed. destruct (findRunning p s) as [r|]; [|done].
    destruct (page r); [done|].
    by destruct (pool_exitTask_frame r false (Thrown e) s) as (-> & -> & _).
  - left. unfold taskSettled. destruct (findRunning p s) as [r|]; [|done].
    destruct (page r); [|done].
    match goal with |- context [exitTask r ?c ?res s] =>
      destruct (pool_exitTask_frame r c res s) as (-> & -> & _) end. done.
  - left. by destruct (pool_destroyBrowser_frame browserId0 s) as (-> & -> & _).
  - left. unfold destroyDone. by repeat case_match.
  - left. unfold cleanup. cbn. split; [apply sublist_filter|done].
  - left. unfold timeout. destruct (List.find _ _) as [[? taskId]|]; [|done].
    case_bool_decide; [|done]. cbn. split; [apply splice1_sublist|done].
  - left. unfold shutdown. cbn. split; [apply sublist_nil_l|done].
Qed.

Lemma pool_step_inOrder s e :
  inOrder promise (promises s) (processingQueue s) →
  inOrder promise (promises (step s e)) (processingQueue (step s e)).
Proof.
  intros Horder.
  destruct (pool_step_queue s e) as [[Hsub Hp]|(t & -> & Ht & ->)].
  - eapply inOrder_sublist; [done|]. by eapply inOrder_mono.
  - by apply inOrder_push.
Qed.

Lemma pool_run_inOrder trace : ∀ s,
  inOrder promise (promises s) (processingQueue s) →
  inOrder promise (promises (run s trace)) (processingQueue (run s trace)).
Proof.
  induction trace as [|e trace IH]; intros s Hs; [done|].
  cbn [run foldl]. apply IH. by apply pool_step_inOrder.
Qed.

(** The continuation of [processQueue] takes nothing or the head. *)
Lemma resume_takes_head time pageId s :
  processingQueue (resume time pageId s) = processingQueue s
  ∨ ∃ t, processingQueue s = t :: processingQueue (resume time pageId s).
Proof.
  unfold resume. destruct (awaiting s) as [|b rest]; [by left|].
  destruct (processingQueue s) as [|t queue] eqn:Hq;
    cbn [processingQueue with_awaiting]; rewrite Hq; [by left|].
  right. exists t.
  cbn [browserPool with_processingQueue updateMetrics with_metrics with_awaiting].
  destruct (browserPool s !! b); [done|].
  match goal with |- context [finish t ?res ?s0] =>
    destruct (pool_finish_frame t res s0) as (-> & _) end.
  done.
Qed.



(** [indexOf] and [splice] remove the id from a list that holds it
    once. *)
Lemma splice_indexOf (x : string) (l : list string) :
  NoDup l →
  (indexOf x l = (-1)%Z ∧ x ∉ l)
  ∨ (indexOf x l ≠ (-1)%Z ∧ NoDup (splice1 (indexOf x l) l)
     ∧ ∀ y, y ∈ splice1 (indexOf x l) l ↔ y ≠ x ∧ y ∈ l).
Proof.
  intros Hnd. unfold indexOf.
  destruct (findIndex_range (λ y, bool_decide (y = x)) l) as [Hi|Hi].
  - left. split; [done|]. apply findIndex_absent in Hi.
    rewrite Forall_forall in Hi. intros Hin. specialize (Hi _ Hin).
    by rewrite bool_decide_eq_true_2 in Hi.
  - right. split; [lia|].
    destruct (Z_of_nat_complete (findIndex (λ y, bool_decide (y = x)) l))
      as [n Hn]; [lia|].
    rewrite Hn. apply findIndex_found in Hn as (x' & Hx' & ->%bool_decide_eq_true & _).
    rewrite splice1_at, delete_take_drop.
    rewrite <- (take_drop_middle l n x Hx') in Hnd.
    apply NoDup_app in Hnd as (Hnd1 & Hdisj & [Hx Hnd2]%NoDup_cons).
    split.
    + apply NoDup_app. split; [done|]. split; [|done].
      intros y Hy Hy2. apply (Hdisj y Hy). by right.
    + intros y. rewrite <- (take_drop_middle l n x Hx') at 3.
      rewrite !elem_of_app, elem_of_cons. split.
      * intros [Hy|Hy]; (split; [|tauto]); intros ->.
        -- apply (Hdisj x Hy). by left.
        -- done.
      * intros [Hne [Hy|[Hy|Hy]]]; tauto.
Qed.

Lemma pool_exitTask_ids r closed result s :
  availableBrowsers (exitTask r closed result s) = availableBrowsers s
  ∧ ∀ i, is_Some (browserPool (exitTask r closed result s) !! i)
         ↔ is_Some (browserPool s !! i).
Proof.
  unfold exitTask.
  destruct (pool_finish_frame (task r) result (leaveTask r closed s))
    as (_ & _ & -> & ->).
  unfold leaveTask. cbn.
  destruct (browserPool s !! browserId r) as [b|] eqn:Hb; [|done].
  assert (∀ b' i, is_Some (<[browserId r := b']> (browserPool s) !! i)
                  ↔ is_Some (browserPool s !! i)) as Hkeys.
  { intros b' i. rewrite lookup_insert_is_Some'. split; [|tauto].
    intros [<-|?]; [|done]. by rewrite Hb. }
  destruct (restartDue _); cbn; (split; [done|apply Hkeys]).
Qed.

(** What a step does to the ids of the pool: nothing, the insertion of
    the id of a launched browser, or the removal of an id. *)
Lemma pool_step_ids s e :
  (availableBrowsers (step s e) = availableBrowsers s
   ∧ ∀ i, is_Some (browserPool (step s e) !! i) ↔ is_Some (browserPool s !! i))
  ∨ (∃ k b time, e = Launched k b time
       ∧ availableBrowsers (step s e) = (availableBrowsers s ++ [b])%list
       ∧ ∀ i, is_Some (browserPool (step s e) !! i)
              ↔ b = i ∨ is_Some (browserPool s !! i))
  ∨ (∃ b, availableBrowsers (step s e)
          = (if bool_decide (indexOf b (availableBrowsers s) ≠ -1)%Z
             then splice1 (indexOf b (availableBrowsers s)) (availableBrowsers s)
             else availableBrowsers s)
       ∧ ∀ i, is_Some (browserPool (step s e) !! i)
              ↔ b ≠ i ∧ is_Some (browserPool s !! i)).
Proof.
  destruct e as [|i o time| | |time pg|k b time|k|p|p err|p resp|b|k ok|time|p|];
    cbn [step].
  - left. unfold initialize. by case_match.
  - left. unfold generateImage. destruct (shutdownInProgress _) eqn:Hs; [done|].
    match goal with |- context [processQueue ?s0] =>
      destruct (pool_processQueue_frame s0) as (_ & _ & _ & -> & ->) end.
    done.
  - left. by destruct (pool_processQueue_frame s) as (_ & _ & _ & -> & ->).
  - left. unfold runImmediate. destruct (immediates s) as [|[|b] rest]; [done|..].
    + match goal with |- context [processQueue ?s0] =>
        destruct (pool_processQueue_frame s0) as (_ & _ & _ & -> & ->) end. done.
    + match goal with |- context [destroyBrowser b ?s0] =>
        destruct (pool_destroyBrowser_frame b s0) as (_ & _ & _ & -> & ->) end.
      done.
  - left. unfold resume. destruct (awaiting s) as [|b rest]; [done|].
    cbn [processingQueue with_awaiting].
    destruct (processingQueue s) as [|t queue]; [done|].
    cbn [browserPool with_processingQueue updateMetrics with_metrics
         with_awaiting].
    destruct (browserPool s !! b) as [inst|] eqn:Hb.
    + cbn. split; [done|]. intros i. rewrite lookup_insert_is_Some'.
      split; [|tauto]. intros [<-|?]; [|done]. by rewrite Hb.
    + match goal with |- context [finish t ?res ?s0] =>
        destruct (pool_finish_frame t res s0) as (_ & _ & -> & ->) end.
      done.
  - unfold launched. destruct (launching s !! k) as [o|]; [|by left].
    right; left. exists k, b, time. split; [done|].
    unfold afterLaunch. repeat case_match; cbn;
      (split; [done|]); intros i'; by rewrite lookup_insert_is_Some'.
  - left. unfold launchFailed. destruct (launching s !! k) as [o|]; [|done].
    unfold afterLaunch. by repeat case_match.
  - left. unfold pageOpened. repeat case_match; try done.
    cbn. split; [done|]. intros i. by rewrite lookup_alter_is_Some.
  - left. unfold pageFailed. repeat case_match; try done.
    apply pool_exitTask_ids.
  - left. unfold taskSettled. repeat case_match; try done.
    apply pool_exitTask_ids.
  - left. by destruct (pool_destroyBrowser_frame b s) as (_ & _ & _ & -> & ->).
  - unfold destroyDone. destruct (destroying s !! k) as [b|]; [|by left].
    destruct ok; [|by left]. right; right. exists b. cbn. split.
    + by repeat case_bool_decide.
    + intros i. case_bool_decide; cbn; by rewrite lookup_delete_is_Some.
  - left. unfold cleanup. cbn. split; [done|]. intros i.
    by rewrite lookup_fmap, fmap_is_Some.
  - left. unfold timeout. by repeat case_match.
  - left. by unfold shutdown.
Qed.

Lemma pool_step_inSync s e :
  inSync s →
  (∀ k b time, e = Launched k b time → b ∉ availableBrowsers s) →
  inSync (step s e)
  ∧ ∀ i, i ∈ availableBrowsers (step s e) →
         i ∈ availableBrowsers s ∨ i ∈ launchedIds [e].
Proof.
  intros [Hnd Hsame] Hfresh. unfold inSync.
  destruct (pool_step_ids s e)
    as [[Hl Hm]|[(k & b & time & -> & Hl & Hm)|(b & Hl & Hm)]].
  - rewrite Hl. split; [split; [done|]|by left].
    intros i. by rewrite Hm.
  - rewrite Hl. split; [split|].
    + apply NoDup_app. split; [done|]. split; [|apply NoDup_singleton].
      intros i Hi ->%list_elem_of_singleton. by eapply Hfresh.
    + intros i. rewrite Hm, elem_of_app, list_elem_of_singleton, Hsame.
      intuition congruence.
    + intros i [?| ->%list_elem_of_singleton]%elem_of_app; [by left|].
      right. cbn. apply list_elem_of_singleton. done.
  - rewrite Hl.
    destruct (splice_indexOf b (availableBrowsers s) Hnd)
      as [[Hi Hnot]|(Hi & Hnd' & Hin)].
    + rewrite bool_decide_eq_false_2 by (intros H; by apply H).
      split; [split; [done|]|by left].
      intros i. rewrite Hm, <- Hsame. split; [|tauto].
      intros Hini. split; [|done]. by intros ->.
    + rewrite bool_decide_eq_true_2 by done.
      split; [split; [done|]|].
      * intros i. rewrite Hm, Hin, Hsame. intuition congruence.
      * intros i [_ ?]%Hin. by left.
Qed.

Lemma launchedIds_app trace1 trace2 :
  launchedIds (trace1 ++ trace2) = (launchedIds trace1 ++ launchedIds trace2)%list.
Proof. unfold launchedIds. by rewrite omap_app. Qed.

Lemma pool_run_inSync trace :
  NoDup (launchedIds trace) →
  inSync (run initial trace)
  ∧ ∀ i, i ∈ availableBrowsers (run initial trace) → i ∈ launchedIds trace.
Proof.
  induction trace as [|e trace IH] using rev_ind; intros Hnd.
  - change (run initial []) with initial.
    unfold inSync. cbn [availableBrowsers browserPool initial].
    split; [split; [constructor|]|by intros i ?%not_elem_of_nil].
    intros i. rewrite lookup_empty. split; [by intros ?%not_elem_of_nil|].
    by intros [? ?].
  - rewrite launchedIds_app in Hnd.
    apply NoDup_app in Hnd as (Hnd1 & Hdisj & _).
    destruct (IH Hnd1) as [Hsync Hseen].
    unfold run. rewrite foldl_snoc. fold (run initial trace).
    destruct (pool_step_inSync (run initial trace) e Hsync) as [Hsync' Hnew].
    { intros k b time -> Hin. apply (Hdisj b); [by apply Hseen|].
      cbn. by apply list_elem_of_singleton. }
    split; [done|]. intros i Hi. rewrite launchedIds_app, elem_of_app.
    destruct (Hnew i Hi) as [?|?]; [left; by apply Hseen|by right].
Qed.

(** In a pool that is in sync the list is as long as the map is large. *)
Lemma inSync_length s :
  inSync s → length (availableBrowsers s) = size (browserPool s).
Proof.
  intros [Hnd Hsame].
  rewrite <- length_map_to_list, <- (length_fmap fst).
  apply Permutation_length, NoDup_Permutation;
    [done|apply NoDup_fst_map_to_list|].
  intros i. rewrite Hsame, list_elem_of_fmap. split.
  - intros [b Hb]. exists (i, b). split; [done|]. by apply elem_of_map_to_list.
  - intros ([i' b] & -> & Hin%elem_of_map_to_list). by exists b.
Qed.

End PoolFacts.


(** C4.  Both queues are served first in, first out.  In every state
    the service can reach, the step that takes a task for assignment
    (the continuation of the pool's [processQueue], and [processQueue] of
    the image queue service) takes nothing or takes the head of the queue,
    and the head was submitted before every task that stays queued: a
    task is never taken while an older one is waiting. *)
Theorem dispatch_is_fifo :
  (∀ (trace : list Pool.Event) time pageId,
     let s := Pool.run Pool.initial trace in
     let s' := Pool.resume time pageId s in
     Pool.processingQueue s' = Pool.processingQueue s
     ∨ ∃ t, Pool.processingQueue s = t :: Pool.processingQueue s'
            ∧ Forall (λ t', (Pool.promise t < Pool.promise t')%nat)
                     (Pool.processingQueue s'))
  ∧ (∀ (trace : list ImageQueue.Event) post,
       let s := ImageQueue.run ImageQueue.initial trace in
       let s' := ImageQueue.processQueue post s in
       ImageQueue.taskQueue s' = ImageQueue.taskQueue s
       ∨ ∃ t, ImageQueue.taskQueue s = t :: ImageQueue.taskQueue s'
              ∧ Forall (λ t', (ImageQueue.promise t < ImageQueue.promise t')%nat)
                       (ImageQueue.taskQueue s')).
Proof.
  split.
  - intros trace time pageId s s'.
    destruct (resume_takes_head time pageId s) as [?|[t Ht]]; [by left|].
    right. exists t. split; [done|].
    pose proof (pool_run_inOrder trace Pool.initial (inOrder_nil _ _)) as [Hs _].
    fold s in Hs. rewrite Ht in Hs. by apply StronglySorted_cons in Hs as [? _].
  - intros trace post s s'.
    destruct (iq_processQueue_taskQueue post s) as [?|[t Ht]]; [by left|].
    right. exists t. split; [done|].
    pose proof (iq_run_wellFormed trace ImageQueue.initial iq_initial_wellFormed)
      as [[Hs _] _].
    fold s in Hs. rewrite Ht in Hs. by apply StronglySorted_cons in Hs as [? _].
Qed.

(** C10.  The list [availableBrowsers] and the map [browserPool] hold
    the same ids, the list each of them once, after every step of the
    pool, provided [createBrowser] never draws the same id twice.  A
    browser stays in the list when all its pages are taken, and the
    [availableBrowsers] figure of [getMetrics] is [totalBrowsers]. *)
Theorem pool_bookkeeping_in_sync (trace : list Pool.Event) :
  NoDup (Pool.launchedIds trace) →
  let s := Pool.run Pool.initial trace in
  NoDup (Pool.availableBrowsers s)
  ∧ (∀ i, i ∈ Pool.availableBrowsers s ↔ is_Some (Pool.browserPool s !! i))
  ∧ (∀ i b, Pool.browserPool s !! i = Some b →
            (Pool.MAX_PAGES_PER_BROWSER ≤ Pool.activePages b)%Z →
            i ∈ Pool.availableBrowsers s)
  ∧ Pool.m_availableBrowsers (Pool.getMetrics s)
    = Pool.totalBrowsers (Pool.getMetrics s).
Proof.
  intros Hnd s. destruct (pool_run_inSync trace Hnd) as [Hsync _].
  fold s in Hsync. pose proof Hsync as [Hlist Hsame].
  split; [done|]. split; [done|]. split.
  - intros i b Hb _. apply Hsame. by exists b.
  - by apply inSync_length.
Qed.

(** A pool whose first browser has all ten pages taken and whose third
    browser was destroyed. *)
Lemma pool_bookkeeping_in_sync_witness :
  let s := Pool.run Pool.initial busyPool in
  NoDup (Pool.launchedIds busyPool)
  ∧ Pool.activePages <$> Pool.browserPool s !! "browser_1" = Some 10%Z
  ∧ Pool.availableBrowsers s = ["browser_1"; "browser_2"]
  ∧ NoDup (Pool.availableBrowsers s)
  ∧ (∀ i, i ∈ Pool.availableBrowsers s ↔ is_Some (Pool.browserPool s !! i))
  ∧ (∀ i b, Pool.browserPool s !! i = Some b →
            (Pool.MAX_PAGES_PER_BROWSER ≤ Pool.activePages b)%Z →
            i ∈ Pool.availableBrowsers s)
  ∧ Pool.m_availableBrowsers (Pool.getMetrics s)
    = Pool.totalBrowsers (Pool.getMetrics s).
Proof.
  cbv zeta.
  assert (NoDup (Pool.launchedIds busyPool)) as Hnd.
  { apply (bool_decide_unpack _). vm_compute. exact I. }
  split; [exact Hnd|].
  split; [vm_compute; reflexivity|].
  split; [vm_compute; reflexivity|].
  exact (pool_bookkeeping_in_sync busyPool Hnd).
Defined.

(** C3 (the code departs from the claim).  [getAvailableBrowser] tests
    [activePages < MAX_PAGES_PER_BROWSER], but [processQueue] only counts
    the page after [await this.getAvailableBrowser()], in [executeTask].
    Eleven calls of [generateImage] made in one go all pass the test on
    the first browser before any of them is counted, and all eleven tasks
    are then started on it: its [activePages] is 11 while the other two
    browsers are idle. *)
Theorem burst_exceeds_page_cap :
  let s := Pool.run Pool.initial (poolOfThree ++ burst 11) in
  Pool.availableBrowsers s = ["browser_1"; "browser_2"; "browser_3"]
  ∧ Pool.activePages <$> Pool.browserPool s !! "browser_1" = Some 11%Z
  ∧ Pool.activePages <$> Pool.browserPool s !! "browser_2" = Some 0%Z
  ∧ Pool.activePages <$> Pool.browserPool s !! "browser_3" = Some 0%Z
  ∧ Pool.browserId <$> Pool.running s = replicate 11 "browser_1"
  ∧ Pool.processingQueue s = []
  ∧ Pool.MAX_PAGES_PER_BROWSER = 10%Z.
Proof. vm_compute. repeat split. Qed.

(** What does hold: the test that ends the [finally] block of
    [executeTask] looks at the number of tasks that are still under way
    on the browser, so it succeeds only when at least 101 tasks were
    under way when this one ended. *)
Lemma restartDue_in_flight pageId page closed b :
  Pool.restartDue (Pool.leave pageId page closed b)
  = bool_decide (Pool.BROWSER_RESTART_THRESHOLD + 1 ≤ Pool.processingTasks b)%Z.
Proof.
  unfold Pool.restartDue, Pool.leave, Pool.BROWSER_RESTART_THRESHOLD.
  cbn [Pool.processingTasks]. apply bool_decide_ext. lia.
Qed.

(** A hundred tasks run one after another on the first browser: its
    [processingTasks] is 0 afterwards, no [destroyBrowser] was scheduled
    or started, and the browser is still in the pool; the same holds
    after a thousand tasks. *)
Lemma hundred_tasks_evaluated :
  let s := Pool.run Pool.initial (poolOfThree ++ oneAfterAnother 100) in
  let s' := Pool.run Pool.initial (poolOfThree ++ oneAfterAnother 1000) in
  Pool.totalTasksProcessed (Pool.metrics s) = 100%nat
  ∧ Pool.processingTasks <$> Pool.browserPool s !! "browser_1" = Some 0%Z
  ∧ Pool.lastUsed <$> Pool.browserPool s !! "browser_1" = Some 1099%Z
  ∧ Pool.immediates s = []
  ∧ Pool.destroying s = []
  ∧ Pool.browsersDestroyed (Pool.metrics s) = 0%nat
  ∧ Pool.totalTasksProcessed (Pool.metrics s') = 1000%nat
  ∧ Pool.processingTasks <$> Pool.browserPool s' !! "browser_1" = Some 0%Z
  ∧ Pool.destroying s' = []
  ∧ Pool.BROWSER_RESTART_THRESHOLD = 100%Z.
Proof. vm_compute. repeat split. Qed.

(** C7, corrected.  A render task run on its browser instance leaves
    [activePages], [processingTasks] and [createdAt] as they were and sets
    [lastUsed], whether it returns a screenshot or throws at any stage.
    When no page was opened, or [page.close()] resolves, the page map is
    as before the task, so a failed task changes [lastUsed] only.  When
    [page.close()] throws, the error is logged and the id of the page
    stays in the page map. *)
Theorem executeTask_restores time pageId o newPage r b :
  pageId ∉ Pool.pages b →
  let b' := (Pool.executeTask time pageId o newPage r b).1.1 in
  Pool.activePages b' = Pool.activePages b
  ∧ Pool.processingTasks b' = Pool.processingTasks b
  ∧ Pool.createdAt b' = Pool.createdAt b
  ∧ Pool.lastUsed b' = time
  ∧ Pool.pages b'
    = if bool_decide (newPage = None) && negb (Pool.closeOk r)
      then {[pageId]} ∪ Pool.pages b
      else Pool.pages b.
Proof.
  intros Hfresh. unfold Pool.executeTask.
  destruct newPage as [e|]; cbn.
  - repeat split; lia.
  - repeat split; [lia..|]. destruct (Pool.closeOk r); cbn; [|done].
    apply set_eq. intros x.
    rewrite elem_of_difference, elem_of_union, elem_of_singleton.
    split; [tauto|]. intros Hx. split; [tauto|]. by intros ->.
Qed.

(** A task that succeeds on a fresh browser instance. *)
Lemma executeTask_restores_witness :
  let b := Pool.freshInstance 0 in
  let b' := (Pool.executeTask 5 "page_1" tierList None goodPage b).1.1 in
  ("page_1" ∉ Pool.pages b)
  ∧ Pool.activePages b' = Pool.activePages b
  ∧ Pool.processingTasks b' = Pool.processingTasks b
  ∧ Pool.createdAt b' = Pool.createdAt b
  ∧ Pool.lastUsed b' = 5%Z
  ∧ Pool.pages b' = Pool.pages b.
Proof.
  cbv zeta.
  assert ("page_1" ∉ Pool.pages (Pool.freshInstance 0)) as Hfresh
    by apply not_elem_of_empty.
  split; [exact Hfresh|].
  exact (executeTask_restores 5 "page_1" tierList None goodPage
           (Pool.freshInstance 0) Hfresh).
Defined.

(** C7 as stated fails: when [page.close()] throws, the page that was
    opened for the task is still in the page map after the task. *)
Lemma close_failure_keeps_page :
  let b := Pool.freshInstance 0 in
  let outcome := Pool.executeTask 5 "page_1" tierList None stuckPage b in
  ("page_1" ∉ Pool.pages b)
  ∧ outcome.1.2 = Pool.Returned jpeg1k
  ∧ ("page_1" ∈ Pool.pages outcome.1.1).
Proof.
  cbv zeta. split; [apply not_elem_of_empty|]. split; [by vm_compute|].
  cbn. apply elem_of_union_l, elem_of_singleton. done.
Qed.

(** ** The page cap under one dispatch at a time *)
Section PoolCapFacts.
Import Pool.

Lemma occurrences_nil b : occurrences b [] = 0%Z.
Proof. done. Qed.

Lemma occurrences_cons b x l :
  occurrences b (x :: l) = ((if decide (x = b) then 1 else 0) + occurrences b l)%Z.
Proof.
  unfold occurrences. rewrite filter_cons.
  destruct (decide (x = b)); cbn [length]; lia.
Qed.

Lemma occurrences_app b l k :
  occurrences b (l ++ k) = (occurrences b l + occurrences b k)%Z.
Proof. unfold occurrences. rewrite filter_app, length_app. lia. Qed.

Lemma occurrences_nonneg b l : (0 ≤ occurrences b l)%Z.
Proof. unfold occurrences. lia. Qed.

Lemma occurrences_absent b l : b ∉ l → occurrences b l = 0%Z.
Proof.
  induction l as [|x l IH]; [done|].
  intros [Hx Hl]%not_elem_of_cons. rewrite occurrences_cons, IH by done.
  by rewrite decide_False.
Qed.

Lemma withinCap_frame s s' :
  browserPool s' = browserPool s → awaiting s' = awaiting s →
  withinCap s → withinCap s'.
Proof. unfold withinCap, holders. by intros -> ->. Qed.

Lemma processQueue_withinCap s :
  awaiting s = [] → withinCap s →
  withinCap (processQueue s)
  ∧ ∀ i, i ∈ awaiting (processQueue s) → i ∈ availableBrowsers s.
Proof.
  intros Hnone Hcap. unfold processQueue.
  case_bool_decide; [by rewrite Hnone; split; [|intros i ?%not_elem_of_nil]|].
  destruct (List.find _ _) as [b|] eqn:Hfind.
  - apply find_elem_of in Hfind as [Hin Hroom]. unfold hasCapacity in Hroom.
    destruct (browserPool s !! b) as [inst|] eqn:Hb; [|done].
    apply bool_decide_eq_true in Hroom.
    split.
    + intros b' inst' Hb'. unfold holders.
      cbn [browserPool awaiting with_awaiting] in *. rewrite Hnone.
      rewrite app_nil_l, occurrences_cons, occurrences_nil.
      specialize (Hcap b' inst' Hb'). unfold holders in Hcap.
      rewrite Hnone, occurrences_nil in Hcap.
      destruct (decide (b = b')) as [<-|Hne]; [|lia].
      rewrite Hb in Hb'. injection Hb' as <-. lia.
    + cbn. rewrite Hnone. by intros i ->%list_elem_of_singleton.
  - case_bool_decide; (split; [by eapply withinCap_frame|]);
      cbn; rewrite Hnone; by intros i ?%not_elem_of_nil.
Qed.

Lemma pool_finish_awaiting t result s : awaiting (finish t result s) = awaiting s.
Proof. unfold finish. by destruct result. Qed.

Lemma pool_destroyBrowser_awaiting b s : awaiting (destroyBrowser b s) = awaiting s.
Proof. unfold destroyBrowser. by case_match. Qed.

Lemma leaveTask_awaiting r closed s : awaiting (leaveTask r closed s) = awaiting s.
Proof. unfold leaveTask. cbn. by repeat case_match. Qed.

Lemma leaveTask_browserPool r closed s :
  browserPool (leaveTask r closed s)
  = match browserPool s !! browserId r with
    | Some b => <[browserId r := leave (pageId r) (page r) closed b]> (browserPool s)
    | None => browserPool s
    end.
Proof. unfold leaveTask. cbn. by repeat case_match. Qed.

Lemma exitTask_withinCap r closed result s :
  withinCap s →
  withinCap (exitTask r closed result s)
  ∧ awaiting (exitTask r closed result s) = awaiting s.
Proof.
  intros Hcap. unfold exitTask.
  rewrite pool_finish_awaiting, leaveTask_awaiting. split; [|done].
  intros b inst.
  destruct (pool_finish_frame (task r) result (leaveTask r closed s))
    as (_ & _ & -> & _).
  unfold holders. rewrite pool_finish_awaiting, leaveTask_awaiting.
  fold (holders b s). rewrite leaveTask_browserPool.
  destruct (browserPool s !! browserId r) as [inst0|] eqn:Hb; [|apply Hcap].
  destruct (decide (browserId r = b)) as [<-|Hne].
  - rewrite lookup_insert_eq. intros [= <-].
    specialize (Hcap _ _ Hb). cbn. lia.
  - rewrite lookup_insert_ne by done. apply Hcap.
Qed.

(** A step keeps every browser within its cap when it does not call
    [processQueue] while a continuation is pending, and the id of a new
    browser is new. *)
Lemma pool_step_withinCap s e :
  withinCap s →
  (callsProcessQueue s e = true → awaiting s = []) →
  (∀ k b time, e = Launched k b time →
     browserPool s !! b = None ∧ b ∉ awaiting s) →
  withinCap (step s e)
  ∧ ∀ i, i ∈ awaiting (step s e) →
         i ∈ awaiting s ∨ i ∈ availableBrowsers s ∨ i ∈ launchedIds [e].
Proof.
  intros Hcap Hserial Hfresh.
  assert (∀ s', browserPool s' = browserPool s → awaiting s' = awaiting s →
    withinCap s' ∧ ∀ i, i ∈ awaiting s' →
      i ∈ awaiting s ∨ i ∈ availableBrowsers s ∨ i ∈ launchedIds [e]) as Hframe.
  { intros s' Hp Ha. split; [by eapply withinCap_frame|]. rewrite Ha. by left. }
  destruct e as [|i o time| | |time pg|k b time|k|p|p err|p resp|b|k ok|time|p|];
    cbn [step].
  - apply Hframe; unfold initialize; by case_match.
  - unfold generateImage. cbn [shutdownInProgress with_promises].
    destruct (shutdownInProgress s) eqn:Hshut; [by apply Hframe|].
    cbn in Hserial. rewrite Hshut in Hserial. specialize (Hserial eq_refl).
    match goal with |- context [processQueue ?s0] =>
      destruct (processQueue_withinCap s0) as [Hc Ha] end;
      [done|by eapply withinCap_frame|].
    split; [done|]. intros j Hj. right; left. by apply Ha in Hj.
  - destruct (processQueue_withinCap s (Hserial eq_refl) Hcap) as [Hc Ha].
    split; [done|]. intros j Hj. right; left. by apply Ha.
  - unfold runImmediate. destruct (immediates s) as [|[|b] rest] eqn:Himm;
      [by apply Hframe|..].
    + cbn in Hserial. rewrite Himm in Hserial. specialize (Hserial eq_refl).
      match goal with |- context [processQueue ?s0] =>
        destruct (processQueue_withinCap s0) as [Hc Ha] end;
        [done|by eapply withinCap_frame|].
      split; [done|]. intros j Hj. right; left. by apply Ha in Hj.
    + apply Hframe; [|by rewrite pool_destroyBrowser_awaiting].
      match goal with |- context [destroyBrowser b ?s0] =>
        by destruct (pool_destroyBrowser_frame b s0) as (_ & _ & _ & -> & _) end.
  - clear Hserial Hfresh Hframe. unfold resume.
    destruct (awaiting s) as [|b rest] eqn:Haw.
    { split; [done|]. rewrite Haw. by left. }
    assert (∀ b' inst, browserPool s !! b' = Some inst →
      (activePages inst + (if decide (b = b') then 1 else 0)
       + occurrences b' rest ≤ MAX_PAGES_PER_BROWSER)%Z) as Hcap'.
    { intros b' inst Hb'. specialize (Hcap _ _ Hb'). unfold holders in Hcap.
      rewrite Haw, occurrences_cons in Hcap. lia. }
    cbn [processingQueue with_awaiting].
    destruct (processingQueue s) as [|t queue].
    { split; [|cbn; intros j Hj; left; by right].
      intros b' inst Hb'. specialize (Hcap' _ _ Hb').
      unfold holders. cbn. destruct (decide (b = b')); lia. }
    cbn [browserPool with_processingQueue updateMetrics with_metrics with_awaiting].
    destruct (browserPool s !! b) as [inst0|] eqn:Hb.
    + split; [|cbn; intros j Hj; left; by right].
      intros b' inst. unfold holders. cbn.
      destruct (decide (b = b')) as [<-|Hne].
      * rewrite lookup_insert_eq. intros [= <-]. specialize (Hcap' _ _ Hb).
        rewrite decide_True in Hcap' by done. cbn. lia.
      * rewrite lookup_insert_ne by done. intros Hb'. specialize (Hcap' _ _ Hb').
        rewrite decide_False in Hcap' by done. lia.
    + rewrite pool_finish_awaiting. split; [|cbn; intros j Hj; left; by right].
      intros b' inst.
      match goal with |- context [finish t ?res ?s0] =>
        destruct (pool_finish_frame t res s0) as (_ & _ & -> & _) end.
      unfold holders. rewrite pool_finish_awaiting. cbn.
      intros Hb'. specialize (Hcap' _ _ Hb'). destruct (decide (b = b')); lia.
  - unfold launched. destruct (launching s !! k) as [o|]; [|by apply Hframe].
    destruct (Hfresh k b time eq_refl) as [Hnew Hnot].
    pose proof (occurrences_absent b (awaiting s) Hnot) as Hzero.
    assert (∀ s0 b' inst,
      browserPool s0 = <[b := freshInstance time]> (browserPool s) →
      (holders b' s0 ≤ holders b' s + (if decide (b' = b) then 1 else 0))%Z →
      browserPool s0 !! b' = Some inst →
      (activePages inst + holders b' s0 ≤ MAX_PAGES_PER_BROWSER)%Z) as Hnewb.
    { intros s0 b' inst Hpool Hh. rewrite Hpool.
      destruct (decide (b' = b)) as [->|Hne].
      - rewrite lookup_insert_eq. intros [= <-]. cbn.
        unfold holders at 2 in Hh. rewrite Hzero in Hh.
        unfold MAX_PAGES_PER_BROWSER. lia.
      - rewrite lookup_insert_ne by done. intros Hb'. specialize (Hcap _ _ Hb').
        lia. }
    unfold afterLaunch. destruct o as [n|].
    + case_bool_decide; (split; [|cbn; by left]);
        intros b' inst; (eapply Hnewb; [done|]);
        unfold holders; cbn; destruct (decide (b' = b)); lia.
    + split.
      * intros b' inst. eapply Hnewb; [done|].
        unfold holders. cbn. rewrite occurrences_app, occurrences_cons,
          occurrences_nil.
        destruct (decide (b = b')) as [->|Hne].
        -- rewrite decide_True by done. lia.
        -- rewrite decide_False by done. lia.
      * cbn. intros j [?| ->%list_elem_of_singleton]%elem_of_app; [by left|].
        right; right. by apply list_elem_of_singleton.
  - apply Hframe; unfold launchFailed; destruct (launching s !! k) as [o|];
      try done; unfold afterLaunch; by repeat case_match.
  - unfold pageOpened. destruct (findRunning p s) as [r|]; [|by apply Hframe].
    destruct (page r); [by apply Hframe|]. split; [|cbn; by left].
    intros b inst. unfold holders. cbn. fold (holders b s).
    intros [(<- & inst0 & Hb & ->)|[_ Hb]]%lookup_alter_Some;
      [cbn [activePages setPage]|]; by apply Hcap.
  - unfold pageFailed. destruct (findRunning p s) as [r|]; [|by apply Hframe].
    destruct (page r); [by apply Hframe|].
    destruct (exitTask_withinCap r false (Thrown err) s Hcap) as [Hc ->].
    split; [done|]. by left.
  - unfold taskSettled. destruct (findRunning p s) as [r|]; [|by apply Hframe].
    destruct (page r); [|by apply Hframe].
    match goal with |- context [exitTask r ?c ?res s] =>
      destruct (exitTask_withinCap r c res s Hcap) as [Hc ->] end.
    split; [done|]. by left.
  - apply Hframe; [|by rewrite pool_destroyBrowser_awaiting].
    by destruct (pool_destroyBrowser_frame b s) as (_ & _ & _ & -> & _).
  - unfold destroyDone. destruct (destroying s !! k) as [b|]; [|by apply Hframe].
    destruct ok; [|by apply Hframe]. split.
    + intros b' inst. unfold holders.
      case_bool_decide; cbn; fold (holders b' s);
        intros [_ Hb']%lookup_delete_Some; by apply Hcap.
    + intros j. case_bool_decide; cbn; by left.
  - split; [|cbn; by left]. intros b inst. unfold holders, cleanup. cbn.
    fold (holders b s). rewrite lookup_fmap.
    destruct (browserPool s !! b) as [inst0|] eqn:Hb; [|done].
    intros [= <-]. specialize (Hcap _ _ Hb). unfold sweepInstance.
    by repeat case_match.
  - apply Hframe; unfold timeout; by repeat case_match.
  - by apply Hframe.
Qed.

Lemma oneAtATime_snoc trace e : ∀ s,
  oneAtATime s (trace ++ [e]) →
  oneAtATime s trace
  ∧ (callsProcessQueue (run s trace) e = true → awaiting (run s trace) = []).
Proof.
  induction trace as [|e' trace IH]; intros s; cbn.
  - tauto.
  - intros [He' Hrest]. destruct (IH _ Hrest) as [? ?]. tauto.
Qed.

Lemma initial_withinCap : withinCap initial.
Proof. intros b inst. cbn. by rewrite lookup_empty. Qed.

Lemma pool_run_withinCap trace :
  NoDup (launchedIds trace) → oneAtATime initial trace →
  inSync (run initial trace)
  ∧ (∀ i, i ∈ availableBrowsers (run initial trace) → i ∈ launchedIds trace)
  ∧ (∀ i, i ∈ awaiting (run initial trace) → i ∈ launchedIds trace)
  ∧ withinCap (run initial trace).
Proof.
  induction trace as [|e trace IH] using rev_ind; intros Hnd Hone.
  - destruct (pool_run_inSync [] Hnd) as [Hsync Hseen].
    split; [done|]. split; [done|]. split; [|apply initial_withinCap].
    by intros i ?%not_elem_of_nil.
  - destruct (pool_run_inSync _ Hnd) as [Hsync' Hseen'].
    split; [done|]. split; [done|].
    apply oneAtATime_snoc in Hone as [Hone Hserial].
    rewrite launchedIds_app in Hnd.
    apply NoDup_app in Hnd as (Hnd1 & Hdisj & _).
    destruct (IH Hnd1 Hone) as ([_ Hsame] & Hseen & Hwait & Hcap).
    unfold run. rewrite foldl_snoc. fold (run initial trace).
    destruct (pool_step_withinCap (run initial trace) e Hcap Hserial)
      as [Hcap' Hwait'].
    { intros k b time ->.
      assert (b ∉ launchedIds trace) as Hnew.
      { intros Hin. apply (Hdisj b Hin). cbn. by apply list_elem_of_singleton. }
      split; [|intros Hin; by apply Hnew, Hwait].
      apply eq_None_not_Some. intros Hb%Hsame. by apply Hnew, Hseen. }
    split; [|done]. intros i Hi. rewrite launchedIds_app, elem_of_app.
    destruct (Hwait' i Hi) as [?|[?|?]]; [left; by apply Hwait|left; by apply Hseen|by right].
Qed.

End PoolCapFacts.

(** X6. What does hold of the page cap: when the calls of [processQueue]
    come one at a time and [createBrowser] never draws the same id twice,
    no browser of the pool ever has more than [MAX_PAGES_PER_BROWSER]
    pages counted. *)
Lemma one_at_a_time_respects_page_cap (trace : list Pool.Event) b inst :
  NoDup (Pool.launchedIds trace) →
  Pool.oneAtATime Pool.initial trace →
  Pool.browserPool (Pool.run Pool.initial trace) !! b = Some inst →
  (Pool.activePages inst ≤ Pool.MAX_PAGES_PER_BROWSER)%Z.
Proof.
  intros Hnd Hone Hb.
  destruct (pool_run_withinCap trace Hnd Hone) as (_ & _ & _ & Hcap).
  specialize (Hcap _ _ Hb).
  pose proof (occurrences_nonneg b (Pool.awaiting (Pool.run Pool.initial trace))).
  unfold Pool.holders in Hcap. lia.
Qed.

(** One task has its page on the first browser. *)
Lemma one_at_a_time_respects_page_cap_witness :
  NoDup (Pool.launchedIds (poolOfThree ++ take 3 (oneTask 0)))
  ∧ Pool.oneAtATime Pool.initial (poolOfThree ++ take 3 (oneTask 0))
  ∧ ∃ inst,
      Pool.browserPool (Pool.run Pool.initial (poolOfThree ++ take 3 (oneTask 0)))
        !! "browser_1" = Some inst
      ∧ Pool.activePages inst = 1%Z
      ∧ (Pool.activePages inst ≤ Pool.MAX_PAGES_PER_BROWSER)%Z.
Proof.
  assert (NoDup (Pool.launchedIds (poolOfThree ++ take 3 (oneTask 0)))) as Hids.
  { apply (bool_decide_unpack _). vm_compute. exact I. }
  assert (Pool.oneAtATime Pool.initial (poolOfThree ++ take 3 (oneTask 0))) as Hone.
  { vm_compute. repeat split; done. }
  split; [exact Hids|]. split; [exact Hone|].
  destruct (Pool.browserPool (Pool.run Pool.initial (poolOfThree ++ take 3 (oneTask 0)))
              !! "browser_1") as [inst|] eqn:Hb; [|by vm_compute in Hb].
  exists inst. split; [done|].
  split; [vm_compute in Hb; by injection Hb as <-|].
  apply (one_at_a_time_respects_page_cap _ "browser_1" inst Hids Hone Hb).
Defined.

(** The pool itself has no ceiling on its queue: while no browser can be
    had, every call of [generateImage] adds a task. *)
Lemma pool_queue_has_no_ceiling n : ∀ s,
  Pool.shutdownInProgress s = false →
  let trace := replicate n (Pool.GenerateImage "task" tierList 0) in
  Pool.shutdownInProgress (Pool.run s trace) = false
  ∧ length (Pool.processingQueue (Pool.run s trace))
    = (length (Pool.processingQueue s) + n)%nat.
Proof.
  induction n as [|n IH]; intros s Hs; cbn zeta.
  - cbn. split; [done|lia].
  - cbn [replicate Pool.run foldl]. fold (Pool.run (Pool.step s (Pool.GenerateImage "task" tierList 0))
      (replicate n (Pool.GenerateImage "task" tierList 0))).
    assert (Pool.shutdownInProgress
              (Pool.step s (Pool.GenerateImage "task" tierList 0)) = false
            ∧ length (Pool.processingQueue
                        (Pool.step s (Pool.GenerateImage "task" tierList 0)))
              = S (length (Pool.processingQueue s))) as [Hs' Hlen].
    { cbn [Pool.step]. unfold Pool.generateImage.
      cbn [Pool.shutdownInProgress Pool.with_promises]. rewrite Hs.
      unfold Pool.processQueue. repeat case_match; cbn; rewrite ?length_app; cbn;
        (split; [done|lia]). }
    destruct (IH _ Hs') as [? Hn]. split; [done|]. rewrite Hn, Hlen. lia.
Qed.

(** Tasks that come one after another are dispatched one at a time; the
    eleven of [burst 11] are not. *)
Lemma one_after_another_is_one_at_a_time :
  Pool.oneAtATime Pool.initial (poolOfThree ++ oneAfterAnother 20)
  ∧ ¬ Pool.oneAtATime Pool.initial (poolOfThree ++ burst 11).
Proof.
  split.
  - vm_compute. repeat split; done.
  - vm_compute. intros H.
    repeat match goal with H : _ ∧ _ |- _ => destruct H end.
    match goal with H : true = true → _ :: _ = [] |- _ => by specialize (H eq_refl) end.
Qed.

(** A task is never taken while an older one is waiting, in the pool and
    in the image queue service. *)
Lemma pool_younger_task_waits (trace : list Pool.Event) time pageId t1 t2 :
  let s := Pool.run Pool.initial trace in
  t1 ∈ Pool.processingQueue s → t2 ∈ Pool.processingQueue s →
  (Pool.promise t1 < Pool.promise t2)%nat →
  t2 ∈ Pool.processingQueue (Pool.resume time pageId s).
Proof.
  intros s H1 H2 Hlt.
  destruct (resume_takes_head time pageId s) as [->|[t Ht]]; [done|].
  pose proof (pool_run_inOrder trace Pool.initial (inOrder_nil _ _)) as Hs.
  fold s in Hs. rewrite Ht in Hs, H1, H2.
  exact (older_first Pool.promise _ _ _ _ _ Hs H1 H2 Hlt).
Qed.

Lemma iq_younger_task_waits (trace : list ImageQueue.Event) post t1 t2 :
  let s := ImageQueue.run ImageQueue.initial trace in
  t1 ∈ ImageQueue.taskQueue s → t2 ∈ ImageQueue.taskQueue s →
  (ImageQueue.promise t1 < ImageQueue.promise t2)%nat →
  t2 ∈ ImageQueue.taskQueue (ImageQueue.processQueue post s).
Proof.
  intros s H1 H2 Hlt.
  destruct (iq_processQueue_taskQueue post s) as [->|[t Ht]]; [done|].
  pose proof (iq_run_wellFormed trace ImageQueue.initial iq_initial_wellFormed)
    as [Hs _].
  fold s in Hs. rewrite Ht in Hs, H1, H2.
  exact (older_first ImageQueue.promise _ _ _ _ _ Hs H1 H2 Hlt).
Qed.

(** ** Any number of tasks, one after another *)
Ltac pool_state :=
  cbv beta iota zeta delta
    [Pool.with_browserPool Pool.with_availableBrowsers Pool.with_processingQueue
     Pool.with_metrics Pool.with_isInitialized Pool.with_shutdownInProgress
     Pool.with_awaiting Pool.with_launching Pool.with_running Pool.with_destroying
     Pool.with_immediates Pool.with_timers Pool.with_promises Pool.with_settlements
     Pool.browserPool Pool.availableBrowsers Pool.processingQueue Pool.metrics
     Pool.isInitialized Pool.shutdownInProgress Pool.awaiting Pool.launching
     Pool.running Pool.destroying Pool.immediates Pool.timers Pool.promises
     Pool.settlements Pool.updateMetrics Pool.settle Pool.setImmediate
     Pool.task Pool.browserId Pool.pageId Pool.page Pool.promise Pool.options];
  cbn [app length List.find].

Lemma render_goodPage : Pool.render tierList goodPage = Pool.Returned jpeg1k.
Proof. vm_compute. reflexivity. Qed.

Lemma atRest_oneTask i s :
  atRest i s → atRest (S i) (Pool.run s (oneTask i)).
Proof.
  intros (Haw & Hrun & Himm & Hq & Hd & Hshut & Hp & Hm & [rest Hav] & b & Hb
          & Hact & Hproc).
  destruct s as [pool avail queue m init shut aw launching running destroying
                 imm timers promises setl].
  cbn in Haw, Hrun, Himm, Hq, Hd, Hshut, Hp, Hm, Hav, Hb. subst.
  unfold oneTask, Pool.run. cbn [foldl Pool.step].
  (* generateImage *)
  unfold Pool.generateImage. pool_state.
  unfold Pool.processQueue. pool_state.
  rewrite bool_decide_eq_false_2 by done.
  unfold Pool.hasCapacity at 1. pool_state.
  rewrite Hb, Hact. rewrite bool_decide_eq_true_2 by done. pool_state.
  (* the continuation of processQueue *)
  unfold Pool.resume. pool_state. rewrite Hb. pool_state.
  (* newPage *)
  unfold Pool.pageOpened, Pool.findRunning. pool_state.
  rewrite bool_decide_eq_true_2 by done. pool_state.
  unfold Pool.dropRunning. pool_state.
  rewrite filter_cons_False by (pool_state; intros H; by apply H).
  rewrite filter_nil. pool_state.
  (* the screenshot *)
  unfold Pool.taskSettled, Pool.findRunning. pool_state.
  rewrite bool_decide_eq_true_2 by done. pool_state.
  rewrite render_goodPage.
  unfold Pool.exitTask, Pool.leaveTask, Pool.dropRunning. pool_state.
  rewrite filter_cons_False by (pool_state; intros H; by apply H).
  rewrite filter_nil. pool_state.
  rewrite lookup_alter_eq, lookup_insert_eq. cbn [fmap option_fmap option_map].
  rewrite restartDue_in_flight.
  cbn [Pool.processingTasks Pool.setPage Pool.enter]. rewrite Hproc.
  rewrite bool_decide_eq_false_2 by (unfold Pool.BROWSER_RESTART_THRESHOLD; lia).
  unfold Pool.finish. pool_state.
  (* the setImmediate callback *)
  unfold Pool.runImmediate. pool_state.
  unfold Pool.processQueue. pool_state.
  rewrite bool_decide_eq_true_2 by done.
  (* at rest again *)
  unfold atRest. pool_state. repeat split; try done; [by eexists|].
  eexists. rewrite lookup_insert_eq. split; [done|].
  cbn [Pool.activePages Pool.processingTasks Pool.leave Pool.setPage Pool.enter].
  lia.
Qed.

Lemma atRest_poolOfThree : atRest 0 (Pool.run Pool.initial poolOfThree).
Proof.
  vm_compute. repeat split; [by eexists|].
  eexists. split; [reflexivity|]. by split.
Qed.

Lemma pool_run_app s (trace1 trace2 : list Pool.Event) :
  Pool.run s (trace1 ++ trace2) = Pool.run (Pool.run s trace1) trace2.
Proof. apply foldl_app. Qed.

Lemma oneAfterAnother_S n :
  oneAfterAnother (S n) = (oneAfterAnother n ++ oneTask n)%list.
Proof.
  unfold oneAfterAnother. rewrite seq_S, flat_map_app. cbn [flat_map].
  by rewrite app_nil_r.
Qed.

Lemma atRest_oneAfterAnother n :
  atRest n (Pool.run Pool.initial (poolOfThree ++ oneAfterAnother n)).
Proof.
  rewrite pool_run_app.
  induction n as [|n IH]; [apply atRest_poolOfThree|].
  rewrite oneAfterAnother_S, pool_run_app. apply atRest_oneTask, IH.
Qed.

(** C2 (the code departs from the claim).  [processingTasks] is counted
    up at the start of [executeTask] and down again in its [finally]
    block, so it is the number of tasks under way, not the number of tasks
    executed.  However many tasks the first browser has executed one
    after another, a hundred or more, its [processingTasks] is 0
    afterwards, no [destroyBrowser] is scheduled or started, and the
    browser is still in the pool. *)
Theorem sequential_tasks_never_retire (n : nat) :
  let s := Pool.run Pool.initial (poolOfThree ++ oneAfterAnother n) in
  Pool.totalTasksProcessed (Pool.metrics s) = n
  ∧ Pool.immediates s = []
  ∧ Pool.destroying s = []
  ∧ (∃ b, Pool.browserPool s !! "browser_1" = Some b
          ∧ Pool.activePages b = 0%Z ∧ Pool.processingTasks b = 0%Z)
  ∧ Pool.BROWSER_RESTART_THRESHOLD = 100%Z.
Proof.
  intros s.
  destruct (atRest_oneAfterAnother n)
    as (_ & _ & Himm & _ & Hd & _ & _ & Hm & _ & Hb).
  by repeat split.
Qed.

(** * Further properties of the code *)

Section LedgerFacts.
Import Pool Ledger.

Lemma dropped_one {A} (f : A → nat) (l : list A) x :
  NoDup (f <$> l) → x ∈ l →
  ((f <$> filter (λ y, f y ≠ f x) l) ++ [f x])%list ≡ₚ f <$> l.
Proof.
  induction l as [|a l IH]; [by intros _ ?%not_elem_of_nil|].
  rewrite fmap_cons. intros [Ha Hnd]%NoDup_cons [->|Hx]%elem_of_cons.
  - rewrite filter_cons_False by (intros H; by apply H).
    assert (filter (λ y, f y ≠ f a) l = l) as ->.
    { clear IH Hnd. induction l as [|b l IH]; [done|].
      rewrite fmap_cons, not_elem_of_cons in Ha. destruct Ha as [Hab Ha].
      rewrite filter_cons_True by congruence. f_equal. by apply IH. }
    symmetry. apply Permutation_cons_append.
  - assert (f a ≠ f x) as Hne.
    { intros Heq. apply Ha. rewrite Heq. apply list_elem_of_fmap. by exists x. }
    rewrite filter_cons_True by done. rewrite fmap_cons. cbn [app].
    constructor. by apply IH.
Qed.

Lemma pool_processQueue_rest s :
  running (processQueue s) = running s
  ∧ timers (processQueue s) = timers s
  ∧ metrics (processQueue s) = metrics s
  ∧ shutdownInProgress (processQueue s) = shutdownInProgress s
  ∧ immediates (processQueue s) = immediates s
  ∧ destroying (processQueue s) = destroying s.
Proof. unfold processQueue. by repeat case_match. Qed.

Lemma pool_destroyBrowser_rest b s :
  running (destroyBrowser b s) = running s
  ∧ timers (destroyBrowser b s) = timers s
  ∧ metrics (destroyBrowser b s) = metrics s
  ∧ shutdownInProgress (destroyBrowser b s) = shutdownInProgress s
  ∧ immediates (destroyBrowser b s) = immediates s.
Proof. unfold destroyBrowser. by case_match. Qed.

Lemma pool_finish_rest t result s :
  running (finish t result s) = running s
  ∧ timers (finish t result s) = timers s
  ∧ shutdownInProgress (finish t result s) = shutdownInProgress s.
Proof. unfold finish. by destruct result. Qed.

Lemma pool_leaveTask_rest r closed s :
  processingQueue (leaveTask r closed s) = processingQueue s
  ∧ running (leaveTask r closed s)
    = filter (λ r', promise (task r') ≠ promise (task r)) (running s)
  ∧ settlements (leaveTask r closed s) = settlements s
  ∧ timers (leaveTask r closed s) = timers s
  ∧ metrics (leaveTask r closed s) = metrics s
  ∧ promises (leaveTask r closed s) = promises s
  ∧ shutdownInProgress (leaveTask r closed s) = shutdownInProgress s.
Proof. unfold leaveTask. cbn. by repeat case_match. Qed.

Lemma pool_exitTask_rest r closed result s :
  running (exitTask r closed result s)
  = filter (λ r', promise (task r') ≠ promise (task r)) (running s)
  ∧ timers (exitTask r closed result s) = timers s
  ∧ shutdownInProgress (exitTask r closed result s) = shutdownInProgress s.
Proof.
  unfold exitTask.
  destruct (pool_finish_rest (task r) result (leaveTask r closed s)) as (-> & -> & ->).
  by destruct (pool_leaveTask_rest r closed s) as (_ & -> & _ & -> & _ & _ & ->).
Qed.

(** What a step does to the promises: [new] is the promise a call of
    [generateImage] creates, [gone] are the promises that stop being
    pending, [done] the promises for which [resolve] or [reject] is
    called.  They are the same except when a timer fires, which removes
    the first queued task with the id the timer holds and rejects the
    promise the timer holds. *)
Lemma pool_step_ledger s e :
  NoDup (underWay s) →
  ∃ new gone done,
    (pending s ++ new)%list ≡ₚ (pending (step s e) ++ gone)%list
    ∧ settled (step s e) = (settled s ++ done)%list
    ∧ ((new = [] ∧ promises (step s e) = promises s)
       ∨ (new = [promises s] ∧ promises (step s e) = S (promises s)))
    ∧ (gone = done
       ∨ ∃ t p, t ∈ processingQueue s ∧ (p, id t) ∈ timers s
                ∧ gone = [promise t] ∧ done = [p]).
Proof.
  intros Hnd. unfold pending, waiting, underWay, settled.
  assert (∀ s', processingQueue s' = processingQueue s → running s' = running s →
                settlements s' = settlements s → promises s' = promises s →
    ∃ new gone done,
      ((promise <$> processingQueue s) ++ ((λ r, promise (task r)) <$> running s)
         ++ new)%list
      ≡ₚ ((promise <$> processingQueue s') ++ ((λ r, promise (task r)) <$> running s')
            ++ gone)%list
      ∧ (settlements s').*1 = ((settlements s).*1 ++ done)%list
      ∧ ((new = [] ∧ promises s' = promises s)
         ∨ (new = [promises s] ∧ promises s' = S (promises s)))
      ∧ (gone = done
         ∨ ∃ t p, t ∈ processingQueue s ∧ (p, id t) ∈ timers s
                  ∧ gone = [promise t] ∧ done = [p])) as Hframe.
  { intros s' -> -> -> ->. exists [], [], []. rewrite !app_nil_r. by repeat split; auto. }
  setoid_rewrite <- (assoc_L (++)).
  destruct e as [|i o time| | |time pg|k b time|k|p|p err|p resp|b|k ok|time|p|];
    cbn [step].
  - apply Hframe; unfold initialize; by case_match.
  - unfold generateImage. cbn [shutdownInProgress with_promises].
    destruct (shutdownInProgress s).
    + exists [promises s], [promises s], [promises s]. cbn.
      rewrite fmap_app. cbn. repeat split; auto.
    + match goal with |- context [processQueue ?s0] =>
        destruct (pool_processQueue_frame s0) as (-> & -> & -> & _);
        destruct (pool_processQueue_rest s0) as (-> & _) end.
      exists [promises s], [], []. cbn. rewrite fmap_app, !app_nil_r. cbn.
      repeat split; auto. solve_Permutation.
  - destruct (pool_processQueue_frame s) as (? & ? & ? & _).
    destruct (pool_processQueue_rest s) as (? & _). by apply Hframe.
  - unfold runImmediate. destruct (immediates s) as [|[|b] rest]; [by apply Hframe|..].
    + match goal with |- context [processQueue ?s0] =>
        destruct (pool_processQueue_frame s0) as (? & ? & ? & _);
        destruct (pool_processQueue_rest s0) as (? & _) end.
      by apply Hframe.
    + match goal with |- context [destroyBrowser b ?s0] =>
        destruct (pool_destroyBrowser_frame b s0) as (? & ? & ? & _);
        destruct (pool_destroyBrowser_rest b s0) as (? & _) end.
      by apply Hframe.
  - unfold resume. destruct (awaiting s) as [|b rest]; [by apply Hframe|].
    cbn [processingQueue with_awaiting].
    destruct (processingQueue s) as [|t queue] eqn:Hq.
    { apply Hframe; cbn; by rewrite ?Hq. }
    cbn [browserPool with_processingQueue updateMetrics with_metrics with_awaiting].
    destruct (browserPool s !! b).
    + exists [], [], []. cbn. rewrite fmap_app, !app_nil_r. cbn.
      repeat split; auto. solve_Permutation.
    + match goal with |- context [finish t ?res ?s0] =>
        destruct (pool_finish_frame t res s0) as (-> & -> & _);
        destruct (pool_finish_rest t res s0) as (-> & _) end.
      rewrite pool_finish_settlements.
      exists [], [promise t], [promise t]. cbn. rewrite fmap_app, !app_nil_r. cbn.
      repeat split; auto. solve_Permutation.
  - apply Hframe; unfold launched; destruct (launching s !! k) as [o|]; try done;
      unfold afterLaunch; by repeat case_match.
  - apply Hframe; unfold launchFailed; destruct (launching s !! k) as [o|]; try done;
      unfold afterLaunch; by repeat case_match.
  - unfold pageOpened. destruct (findRunning p s) as [r|] eqn:Hfind; [|by apply Hframe].
    destruct (page r); [by apply Hframe|].
    apply find_elem_of in Hfind as [Hin Hp%bool_decide_eq_true].
    exists [], [], []. cbn. rewrite fmap_app, !app_nil_r. cbn.
    repeat split; auto. apply Permutation_app_head.
    rewrite <- (dropped_one (λ r, promise (task r)) (running s) r Hnd Hin).
    rewrite Hp. done.
  - unfold pageFailed. destruct (findRunning p s) as [r|] eqn:Hfind; [|by apply Hframe].
    destruct (page r); [by apply Hframe|].
    apply find_elem_of in Hfind as [Hin _].
    destruct (pool_exitTask_frame r false (Thrown err) s) as (-> & -> & _).
    destruct (pool_exitTask_rest r false (Thrown err) s) as (-> & _).
    rewrite pool_exitTask_settlements.
    exists [], [promise (task r)], [promise (task r)].
    rewrite fmap_app, !app_nil_r. cbn. repeat split; auto.
    apply Permutation_app_head. symmetry.
    apply (dropped_one (λ r, promise (task r)) (running s) r Hnd Hin).
  - unfold taskSettled. destruct (findRunning p s) as [r|] eqn:Hfind; [|by apply Hframe].
    destruct (page r); [|by apply Hframe].
    apply find_elem_of in Hfind as [Hin _].
    match goal with |- context [exitTask r ?c ?res s] =>
      destruct (pool_exitTask_frame r c res s) as (-> & -> & _);
      destruct (pool_exitTask_rest r c res s) as (-> & _) end.
    rewrite pool_exitTask_settlements.
    exists [], [promise (task r)], [promise (task r)].
    rewrite fmap_app, !app_nil_r. cbn. repeat split; auto.
    apply Permutation_app_head. symmetry.
    apply (dropped_one (λ r, promise (task r)) (running s) r Hnd Hin).
  - destruct (pool_destroyBrowser_frame b s) as (? & ? & ? & _).
    destruct (pool_destroyBrowser_rest b s) as (? & _). by apply Hframe.
  - apply Hframe; unfold destroyDone; by repeat case_match.
  - unfold cleanup, rejectAll. cbn.
    exists [], (promise <$> filter (stale time) (processingQueue s)),
      (promise <$> filter (stale time) (processingQueue s)).
    rewrite fmap_app, <- list_fmap_compose, !app_nil_r. cbn.
    repeat split; auto.
    rewrite <- (filter_app_complement (stale time) (processingQueue s)) at 1.
    rewrite fmap_app. solve_Permutation.
  - unfold timeout. destruct (List.find _ _) as [[p' taskId]|] eqn:Hfind;
      [|by apply Hframe].
    apply find_elem_of in Hfind as [Htimer Hp%bool_decide_eq_true].
    cbn in Hp. subst p'.
    cbn [processingQueue with_timers].
    case_bool_decide as Hidx; [|by apply Hframe].
    destruct (findIndex_range (λ t, bool_decide (id t = taskId)) (processingQueue s))
      as [?|Hrange]; [done|].
    destruct (Z_of_nat_complete (findIndex (λ t, bool_decide (id t = taskId))
                                           (processingQueue s))) as [n Hn]; [lia|].
    rewrite Hn. apply findIndex_found in Hn as (t & Ht & <-%bool_decide_eq_true & _).
    rewrite splice1_at. cbn.
    exists [], [promise t], [p]. rewrite fmap_app, !app_nil_r. cbn.
    split; [|split; [done|split; [by left|]]].
    + rewrite (delete_Permutation (processingQueue s) n t Ht) at 1.
      rewrite fmap_cons. solve_Permutation.
    + right. exists t, p. repeat split; try done.
      by eapply list_elem_of_lookup_2.
  - unfold shutdown, rejectAll. cbn.
    exists [], (promise <$> processingQueue s), (promise <$> processingQueue s).
    rewrite fmap_app, <- list_fmap_compose, !app_nil_r. cbn.
    repeat split; auto. solve_Permutation.
Qed.

Lemma pool_step_pendingOnce s e : pendingOnce s → pendingOnce (step s e).
Proof.
  intros [Hnd Hlt].
  assert (NoDup (underWay s)) as Hrun.
  { unfold pending in Hnd. by apply NoDup_app in Hnd as (_ & _ & ?). }
  destruct (pool_step_ledger s e Hrun) as (new & gone & done & Hperm & _ & Hnew & _).
  assert (NoDup (pending s ++ new) ∧
          Forall (λ p, (p < promises (step s e))%nat) (pending s ++ new)) as [Hnd' Hlt'].
  { destruct Hnew as [[-> ->]|[-> ->]].
    - by rewrite app_nil_r.
    - split.
      + apply NoDup_app. split; [done|]. split; [|apply NoDup_singleton].
        intros x Hx ->%list_elem_of_singleton.
        rewrite Forall_forall in Hlt. specialize (Hlt _ Hx). lia.
      + apply Forall_app. split; [|by repeat constructor].
        eapply Forall_impl; [done|]. cbn. lia. }
  rewrite Hperm in Hnd', Hlt'.
  apply NoDup_app in Hnd' as (? & _). apply Forall_app in Hlt' as [? _]. done.
Qed.

Lemma pool_run_pendingOnce trace : ∀ s, pendingOnce s → pendingOnce (run s trace).
Proof.
  induction trace as [|e trace IH]; intros s Hs; [done|].
  cbn [run foldl]. apply IH. by apply pool_step_pendingOnce.
Qed.

Lemma initial_pendingOnce : pendingOnce initial.
Proof. split; constructor. Qed.

(** What a step does to the queue and to the timers: it removes entries,
    or it is a submission, which adds a task and the timer of that
    task. *)
Lemma pool_step_timers s e :
  (processingQueue (step s e) `sublist_of` processingQueue s
   ∧ timers (step s e) `sublist_of` timers s
   ∧ submittedIds [e] = [] ∨
   (∃ taskId, submittedIds [e] = [taskId]
      ∧ processingQueue (step s e) = processingQueue s
      ∧ timers (step s e) = timers s))
  ∨ (∃ taskId t, submittedIds [e] = [taskId]
       ∧ processingQueue (step s e) = (processingQueue s ++ [t])%list
       ∧ id t = taskId ∧ promise t = promises s
       ∧ timers (step s e) = (timers s ++ [(promises s, taskId)])%list
       ∧ promises (step s e) = S (promises s)).
Proof.
  destruct e as [|i o time| | |time pg|k b time|k|p|p err|p resp|b|k ok|time|p|];
    cbn [step].
  - left; left. unfold initialize. by case_match.
  - unfold generateImage. cbn [shutdownInProgress with_promises].
    destruct (shutdownInProgress s).
    + left; right. exists i. by cbn.
    + right. exists i.
      match goal with |- context [processQueue ?s0] =>
        destruct (pool_processQueue_frame s0) as (-> & -> & _);
        destruct (pool_processQueue_rest s0) as (_ & -> & _) end.
      eexists. cbn. by repeat split.
  - left; left. destruct (pool_processQueue_frame s) as (-> & _).
    by destruct (pool_processQueue_rest s) as (_ & -> & _).
  - left; left. unfold runImmediate. destruct (immediates s) as [|[|b] rest]; [done|..].
    + match goal with |- context [processQueue ?s0] =>
        destruct (pool_processQueue_frame s0) as (-> & _);
        destruct (pool_processQueue_rest s0) as (_ & -> & _) end. done.
    + match goal with |- context [destroyBrowser b ?s0] =>
        destruct (pool_destroyBrowser_frame b s0) as (-> & _);
        destruct (pool_destroyBrowser_rest b s0) as (_ & -> & _) end. done.
  - left; left. unfold resume. destruct (awaiting s) as [|b rest]; [done|].
    cbn [processingQueue with_awaiting].
    destruct (processingQueue s) as [|t queue] eqn:Hq; [cbn; by rewrite Hq|].
    cbn [browserPool with_processingQueue updateMetrics with_metrics with_awaiting].
    destruct (browserPool s !! b).
    + cbn. split; [by apply sublist_cons|done].
    + match goal with |- context [finish t ?res ?s0] =>
        destruct (pool_finish_frame t res s0) as (-> & _);
        destruct (pool_finish_rest t res s0) as (_ & -> & _) end.
      cbn. split; [by apply sublist_cons|done].
  - left; left. unfold launched. destruct (launching s !! k) as [o|]; [|done].
    unfold afterLaunch. by repeat case_match.
  - left; left. unfold launchFailed. destruct (launching s !! k) as [o|]; [|done].
    unfold afterLaunch. by repeat case_match.
  - left; left. unfold pageOpened. by repeat case_match.
  - left; left. unfold pageFailed. destruct (findRunning p s) as [r|]; [|done].
    destruct (page r); [done|].
    destruct (pool_exitTask_frame r false (Thrown err) s) as (-> & _).
    by destruct (pool_exitTask_rest r false (Thrown err) s) as (_ & -> & _).
  - left; left. unfold taskSettled. destruct (findRunning p s) as [r|]; [|done].
    destruct (page r); [|done].
    match goal with |- context [exitTask r ?c ?res s] =>
      destruct (pool_exitTask_frame r c res s) as (-> & _);
      destruct (pool_exitTask_rest r c res s) as (_ & -> & _) end. done.
  - left; left. destruct (pool_destroyBrowser_frame b s) as (-> & _).
    by destruct (pool_destroyBrowser_rest b s) as (_ & -> & _).
  - left; left. unfold destroyDone. by repeat case_match.
  - left; left. unfold cleanup. cbn. split; [apply sublist_filter|done].
  - left; left. unfold timeout. destruct (List.find _ _) as [[? taskId]|]; [|done].
    case_bool_decide; cbn; (split; [|split; [apply sublist_filter|done]]);
      [apply splice1_sublist|done].
  - left; left. unfold shutdown. cbn. split; [apply sublist_nil_l|done].
Qed.

Lemma submittedIds_app trace1 trace2 :
  submittedIds (trace1 ++ trace2) = (submittedIds trace1 ++ submittedIds trace2)%list.
Proof. unfold submittedIds. by rewrite omap_app. Qed.

Lemma pool_step_timersMatch ids s e :
  NoDup (ids ++ submittedIds [e]) →
  timersMatch ids s → timersMatch (ids ++ submittedIds [e]) (step s e).
Proof.
  intros Hnd (Hmatch & Hq & Ht). unfold timersMatch.
  destruct (pool_step_timers s e)
    as [[(Hsq & Hst & _)|(taskId & _ & -> & ->)]
       |(taskId & t & Hid & -> & Hidt & Hpt & -> & _)].
  - repeat split.
    + intros t p Hin Htimer. apply Hmatch; by eapply sublist_elem_of_inv.
    + intros t Hin. apply elem_of_app. left. apply Hq. by eapply sublist_elem_of_inv.
    + intros p i Hin. apply elem_of_app. left. eapply Ht. by eapply sublist_elem_of_inv.
  - repeat split; [done|..]; intros; apply elem_of_app; left; eauto.
  - rewrite Hid in *. apply NoDup_app in Hnd as (_ & Hfresh & _).
    assert (taskId ∉ ids) as Hnew.
    { intros Hin. apply (Hfresh _ Hin). by apply list_elem_of_singleton. }
    repeat split.
    + intros t' p [Hin| ->%list_elem_of_singleton]%elem_of_app
        [Htimer|[= -> Heq]%list_elem_of_singleton]%elem_of_app.
      * by apply Hmatch.
      * exfalso. apply Hnew. rewrite <- Heq. by apply Hq.
      * exfalso. apply Hnew. rewrite <- Hidt. by eapply Ht.
      * done.
    + intros t' [Hin| ->%list_elem_of_singleton]%elem_of_app; apply elem_of_app.
      * left. by apply Hq.
      * right. by apply list_elem_of_singleton.
    + intros p i [Hin|[= -> ->]%list_elem_of_singleton]%elem_of_app; apply elem_of_app.
      * left. by eapply Ht.
      * right. by apply list_elem_of_singleton.
Qed.

Lemma pool_step_accounted ids s e :
  timersMatch ids s → accounted s → accounted (step s e).
Proof.
  intros (Hmatch & _) [Hnd Hlt].
  assert (NoDup (underWay s)) as Hrun.
  { unfold pending in Hnd. rewrite <- (assoc_L (++)) in Hnd.
    apply NoDup_app in Hnd as (_ & _ & Hnd). by apply NoDup_app in Hnd as (? & _). }
  destruct (pool_step_ledger s e Hrun)
    as (new & gone & done & Hperm & Hdone & Hnew & Hsame).
  assert (gone = done) as ->.
  { destruct Hsame as [?|(t & p & Hin & Htimer & -> & ->)]; [done|].
    f_equal. by apply Hmatch. }
  assert (NoDup ((pending s ++ settled s) ++ new) ∧
          Forall (λ p, (p < promises (step s e))%nat)
                 ((pending s ++ settled s) ++ new)) as [Hnd' Hlt'].
  { destruct Hnew as [[-> ->]|[-> ->]].
    - by rewrite app_nil_r.
    - split.
      + apply NoDup_app. split; [done|]. split; [|apply NoDup_singleton].
        intros x Hx ->%list_elem_of_singleton.
        rewrite Forall_forall in Hlt. specialize (Hlt _ Hx). lia.
      + apply Forall_app. split; [|by repeat constructor].
        eapply Forall_impl; [done|]. cbn. lia. }
  assert (((pending s ++ settled s) ++ new)%list
          ≡ₚ (pending (step s e) ++ settled (step s e))%list) as Hall.
  { rewrite Hdone.
    transitivity ((pending s ++ new) ++ settled s)%list; [solve_Permutation|].
    rewrite Hperm. solve_Permutation. }
  unfold accounted. by rewrite <- Hall.
Qed.

Lemma pool_run_accounted trace :
  NoDup (submittedIds trace) →
  accounted (run initial trace) ∧ timersMatch (submittedIds trace) (run initial trace).
Proof.
  induction trace as [|e trace IH] using rev_ind; intros Hnd.
  - split; [split; constructor|]. repeat split; cbn; by intros; exfalso; eapply not_elem_of_nil.
  - rewrite submittedIds_app in Hnd |- *.
    destruct IH as [Hacc Hmatch]; [by apply NoDup_app in Hnd as (? & _)|].
    unfold run. rewrite foldl_snoc. fold (run initial trace). split.
    + by eapply pool_step_accounted.
    + by apply pool_step_timersMatch.
Qed.

Lemma settlementsOf_length p (log : list (nat * Settlement)) :
  NoDup log.*1 → (length (settlementsOf p log) ≤ 1)%nat.
Proof.
  unfold settlementsOf. rewrite length_fmap.
  induction log as [|[q o] log IH]; [cbn; lia|].
  rewrite fmap_cons. intros [Hq Hnd]%NoDup_cons. rewrite filter_cons. cbn [fst].
  destruct (decide (q = p)) as [->|]; [|by apply IH].
  assert (filter (λ e : nat * Settlement, e.1 = p) log = []) as ->; [|cbn; lia].
  clear IH Hnd. induction log as [|[q o'] log IH]; [done|].
  rewrite fmap_cons, not_elem_of_cons in Hq. cbn [fst] in Hq. destruct Hq as [Hne Hq].
  rewrite filter_cons_False by (cbn; congruence). by apply IH.
Qed.

Lemma settlementsOf_none p (log : list (nat * Settlement)) :
  p ∉ log.*1 → settlementsOf p log = [].
Proof.
  unfold settlementsOf. induction log as [|[q o] log IH]; [done|].
  rewrite fmap_cons, not_elem_of_cons. cbn [fst]. intros [Hne Hp].
  rewrite filter_cons_False by (cbn; congruence). by apply IH.
Qed.

End LedgerFacts.

(** X1. Under unique task ids the pool calls [resolve] or [reject] at most
    once for every promise of [generateImage], and never for a promise
    whose task is still queued or under way. *)
Theorem pool_settles_at_most_once (trace : list Pool.Event) (p : nat) :
  NoDup (Ledger.submittedIds trace) →
  let s := Pool.run Pool.initial trace in
  (length (settlementsOf p (Pool.settlements s)) ≤ 1)%nat
  ∧ (p ∈ Ledger.pending s → settlementsOf p (Pool.settlements s) = [])
  ∧ (settlementsOf p (Pool.settlements s) ≠ [] → (p < Pool.promises s)%nat).
Proof.
  intros Hids s. destruct (pool_run_accounted trace Hids) as [[Hnd Hlt] _].
  fold s in Hnd, Hlt. apply NoDup_app in Hnd as (_ & Hdisj & Hset).
  split; [by apply settlementsOf_length|]. split.
  - intros Hp. apply settlementsOf_none. by apply Hdisj.
  - intros Hsome. destruct (decide (p ∈ Ledger.settled s)) as [Hin|Hout].
    + rewrite Forall_forall in Hlt. apply Hlt, elem_of_app. by right.
    + by apply settlementsOf_none in Hout.
Qed.

(** Three tasks, one after another, in the pool of three browsers: the
    second promise is fulfilled once. *)
Lemma pool_settles_at_most_once_witness :
  NoDup (Ledger.submittedIds (poolOfThree ++ oneAfterAnother 3))
  ∧ settlementsOf 1 (Pool.settlements (Pool.run Pool.initial (poolOfThree ++ oneAfterAnother 3)))
    = [Fulfilled jpeg1k]
  ∧ (length (settlementsOf 1
       (Pool.settlements (Pool.run Pool.initial (poolOfThree ++ oneAfterAnother 3)))) ≤ 1)%nat.
Proof.
  assert (NoDup (Ledger.submittedIds (poolOfThree ++ oneAfterAnother 3))) as Hids.
  { apply (bool_decide_unpack _). vm_compute. exact I. }
  split; [exact Hids|]. split; [vm_compute; reflexivity|].
  apply (pool_settles_at_most_once (poolOfThree ++ oneAfterAnother 3) 1 Hids).
Defined.

Section MetricsFacts.
Import Pool Ledger.

Lemma fulfilled_app l k : fulfilled (l ++ k) = (fulfilled l + fulfilled k)%nat.
Proof. unfold fulfilled. by rewrite filter_app, length_app. Qed.


Lemma fulfilled_one p o : fulfilled [(p, o)] = if isFulfilled o then 1%nat else 0%nat.
Proof. by destruct o. Qed.

Lemma rejected_app l k : rejected (l ++ k) = (rejected l + rejected k)%nat.
Proof. unfold rejected. by rewrite filter_app, length_app. Qed.

Lemma rejected_one p o : rejected [(p, o)] = if isFulfilled o then 0%nat else 1%nat.
Proof. by destruct o. Qed.


Lemma dropped_length {A} (f : A → nat) (l : list A) x :
  NoDup (f <$> l) → x ∈ l →
  S (length (filter (λ y, f y ≠ f x) l)) = length l.
Proof.
  intros Hnd Hin. pose proof (dropped_one f l x Hnd Hin) as Hperm.
  apply Permutation_length in Hperm.
  rewrite length_app, !length_fmap in Hperm. cbn in Hperm. lia.
Qed.




End MetricsFacts.


Section TimerFacts.
Import Pool Ledger.

Lemma NoDup_fst_eq {A B} (l : list (A * B)) a b c :
  NoDup l.*1 → (a, b) ∈ l → (a, c) ∈ l → b = c.
Proof.
  induction l as [|[x y] l IH]; [by intros _ ?%not_elem_of_nil|].
  rewrite fmap_cons. cbn [fst]. intros [Hx Hnd]%NoDup_cons Hb Hc.
  apply elem_of_cons in Hb as [Hb|Hb]; apply elem_of_cons in Hc as [Hc|Hc].
  - congruence.
  - injection Hb as -> ->. exfalso. apply Hx, list_elem_of_fmap. by exists (x, c).
  - injection Hc as -> ->. exfalso. apply Hx, list_elem_of_fmap. by exists (x, b).
  - by apply IH.
Qed.

Lemma filter_id {A} (P : A → Prop) `{∀ x, Decision (P x)} (l : list A) :
  Forall P l → filter P l = l.
Proof.
  induction 1 as [|x l Hx _ IH]; [done|]. rewrite filter_cons_True by done.
  by f_equal.
Qed.

Lemma delete_filter {A} (f : A → nat) (l : list A) n x :
  NoDup (f <$> l) → l !! n = Some x →
  delete n l = filter (λ y, f y ≠ f x) l.
Proof.
  revert n. induction l as [|a l IH]; intros n; [done|].
  rewrite fmap_cons. intros [Ha Hnd]%NoDup_cons Hx. destruct n as [|n].
  - injection Hx as ->. cbn [delete list_delete].
    rewrite filter_cons_False by (intros H'; by apply H').
    symmetry. apply filter_id, Forall_forall. intros y Hy Heq.
    apply Ha. rewrite <- Heq. apply list_elem_of_fmap. by exists y.
  - cbn in Hx. cbn [delete list_delete].
    rewrite filter_cons_True; [f_equal; by apply IH|].
    intros Heq. apply Ha. rewrite Heq. apply list_elem_of_fmap. exists x.
    split; [done|]. by eapply list_elem_of_lookup_2.
Qed.

(** The timer of a task that is still queued: the task leaves the queue
    and its promise is rejected. *)
Lemma pool_timeout_queued ids s t :
  NoDup (waiting s) → timersMatch ids s → timersArmed s →
  t ∈ processingQueue s →
  timeout (promise t) s
  = settle (promise t) (Rejected "Таймаут генерации изображения")
      (with_processingQueue
         (filter (λ t', promise t' ≠ promise t) (processingQueue s))
         (with_timers (filter (λ x, x.1 ≠ promise t) (timers s)) s)).
Proof.
  intros Hnd (Hmatch & _) (Hnt & _ & Harmed) Hin. unfold timeout.
  destruct (List.find _ (timers s)) as [[p' i]|] eqn:Hfind.
  2: { exfalso. pose proof (List.find_none _ _ Hfind (promise t, id t)) as Hnone.
       rewrite <- list_elem_of_In in Hnone. specialize (Hnone (Harmed t Hin)).
       cbn in Hnone. by rewrite bool_decide_eq_true_2 in Hnone. }
  apply find_elem_of in Hfind as [Htimer Hp%bool_decide_eq_true].
  cbn in Hp. subst p'.
  assert (i = id t) as ->.
  { eapply NoDup_fst_eq; [exact Hnt|exact Htimer|by apply Harmed]. }
  cbn [processingQueue with_timers].
  destruct (findIndex_range (λ t', bool_decide (id t' = id t)) (processingQueue s))
    as [Hno|Hrange].
  { apply findIndex_absent in Hno. rewrite Forall_forall in Hno.
    specialize (Hno t Hin). by rewrite bool_decide_eq_true_2 in Hno. }
  rewrite bool_decide_eq_true_2 by lia.
  destruct (Z_of_nat_complete (findIndex (λ t', bool_decide (id t' = id t))
                                         (processingQueue s))) as [n Hn]; [lia|].
  rewrite Hn. apply findIndex_found in Hn as (t' & Ht' & Hid%bool_decide_eq_true & _).
  rewrite splice1_at.
  assert (promise t' = promise t) as Hpt.
  { apply Hmatch; [by eapply list_elem_of_lookup_2|]. rewrite Hid. by apply Harmed. }
  by rewrite (delete_filter promise _ n t' Hnd Ht'), Hpt.
Qed.

(** The timer of a task that has left the queue does nothing. *)
Lemma pool_timeout_gone ids s p :
  timersMatch ids s → p ∉ waiting s →
  timeout p s = with_timers (filter (λ x, x.1 ≠ p) (timers s)) s.
Proof.
  intros (Hmatch & _) Hout. unfold timeout.
  destruct (List.find _ (timers s)) as [[p' i]|] eqn:Hfind.
  - apply find_elem_of in Hfind as [Htimer Hp%bool_decide_eq_true].
    cbn in Hp. subst p'. cbn [processingQueue with_timers].
    destruct (findIndex_range (λ t', bool_decide (id t' = i)) (processingQueue s))
      as [->|Hrange]; [by rewrite bool_decide_eq_false_2 by (intros H; by apply H)|].
    exfalso.
    destruct (Z_of_nat_complete (findIndex (λ t', bool_decide (id t' = i))
                                           (processingQueue s))) as [n Hn]; [lia|].
    apply findIndex_found in Hn as (t' & Ht' & <-%bool_decide_eq_true & _).
    apply list_elem_of_lookup_2 in Ht'. apply Hout.
    rewrite <- (Hmatch t' p Ht' Htimer). apply list_elem_of_fmap. by exists t'.
  - rewrite filter_id; [by destruct s|]. apply Forall_forall. intros x Hx Heq.
    pose proof (List.find_none _ _ Hfind x) as Hnone.
    rewrite <- list_elem_of_In in Hnone. specialize (Hnone Hx).
    by rewrite bool_decide_eq_true_2 in Hnone.
Qed.

Lemma pool_step_timers_same s e :
  (∀ p, e ≠ Timeout p) → submittedIds [e] = [] → timers (step s e) = timers s.
Proof.
  intros Hnt Hni.
  destruct e as [|i o time| | |time pg|k b time|k|p|p err|p resp|b|k ok|time|p|];
    cbn [step]; try done.
  - unfold initialize. by case_match.
  - by destruct (pool_processQueue_rest s) as (_ & -> & _).
  - unfold runImmediate. destruct (immediates s) as [|[|b] rest]; [done|..].
    + match goal with |- context [processQueue ?s0] =>
        by destruct (pool_processQueue_rest s0) as (_ & -> & _) end.
    + match goal with |- context [destroyBrowser b ?s0] =>
        by destruct (pool_destroyBrowser_rest b s0) as (_ & -> & _) end.
  - unfold resume. destruct (awaiting s) as [|b rest]; [done|].
    cbn [processingQueue with_awaiting].
    destruct (processingQueue s) as [|t queue]; [done|].
    cbn [browserPool with_processingQueue updateMetrics with_metrics with_awaiting].
    destruct (browserPool s !! b); [done|].
    match goal with |- context [finish t ?res ?s0] =>
      by destruct (pool_finish_rest t res s0) as (_ & -> & _) end.
  - unfold launched. destruct (launching s !! k) as [o|]; [|done].
    unfold afterLaunch. by repeat case_match.
  - unfold launchFailed. destruct (launching s !! k) as [o|]; [|done].
    unfold afterLaunch. by repeat case_match.
  - unfold pageOpened. by repeat case_match.
  - unfold pageFailed. destruct (findRunning p s) as [r|]; [|done].
    destruct (page r); [done|].
    by destruct (pool_exitTask_rest r false (Thrown err) s) as (_ & -> & _).
  - unfold taskSettled. destruct (findRunning p s) as [r|]; [|done].
    destruct (page r); [|done].
    match goal with |- context [exitTask r ?c ?res s] =>
      by destruct (pool_exitTask_rest r c res s) as (_ & -> & _) end.
  - by destruct (pool_destroyBrowser_rest b s) as (_ & -> & _).
  - unfold destroyDone. by repeat case_match.
  - by destruct (Hnt p).
Qed.

Lemma pool_step_promises s e : (promises s ≤ promises (step s e))%nat.
Proof.
  destruct (pool_step_queue s e) as [[_ ?]|(_ & _ & _ & ->)]; lia.
Qed.

Lemma pool_step_timersArmed ids s e :
  NoDup (waiting s) → timersMatch ids s → timersArmed s → timersArmed (step s e).
Proof.
  intros Hnd Hmatch Harmed. pose proof Harmed as (Hnt & Hlt & Hin).
  pose proof (pool_step_promises s e) as Hmono.
  destruct (pool_step_timers s e)
    as [[(Hsq & Hst & Hni)|(taskId & _ & Hq & Ht)]
       |(taskId & t & Hid & Hq & Hidt & Hpt & Ht & Hnew)].
  - assert ((∃ p, e = Timeout p) ∨ ∀ p, e ≠ Timeout p) as [[p ->]|Hnot].
    { destruct e; try (by right); left; by eexists. }
    + cbn [step]. destruct (decide (p ∈ waiting s)) as [Hp|Hp].
      * apply list_elem_of_fmap in Hp as (t & -> & Ht).
        rewrite (pool_timeout_queued ids s t Hnd Hmatch Harmed Ht).
        unfold timersArmed, settle.
        cbn [timers promises processingQueue with_settlements with_processingQueue
             with_timers].
        split; [|split].
        -- eapply sublist_NoDup; [exact Hnt|apply fmap_sublist, sublist_filter].
        -- eapply sublist_Forall_inv; [apply sublist_filter|done].
        -- intros t' [Hne Ht']%list_elem_of_filter. apply list_elem_of_filter.
           split; [done|]. by apply Hin.
      * rewrite (pool_timeout_gone ids s p Hmatch Hp). unfold timersArmed.
        cbn [timers promises processingQueue with_timers].
        split; [|split].
        -- eapply sublist_NoDup; [exact Hnt|apply fmap_sublist, sublist_filter].
        -- eapply sublist_Forall_inv; [apply sublist_filter|done].
        -- intros t' Ht'. apply list_elem_of_filter. split; [|by apply Hin].
           cbn. intros Heq. apply Hp. rewrite <- Heq.
           apply list_elem_of_fmap. by exists t'.
    + assert (timers (step s e) = timers s) as Hsame.
      { by apply pool_step_timers_same. }
      unfold timersArmed. rewrite Hsame. split; [done|]. split.
      * eapply Forall_impl; [done|]. cbn. lia.
      * intros t Ht. apply Hin. by eapply sublist_elem_of_inv.
  - unfold timersArmed. rewrite Hq, Ht. split; [done|]. split; [|done].
    eapply Forall_impl; [done|]. cbn. lia.
  - unfold timersArmed. rewrite Hq, Ht. split; [|split].
    + rewrite fmap_app. apply NoDup_app. split; [done|].
      split; [|apply NoDup_singleton].
      intros x Hx ->%list_elem_of_singleton.
      apply list_elem_of_fmap in Hx as ([p i] & Heq & Hx). cbn in Heq. subst p.
      rewrite Forall_forall in Hlt. specialize (Hlt _ Hx). cbn in Hlt. lia.
    + apply Forall_app. split; [|constructor; [cbn; lia|constructor]].
      eapply Forall_impl; [done|]. cbn. lia.
    + intros t' [Ht'| ->%list_elem_of_singleton]%elem_of_app; apply elem_of_app.
      * left. by apply Hin.
      * right. rewrite Hidt, Hpt. by apply list_elem_of_singleton.
Qed.

Lemma pool_run_timers trace :
  NoDup (submittedIds trace) →
  pendingOnce (run initial trace)
  ∧ timersMatch (submittedIds trace) (run initial trace)
  ∧ timersArmed (run initial trace).
Proof.
  intros Hnd. split; [apply pool_run_pendingOnce, initial_pendingOnce|].
  split; [by apply pool_run_accounted|].
  induction trace as [|e trace IH] using rev_ind.
  - split; [constructor|]. split; [constructor|]. by intros t ?%not_elem_of_nil.
  - rewrite submittedIds_app in Hnd. apply NoDup_app in Hnd as (Hnd & _).
    unfold run. rewrite foldl_snoc. fold (run initial trace).
    destruct (pool_run_accounted trace Hnd) as [_ Hmatch].
    destruct (pool_run_pendingOnce trace initial initial_pendingOnce) as [Hp _].
    eapply pool_step_timersArmed; [|done|by apply IH].
    unfold pending in Hp. by apply NoDup_app in Hp as (? & _).
Qed.

End TimerFacts.

(** X3. Under unique task ids, the timer that [generateImage] arms for a
    task does this: when it fires while the task is still queued, the
    task leaves the queue and its promise is rejected with the timeout
    error, and nobody else is touched; when the task has left the queue
    by then, the timer changes neither the queue nor any promise. *)
Theorem pool_timeout_rejects_queued (trace : list Pool.Event) (p : nat) :
  NoDup (Ledger.submittedIds trace) →
  let s := Pool.run Pool.initial trace in
  let s' := Pool.timeout p s in
  (if decide (p ∈ Ledger.waiting s)
   then Pool.processingQueue s'
        = filter (λ t, Pool.promise t ≠ p) (Pool.processingQueue s)
        ∧ S (length (Pool.processingQueue s')) = length (Pool.processingQueue s)
        ∧ Pool.settlements s'
          = (Pool.settlements s ++ [(p, Rejected "Таймаут генерации изображения")])%list
   else Pool.processingQueue s' = Pool.processingQueue s
        ∧ Pool.settlements s' = Pool.settlements s)
  ∧ Pool.running s' = Pool.running s
  ∧ Pool.browserPool s' = Pool.browserPool s.
Proof.
  intros Hids s s'.
  destruct (pool_run_timers trace Hids) as ([Hnd _] & Hmatch & Harmed).
  fold s in Hnd, Hmatch, Harmed.
  assert (NoDup (Ledger.waiting s)) as Hq.
  { unfold Ledger.pending in Hnd. by apply NoDup_app in Hnd as (? & _). }
  unfold s'. destruct (decide (p ∈ Ledger.waiting s)) as [Hp|Hp].
  - pose proof Hp as Hp'. apply list_elem_of_fmap in Hp' as (t & -> & Ht).
    rewrite (pool_timeout_queued _ s t Hq Hmatch Harmed Ht). cbn.
    repeat split.
    by apply (dropped_length Pool.promise).
  - by rewrite (pool_timeout_gone _ s p Hmatch Hp).
Qed.

(** The timer of the queued task rejects it; the timer of the task that
    has its page does nothing. *)
Lemma pool_timeout_rejects_queued_witness :
  NoDup (Ledger.submittedIds onePageOpen)
  ∧ Ledger.waiting (Pool.run Pool.initial onePageOpen) = [1%nat]
  ∧ Ledger.underWay (Pool.run Pool.initial onePageOpen) = [0%nat]
  ∧ Pool.settlements (Pool.timeout 1 (Pool.run Pool.initial onePageOpen))
    = [(1%nat, Rejected "Таймаут генерации изображения")]
  ∧ Pool.settlements (Pool.timeout 0 (Pool.run Pool.initial onePageOpen)) = [].
Proof.
  assert (NoDup (Ledger.submittedIds onePageOpen)) as Hids.
  { apply (bool_decide_unpack _). vm_compute. exact I. }
  split; [exact Hids|]. split; [vm_compute; reflexivity|]. split; [vm_compute; reflexivity|].
  pose proof (pool_timeout_rejects_queued onePageOpen 1 Hids) as H1.
  pose proof (pool_timeout_rejects_queued onePageOpen 0 Hids) as H0.
  cbv zeta in H1, H0.
  destruct (decide (1%nat ∈ Ledger.waiting (Pool.run Pool.initial onePageOpen)))
    as [_|Hout]; [|exfalso; apply Hout; vm_compute; repeat constructor].
  destruct (decide (0%nat ∈ Ledger.waiting (Pool.run Pool.initial onePageOpen)))
    as [Hin|_]; [exfalso; vm_compute in Hin; by repeat (inversion Hin as [|??? Hin']; clear Hin; try rename Hin' into Hin)|].
  destruct H1 as [(_ & _ & ->) _]. destruct H0 as [(_ & ->) _].
  split; vm_compute; reflexivity.
Defined.

Section CounterFacts.
Import Pool Ledger Counters.

Lemma pool_step_countersAgree s e :
  map_Forall (λ _ b, processingTasks b = activePages b) (browserPool s) →
  map_Forall (λ _ b, processingTasks b = activePages b) (browserPool (step s e)).
Proof.
  intros Hagree.
  destruct e as [|i o time| | |time pg|k b time|k|p|p err|p resp|b|k ok|time|p|];
    cbn [step].
  - unfold initialize. by case_match.
  - unfold generateImage. destruct (shutdownInProgress _); [done|].
    match goal with |- context [processQueue ?s0] =>
      by destruct (pool_processQueue_frame s0) as (_ & _ & _ & -> & _) end.
  - by destruct (pool_processQueue_frame s) as (_ & _ & _ & -> & _).
  - unfold runImmediate. destruct (immediates s) as [|[|b] rest]; [done|..].
    + match goal with |- context [processQueue ?s0] =>
        by destruct (pool_processQueue_frame s0) as (_ & _ & _ & -> & _) end.
    + match goal with |- context [destroyBrowser b ?s0] =>
        by destruct (pool_destroyBrowser_frame b s0) as (_ & _ & _ & -> & _) end.
  - unfold resume. destruct (awaiting s) as [|b rest]; [done|].
    cbn [processingQueue with_awaiting].
    destruct (processingQueue s) as [|t queue]; [done|].
    cbn [browserPool with_processingQueue updateMetrics with_metrics with_awaiting].
    destruct (browserPool s !! b) as [inst|] eqn:Hb.
    + cbn. apply map_Forall_insert_2; [|done].
      specialize (Hagree _ _ Hb). cbn in *. lia.
    + match goal with |- context [finish t ?res ?s0] =>
        by destruct (pool_finish_frame t res s0) as (_ & _ & -> & _) end.
  - unfold launched. destruct (launching s !! k) as [o|]; [|done].
    unfold afterLaunch. repeat case_match; cbn; by apply map_Forall_insert_2.
  - unfold launchFailed. destruct (launching s !! k) as [o|]; [|done].
    unfold afterLaunch. by repeat case_match.
  - unfold pageOpened. repeat case_match; try done. cbn.
    intros b inst [(<- & inst0 & Hb & ->)|[_ Hb]]%lookup_alter_Some;
      [cbn|]; by apply (Hagree _ _ Hb).
  - unfold pageFailed. repeat case_match; try done. unfold exitTask.
    match goal with |- context [finish ?t ?res ?s0] =>
      destruct (pool_finish_frame t res s0) as (_ & _ & -> & _) end.
    rewrite leaveTask_browserPool. case_match eqn:Hb; [|done].
    apply map_Forall_insert_2; [|done]. specialize (Hagree _ _ Hb). cbn in *. lia.
  - unfold taskSettled. repeat case_match; try done. unfold exitTask.
    match goal with |- context [finish ?t ?res ?s0] =>
      destruct (pool_finish_frame t res s0) as (_ & _ & -> & _) end.
    rewrite leaveTask_browserPool. case_match eqn:Hb; [|done].
    apply map_Forall_insert_2; [|done]. specialize (Hagree _ _ Hb). cbn in *. lia.
  - by destruct (pool_destroyBrowser_frame b s) as (_ & _ & _ & -> & _).
  - unfold destroyDone. destruct (destroying s !! k) as [b|]; [|done].
    destruct ok; [|done]. case_bool_decide; cbn; by apply map_Forall_delete.
  - unfold cleanup. cbn. intros b inst. rewrite lookup_fmap.
    destruct (browserPool s !! b) as [inst0|] eqn:Hb; [|done].
    intros [= <-]. specialize (Hagree _ _ Hb). cbn in Hagree.
    unfold sweepInstance. by repeat case_match.
  - unfold timeout. by repeat case_match.
  - by unfold shutdown.
Qed.

Lemma pool_run_countersAgree trace : ∀ s,
  map_Forall (λ _ b, processingTasks b = activePages b) (browserPool s) →
  map_Forall (λ _ b, processingTasks b = activePages b) (browserPool (run s trace)).
Proof.
  induction trace as [|e trace IH]; intros s Hs; [done|].
  cbn [run foldl]. apply IH. by apply pool_step_countersAgree.
Qed.

End CounterFacts.

(** X4. The two counters of a browser instance are always equal:
    [executeTask] counts [activePages] and [processingTasks] up together
    and down together.  The restart test of [executeTask], which reads
    [processingTasks], therefore looks at the number of open pages. *)
Theorem pool_counters_agree (trace : list Pool.Event) :
  let s := Pool.run Pool.initial trace in
  map_Forall (λ _ b, Pool.processingTasks b = Pool.activePages b) (Pool.browserPool s)
  ∧ map_Forall (λ _ b, Pool.restartDue b
                       = bool_decide (Pool.BROWSER_RESTART_THRESHOLD ≤ Pool.activePages b)%Z)
               (Pool.browserPool s).
Proof.
  intros s.
  assert (map_Forall (λ _ b, Pool.processingTasks b = Pool.activePages b)
                     (Pool.browserPool s)) as Hagree.
  { apply pool_run_countersAgree. apply map_Forall_empty. }
  split; [done|]. intros b inst Hb. unfold Pool.restartDue.
  by rewrite (Hagree _ _ Hb).
Qed.

Section PageCountFacts.
Import Pool Ledger Counters.

Lemma dropped_elem {A} (f : A → nat) (l : list A) x :
  NoDup (f <$> l) → x ∈ l →
  (filter (λ y, f y ≠ f x) l ++ [x])%list ≡ₚ l.
Proof.
  induction l as [|a l IH]; [by intros _ ?%not_elem_of_nil|].
  rewrite fmap_cons. intros [Ha Hnd]%NoDup_cons [->|Hx]%elem_of_cons.
  - rewrite filter_cons_False by (intros H; by apply H).
    rewrite filter_id; [symmetry; apply Permutation_cons_append|].
    apply Forall_forall. intros y Hy Heq. apply Ha. rewrite <- Heq.
    apply list_elem_of_fmap. by exists y.
  - assert (f a ≠ f x) as Hne.
    { intros Heq. apply Ha. rewrite Heq. apply list_elem_of_fmap. by exists x. }
    rewrite filter_cons_True by done. cbn [app]. constructor. by apply IH.
Qed.

Lemma occurrences_Permutation b l k : l ≡ₚ k → occurrences b l = occurrences b k.
Proof. intros Hperm. unfold occurrences. by rewrite Hperm. Qed.

Lemma inProgress_dropped s r b :
  NoDup (underWay s) → r ∈ running s →
  occurrences b (browserId <$>
                 filter (λ r', promise (task r') ≠ promise (task r)) (running s))
  = (inProgress b s - (if decide (browserId r = b) then 1 else 0))%Z.
Proof.
  intros Hnd Hin. unfold inProgress.
  pose proof (dropped_elem (λ r, promise (task r)) (running s) r Hnd Hin) as Hperm.
  rewrite <- (occurrences_Permutation b _ _ (fmap_Permutation browserId _ _ Hperm)).
  rewrite fmap_app, occurrences_app. cbn [fmap list_fmap].
  rewrite occurrences_cons, occurrences_nil. lia.
Qed.

Lemma pagesCounted_frame ids ids' s s' :
  running s' = running s → browserPool s' = browserPool s →
  (∀ i, i ∈ ids → i ∈ ids') →
  pagesCounted ids s → pagesCounted ids' s'.
Proof.
  unfold pagesCounted, inProgress. intros -> -> Hsub [Hrun Hcount].
  split; [|done]. intros r Hr. by apply Hsub, Hrun.
Qed.

Lemma exitTask_pagesCounted ids r closed result s :
  NoDup (underWay s) → r ∈ running s →
  pagesCounted ids s → pagesCounted ids (exitTask r closed result s).
Proof.
  intros Hnd Hin [Hrun Hcount]. unfold pagesCounted, inProgress.
  destruct (pool_exitTask_rest r closed result s) as (-> & _).
  unfold exitTask.
  destruct (pool_finish_frame (task r) result (leaveTask r closed s))
    as (_ & _ & -> & _).
  rewrite leaveTask_browserPool. split.
  - intros r' [_ Hr']%list_elem_of_filter. by apply Hrun.
  - intros b inst. rewrite (inProgress_dropped s r b Hnd Hin).
    destruct (browserPool s !! browserId r) as [inst0|] eqn:Hb.
    + destruct (decide (browserId r = b)) as [<-|Hne].
      * rewrite lookup_insert_eq. intros [= <-]. cbn. rewrite (Hcount _ _ Hb). lia.
      * rewrite lookup_insert_ne by done. intros Hb'. rewrite (Hcount _ _ Hb'). lia.
    + intros Hb'. destruct (decide (browserId r = b)) as [<-|Hne]; [congruence|].
      rewrite (Hcount _ _ Hb'). lia.
Qed.

Lemma pool_step_pagesCounted ids s e :
  NoDup (underWay s) → inSync s →
  (∀ i, i ∈ availableBrowsers s → i ∈ ids) →
  (∀ k b time, e = Launched k b time → b ∉ ids) →
  pagesCounted ids s → pagesCounted (ids ++ launchedIds [e]) (step s e).
Proof.
  intros Hnd [_ Hsync] Hseen Hfresh Hpc.
  assert (∀ s', running s' = running s → browserPool s' = browserPool s →
                pagesCounted (ids ++ launchedIds [e]) s') as Hframe.
  { intros s' Hr Hp. eapply pagesCounted_frame; [done..| |done].
    intros i Hi. apply elem_of_app. by left. }
  assert (∀ s', pagesCounted ids s' → pagesCounted (ids ++ launchedIds [e]) s')
    as Hweaken.
  { intros s'. apply pagesCounted_frame; [done..|]. intros i Hi. apply elem_of_app.
    by left. }
  pose proof Hpc as [Hrun Hcount].
  destruct e as [|i o time| | |time pg|k b time|k|p|p err|p resp|b|k ok|time|p|];
    cbn [step].
  - apply Hframe; unfold initialize; by case_match.
  - apply Hframe; unfold generateImage; destruct (shutdownInProgress _); try done.
    + match goal with |- context [processQueue ?s0] =>
        by destruct (pool_processQueue_rest s0) as (-> & _) end.
    + match goal with |- context [processQueue ?s0] =>
        by destruct (pool_processQueue_frame s0) as (_ & _ & _ & -> & _) end.
  - apply Hframe.
    + by destruct (pool_processQueue_rest s) as (-> & _).
    + by destruct (pool_processQueue_frame s) as (_ & _ & _ & -> & _).
  - unfold runImmediate. destruct (immediates s) as [|[|b] rest]; [by apply Hframe|..].
    + apply Hframe.
      * match goal with |- context [processQueue ?s0] =>
          by destruct (pool_processQueue_rest s0) as (-> & _) end.
      * match goal with |- context [processQueue ?s0] =>
          by destruct (pool_processQueue_frame s0) as (_ & _ & _ & -> & _) end.
    + apply Hframe.
      * match goal with |- context [destroyBrowser b ?s0] =>
          by destruct (pool_destroyBrowser_rest b s0) as (-> & _) end.
      * match goal with |- context [destroyBrowser b ?s0] =>
          by destruct (pool_destroyBrowser_frame b s0) as (_ & _ & _ & -> & _) end.
  - apply Hweaken. unfold resume. destruct (awaiting s) as [|b rest]; [done|].
    cbn [processingQueue with_awaiting].
    destruct (processingQueue s) as [|t queue]; [done|].
    cbn [browserPool with_processingQueue updateMetrics with_metrics with_awaiting].
    destruct (browserPool s !! b) as [inst0|] eqn:Hb.
    + unfold pagesCounted, inProgress. cbn. split.
      * intros r [Hr| ->%list_elem_of_singleton]%elem_of_app; [by apply Hrun|].
        cbn. apply Hseen, Hsync. by exists inst0.
      * intros b' inst. rewrite fmap_app, occurrences_app. cbn [fmap list_fmap].
        rewrite occurrences_cons, occurrences_nil. cbn [browserId].
        destruct (decide (b = b')) as [<-|Hne].
        -- rewrite lookup_insert_eq. intros [= <-]. cbn.
           specialize (Hcount _ _ Hb). unfold inProgress in Hcount. lia.
        -- rewrite lookup_insert_ne by done. intros Hb'.
           specialize (Hcount _ _ Hb'). unfold inProgress in Hcount. lia.
    + eapply (pagesCounted_frame ids ids s); [| |done|exact Hpc].
      * match goal with |- context [finish t ?res ?s0] =>
          by destruct (pool_finish_rest t res s0) as (-> & _) end.
      * match goal with |- context [finish t ?res ?s0] =>
          by destruct (pool_finish_frame t res s0) as (_ & _ & -> & _) end.
  - unfold launched. destruct (launching s !! k) as [o|]; [|by apply Hframe].
    specialize (Hfresh k b time eq_refl).
    assert (pagesCounted (ids ++ launchedIds [Launched k b time])
              (with_browserPool (<[b := freshInstance time]> (browserPool s)) s))
      as Hnew.
    { unfold pagesCounted, inProgress. cbn. split.
      - intros r Hr. apply elem_of_app. left. by apply Hrun.
      - intros b' inst. destruct (decide (b = b')) as [<-|Hne].
        + rewrite lookup_insert_eq. intros [= <-]. cbn.
          rewrite occurrences_absent; [done|].
          intros (r & -> & Hr)%list_elem_of_fmap. by apply Hfresh, Hrun.
        + rewrite lookup_insert_ne by done. apply Hcount. }
    refine (pagesCounted_frame _ _ _ _ _ _ (λ i H, H) Hnew);
      unfold afterLaunch; by repeat case_match.
  - apply Hframe; unfold launchFailed; destruct (launching s !! k) as [o|];
      try done; unfold afterLaunch; by repeat case_match.
  - apply Hweaken. unfold pageOpened.
    destruct (findRunning p s) as [r|] eqn:Hfind; [|done].
    destruct (page r); [done|].
    apply find_elem_of in Hfind as [Hin Hp%bool_decide_eq_true].
    unfold pagesCounted, inProgress, dropRunning. cbn. split.
    + intros r' [[_ Hr']%list_elem_of_filter| ->%list_elem_of_singleton]%elem_of_app;
        [by apply Hrun|]. cbn. by apply Hrun.
    + intros b inst. rewrite fmap_app, occurrences_app. cbn [fmap list_fmap].
      rewrite occurrences_cons, occurrences_nil. cbn [browserId].
      rewrite <- Hp, (inProgress_dropped s r b Hnd Hin).
      intros [(<- & inst0 & Hb & ->)|[_ Hb]]%lookup_alter_Some;
        [cbn [activePages setPage]|]; rewrite (Hcount _ _ Hb); lia.
  - apply Hweaken. unfold pageFailed.
    destruct (findRunning p s) as [r|] eqn:Hfind; [|done].
    destruct (page r); [done|].
    apply find_elem_of in Hfind as [Hin _]. by apply exitTask_pagesCounted.
  - apply Hweaken. unfold taskSettled.
    destruct (findRunning p s) as [r|] eqn:Hfind; [|done].
    destruct (page r); [|done].
    apply find_elem_of in Hfind as [Hin _]. by apply exitTask_pagesCounted.
  - apply Hframe.
    + by destruct (pool_destroyBrowser_rest b s) as (-> & _).
    + by destruct (pool_destroyBrowser_frame b s) as (_ & _ & _ & -> & _).
  - apply Hweaken. unfold destroyDone. destruct (destroying s !! k) as [b|]; [|done].
    destruct ok; [|done]. unfold pagesCounted, inProgress.
    case_bool_decide; cbn; (split; [done|]);
      intros b' inst [_ Hb']%lookup_delete_Some; by apply Hcount.
  - apply Hweaken. unfold pagesCounted, inProgress, cleanup. cbn. split; [done|].
    intros b inst. rewrite lookup_fmap.
    destruct (browserPool s !! b) as [inst0|] eqn:Hb; [|done].
    intros [= <-]. fold (inProgress b s). rewrite <- (Hcount _ _ Hb).
    unfold sweepInstance. by repeat case_match.
  - apply Hframe; unfold timeout; by repeat case_match.
  - by apply Hframe.
Qed.

Lemma pool_run_pagesCounted trace :
  NoDup (launchedIds trace) →
  pagesCounted (launchedIds trace) (run initial trace).
Proof.
  induction trace as [|e trace IH] using rev_ind; intros Hnd.
  - split; [by intros r ?%not_elem_of_nil|]. intros b inst. cbn.
    by rewrite lookup_empty.
  - rewrite launchedIds_app in Hnd |- *.
    apply NoDup_app in Hnd as (Hnd1 & Hdisj & _).
    unfold run. rewrite foldl_snoc. fold (run initial trace).
    destruct (pool_run_inSync trace Hnd1) as [Hsync Hseen].
    destruct (pool_run_pendingOnce trace initial initial_pendingOnce) as [Hp _].
    apply pool_step_pagesCounted; [|done|done| |by apply IH].
    + unfold pending in Hp. by apply NoDup_app in Hp as (_ & _ & ?).
    + intros k b time -> Hin. apply (Hdisj b Hin). cbn.
      by apply list_elem_of_singleton.
Qed.

End PageCountFacts.

(** X5. When [createBrowser] never draws the same id twice, [activePages]
    of every browser of the pool is exactly the number of [executeTask]
    calls in progress on that browser; it is never negative. *)
Theorem pool_page_count_is_exact (trace : list Pool.Event) b inst :
  NoDup (Pool.launchedIds trace) →
  let s := Pool.run Pool.initial trace in
  Pool.browserPool s !! b = Some inst →
  Pool.activePages inst
  = Z.of_nat (length (filter (λ r, Pool.browserId r = b) (Pool.running s)))
  ∧ (0 ≤ Pool.activePages inst)%Z.
Proof.
  intros Hnd s Hb.
  destruct (pool_run_pagesCounted trace Hnd) as [_ Hcount].
  specialize (Hcount _ _ Hb). fold s in Hcount.
  unfold Counters.inProgress, Pool.occurrences in Hcount.
  assert (length (filter (λ x, x = b) (Pool.browserId <$> Pool.running s))
          = length (filter (λ r, Pool.browserId r = b) (Pool.running s))) as Hlen.
  { clear. induction (Pool.running s) as [|r l IH]; [done|].
    rewrite fmap_cons, !filter_cons.
    destruct (decide (Pool.browserId r = b)); cbn [length]; by rewrite IH. }
  rewrite Hlen in Hcount. split; [done|lia].
Qed.

(** The ten tasks of [busyPool] all run on the first browser. *)
Lemma pool_page_count_is_exact_witness :
  NoDup (Pool.launchedIds busyPool)
  ∧ ∃ inst, Pool.browserPool (Pool.run Pool.initial busyPool) !! "browser_1" = Some inst
      ∧ Pool.activePages inst = 10%Z
      ∧ Pool.activePages inst
        = Z.of_nat (length (filter (λ r, Pool.browserId r = "browser_1")
                                   (Pool.running (Pool.run Pool.initial busyPool)))).
Proof.
  assert (NoDup (Pool.launchedIds busyPool)) as Hids.
  { apply (bool_decide_unpack _). vm_compute. exact I. }
  split; [exact Hids|].
  destruct (Pool.browserPool (Pool.run Pool.initial busyPool) !! "browser_1")
    as [inst|] eqn:Hb; [|by vm_compute in Hb].
  exists inst. split; [done|].
  split; [vm_compute in Hb; by injection Hb as <-|].
  apply (pool_page_count_is_exact busyPool "browser_1" inst Hids Hb).
Defined.

Section ShutdownFacts.
Import Pool Ledger.

Lemma pool_step_after_shutdown s e :
  shutdownInProgress s = true → processingQueue s = [] →
  shutdownInProgress (step s e) = true
  ∧ processingQueue (step s e) = []
  ∧ ∀ p, p ∈ underWay (step s e) → p ∈ underWay s.
Proof.
  intros Hshut Hq.
  assert (∀ s', shutdownInProgress s' = shutdownInProgress s →
                processingQueue s' = processingQueue s → running s' = running s →
    shutdownInProgress s' = true ∧ processingQueue s' = []
    ∧ ∀ p, p ∈ underWay s' → p ∈ underWay s) as Hframe.
  { unfold underWay. by intros s' -> -> ->. }
  assert (∀ r closed result, r ∈ running s →
    shutdownInProgress (exitTask r closed result s) = true
    ∧ processingQueue (exitTask r closed result s) = []
    ∧ ∀ p, p ∈ underWay (exitTask r closed result s) → p ∈ underWay s) as Hexit.
  { intros r closed result Hr. unfold underWay.
    destruct (pool_exitTask_rest r closed result s) as (-> & _ & ->).
    destruct (pool_exitTask_frame r closed result s) as (-> & _).
    repeat split; [done..|].
    intros p (r' & -> & [_ Hr']%list_elem_of_filter)%list_elem_of_fmap.
    apply list_elem_of_fmap. by exists r'. }
  destruct e as [|i o time| | |time pg|k b time|k|p|p err|p resp|b|k ok|time|p|];
    cbn [step].
  - apply Hframe; unfold initialize; by case_match.
  - unfold generateImage. cbn [shutdownInProgress with_promises]. rewrite Hshut.
    by apply Hframe.
  - destruct (pool_processQueue_frame s) as (? & _).
    destruct (pool_processQueue_rest s) as (? & _ & _ & ? & _). by apply Hframe.
  - unfold runImmediate. destruct (immediates s) as [|[|b] rest]; [by apply Hframe|..].
    + match goal with |- context [processQueue ?s0] =>
        destruct (pool_processQueue_frame s0) as (? & _);
        destruct (pool_processQueue_rest s0) as (? & _ & _ & ? & _) end.
      by apply Hframe.
    + match goal with |- context [destroyBrowser b ?s0] =>
        destruct (pool_destroyBrowser_frame b s0) as (? & _);
        destruct (pool_destroyBrowser_rest b s0) as (? & _ & _ & ? & _) end.
      by apply Hframe.
  - unfold resume. destruct (awaiting s) as [|b rest]; [by apply Hframe|].
    cbn [processingQueue with_awaiting]. rewrite Hq. by apply Hframe.
  - apply Hframe; unfold launched; destruct (launching s !! k) as [o|]; try done;
      unfold afterLaunch; by repeat case_match.
  - apply Hframe; unfold launchFailed; destruct (launching s !! k) as [o|]; try done;
      unfold afterLaunch; by repeat case_match.
  - unfold pageOpened. destruct (findRunning p s) as [r|] eqn:Hfind; [|by apply Hframe].
    destruct (page r); [by apply Hframe|].
    apply find_elem_of in Hfind as [Hin _]. unfold underWay, dropRunning. cbn.
    repeat split; [done..|].
    intros p' (r' & -> & [[_ Hr']%list_elem_of_filter| ->%list_elem_of_singleton]%elem_of_app)%list_elem_of_fmap;
      apply list_elem_of_fmap; [by exists r'|by exists r].
  - unfold pageFailed. destruct (findRunning p s) as [r|] eqn:Hfind; [|by apply Hframe].
    destruct (page r); [by apply Hframe|].
    apply find_elem_of in Hfind as [Hin _]. by apply Hexit.
  - unfold taskSettled. destruct (findRunning p s) as [r|] eqn:Hfind; [|by apply Hframe].
    destruct (page r); [|by apply Hframe].
    apply find_elem_of in Hfind as [Hin _]. by apply Hexit.
  - destruct (pool_destroyBrowser_frame b s) as (? & _).
    destruct (pool_destroyBrowser_rest b s) as (? & _ & _ & ? & _). by apply Hframe.
  - apply Hframe; unfold destroyDone; by repeat case_match.
  - unfold cleanup, underWay. cbn. by rewrite Hq.
  - unfold timeout. destruct (List.find _ _) as [[? taskId]|]; [|by apply Hframe].
    cbn [processingQueue with_timers]. rewrite Hq. cbn.
    rewrite bool_decide_eq_false_2 by (intros H; by apply H). by apply Hframe.
  - unfold shutdown, underWay. by cbn.
Qed.

Lemma pool_run_after_shutdown trace : ∀ s,
  shutdownInProgress s = true → processingQueue s = [] →
  shutdownInProgress (run s trace) = true
  ∧ processingQueue (run s trace) = []
  ∧ ∀ p, p ∈ underWay (run s trace) → p ∈ underWay s.
Proof.
  induction trace as [|e trace IH]; intros s Hshut Hq; [done|].
  cbn [run foldl].
  destruct (pool_step_after_shutdown s e Hshut Hq) as (Hshut' & Hq' & Hrun').
  destruct (IH _ Hshut' Hq') as (? & ? & Hrun). repeat split; [done..|].
  intros p Hp. by apply Hrun', Hrun.
Qed.

End ShutdownFacts.

(** X7. [shutdown()] is final.  It rejects every queued task with its own
    error and empties the queue; whatever happens afterwards, the service
    stays in shutdown, the queue stays empty, no task is started that was
    not under way already, and every later call of [generateImage] is
    rejected at once without queueing a task or arming a timer. *)
Theorem pool_shutdown_is_final (s : Pool.State) (trace : list Pool.Event)
    taskId o time :
  let s1 := Pool.shutdown s in
  let s2 := Pool.run s1 trace in
  let s3 := Pool.generateImage taskId o time s2 in
  Pool.settlements s1
  = (Pool.settlements s ++
     ((λ t, (Pool.promise t, Rejected "Сервис завершает работу"))
        <$> Pool.processingQueue s))%list
  ∧ Pool.shutdownInProgress s2 = true
  ∧ Pool.processingQueue s2 = []
  ∧ (∀ p, p ∈ Ledger.underWay s2 → p ∈ Ledger.underWay s)
  ∧ Pool.settlements s3
    = (Pool.settlements s2 ++
       [(Pool.promises s2, Rejected "Сервис находится в процессе завершения работы")])%list
  ∧ Pool.processingQueue s3 = []
  ∧ Pool.timers s3 = Pool.timers s2.
Proof.
  intros s1 s2 s3.
  destruct (pool_run_after_shutdown trace s1) as (Hshut & Hq & Hrun); [done..|].
  fold s2 in Hshut, Hq, Hrun. split; [done|]. split; [done|]. split; [done|].
  split; [exact Hrun|]. unfold s3, Pool.generateImage.
  cbn [Pool.shutdownInProgress Pool.with_promises]. rewrite Hshut. by cbn.
Qed.

Section SubmissionFacts.
Import Pool.

Lemma pool_generateImage_accepts taskId o time s :
  shutdownInProgress s = false →
  processingQueue (generateImage taskId o time s)
  = (processingQueue s ++
     [{| id := taskId; options := o; promise := promises s;
         task_createdAt := time |}])%list
  ∧ settlements (generateImage taskId o time s) = settlements s
  ∧ timers (generateImage taskId o time s) = (timers s ++ [(promises s, taskId)])%list
  ∧ promises (generateImage taskId o time s) = S (promises s)
  ∧ shutdownInProgress (generateImage taskId o time s) = false.
Proof.
  intros Hshut. unfold generateImage.
  cbn [shutdownInProgress with_promises]. rewrite Hshut.
  match goal with |- context [processQueue ?s0] =>
    destruct (pool_processQueue_frame s0) as (-> & -> & -> & _);
    destruct (pool_processQueue_rest s0) as (_ & -> & _ & -> & _) end.
  by cbn.
Qed.

End SubmissionFacts.

(** X8. The pool has no ceiling on its queue.  While the service is not
    shutting down every call of [generateImage] is accepted: any number
    of calls in a row are all queued, in the order of the calls, each with
    a timer of its own, and none of them is rejected. *)
Theorem pool_accepts_every_submission
    (subs : list (string * Pool.PageTaskOptions * Z)) : ∀ s,
  Pool.shutdownInProgress s = false →
  let s' := Pool.run s (submission <$> subs) in
  Pool.id <$> Pool.processingQueue s'
  = ((Pool.id <$> Pool.processingQueue s) ++ ((λ x, x.1.1) <$> subs))%list
  ∧ snd <$> Pool.timers s' = ((snd <$> Pool.timers s) ++ ((λ x, x.1.1) <$> subs))%list
  ∧ Pool.settlements s' = Pool.settlements s
  ∧ Pool.promises s' = (Pool.promises s + length subs)%nat.
Proof.
  induction subs as [|[[taskId o] time] subs IH]; intros s Hshut; cbn zeta.
  - cbn. rewrite !app_nil_r. repeat split; lia.
  - cbn [fmap list_fmap Pool.run foldl submission fst snd Pool.step].
    destruct (pool_generateImage_accepts taskId o time s Hshut)
      as (Hq & Hs & Ht & Hp & Hshut').
    destruct (IH _ Hshut') as (IHq & IHt & IHs & IHp).
    unfold Pool.run in IHq, IHt, IHs, IHp.
    rewrite IHq, IHt, IHs, IHp, Hq, Hs, Ht, Hp.
    rewrite !fmap_app, <- !(assoc_L (++)). cbn. repeat split; lia.
Qed.

(** Five hundred calls before [initialize()]. *)
Lemma pool_accepts_every_submission_witness :
  Pool.shutdownInProgress Pool.initial = false
  ∧ Pool.id <$> Pool.processingQueue
      (Pool.run Pool.initial (submission <$> replicate 500 ("task", tierList, 0%Z)))
    = replicate 500 "task"
  ∧ Pool.settlements
      (Pool.run Pool.initial (submission <$> replicate 500 ("task", tierList, 0%Z))) = [].
Proof.
  split; [reflexivity|].
  destruct (pool_accepts_every_submission (replicate 500 ("task", tierList, 0%Z))
              Pool.initial eq_refl) as (Hq & _ & Hs & _).
  split; [rewrite Hq; vm_compute; reflexivity|exact Hs].
Defined.

(** X9. The sweep of [startCleanupTask].  After it no queued task is older
    than [QUEUE_TIMEOUT]: the tasks that were are removed, each is
    rejected once with the queue timeout error, and the others stay in
    their order.  Every browser older than [BROWSER_TIMEOUT] is handed to
    [destroyBrowser]; every other browser without an active page has an
    empty page map afterwards. *)
Theorem cleanup_sweeps (time : Z) (s : Pool.State) :
  let s' := Pool.cleanup time s in
  Forall (λ t, (time - Pool.task_createdAt t ≤ Pool.QUEUE_TIMEOUT)%Z)
         (Pool.processingQueue s')
  ∧ Pool.processingQueue s' = filter (λ t, ¬ Pool.stale time t) (Pool.processingQueue s)
  ∧ Pool.settlements s'
    = (Pool.settlements s ++
       ((λ t, (Pool.promise t, Rejected "Таймаут очереди"))
          <$> filter (Pool.stale time) (Pool.processingQueue s)))%list
  ∧ map_Forall (λ b inst, Pool.tooOld time inst → b ∈ Pool.destroying s')
               (Pool.browserPool s)
  ∧ map_Forall (λ _ inst, ¬ Pool.tooOld time inst → Pool.activePages inst = 0%Z →
                          Pool.pages inst = ∅)
               (Pool.browserPool s')
  ∧ Pool.running s' = Pool.running s.
Proof.
  cbn zeta. unfold Pool.cleanup, Pool.rejectAll. cbn. repeat split.
  - apply Forall_forall. intros t [Hfresh _]%list_elem_of_filter.
    unfold Pool.stale in Hfresh. lia.
  - intros b inst Hb Hold. apply elem_of_app. right.
    apply list_elem_of_fmap. exists (b, inst). split; [done|].
    apply elem_of_map_to_list. by apply map_lookup_filter_Some.
  - intros b inst'. rewrite lookup_fmap.
    destruct (Pool.browserPool s !! b) as [inst|]; [|done]. intros [= <-].
    unfold Pool.sweepInstance. destruct (decide (Pool.tooOld time inst)); [done|].
    case_bool_decide; cbn; [done|]. intros _ Hzero. done.
Qed.

(** X10. A page that a task left behind is swept.  Whatever the task did,
    also when [page.close()] threw, the sweep that finds the browser idle
    and not yet too old leaves it with an empty page map and with the
    counters it had before the task. *)
Theorem leaked_page_is_swept time now pageId o newPage r (b : Pool.BrowserInstance) :
  Pool.activePages b = 0%Z → ¬ Pool.tooOld now b →
  let b' := Pool.sweepInstance now (Pool.executeTask time pageId o newPage r b).1.1 in
  Pool.pages b' = ∅
  ∧ Pool.activePages b' = Pool.activePages b
  ∧ Pool.processingTasks b' = Pool.processingTasks b
  ∧ Pool.createdAt b' = Pool.createdAt b.
Proof.
  intros Hidle Hyoung. unfold Pool.executeTask, Pool.sweepInstance.
  destruct newPage as [e|]; cbn;
    (rewrite decide_False by done);
    (rewrite bool_decide_eq_true_2 by lia); cbn; repeat split; lia.
Qed.

(** A task whose page could not be closed, on a fresh browser, and the
    sweep half a minute later. *)
Lemma leaked_page_is_swept_witness :
  Pool.activePages (Pool.freshInstance 0) = 0%Z
  ∧ ¬ Pool.tooOld 30000 (Pool.freshInstance 0)
  ∧ Pool.pages (Pool.executeTask 1000 "page_0" tierList None stuckPage
                  (Pool.freshInstance 0)).1.1 = {["page_0"]}
  ∧ Pool.pages
      (Pool.sweepInstance 30000
         (Pool.executeTask 1000 "page_0" tierList None stuckPage
            (Pool.freshInstance 0)).1.1) = ∅.
Proof.
  assert (¬ Pool.tooOld 30000 (Pool.freshInstance 0)) as Hyoung.
  { unfold Pool.tooOld, Pool.BROWSER_TIMEOUT. cbn. lia. }
  split; [reflexivity|]. split; [exact Hyoung|]. split; [vm_compute; reflexivity|].
  apply (leaked_page_is_swept 1000 30000 "page_0" tierList None stuckPage
           (Pool.freshInstance 0) eq_refl Hyoung).
Defined.

(** X11. [initialize()] ends after three launches, whether they succeed or
    fail: the service is then initialised, no launch is pending, and the
    pool holds the browsers that were launched, in the order of their
    launches.  Before the third launch has ended the service is not
    marked initialised. *)
Theorem pool_initialize_completes (o1 o2 o3 : option (string * Z)) :
  let s := Pool.run Pool.initial (Pool.Initialize :: (launchEnds <$> [o1; o2; o3])) in
  let s2 := Pool.run Pool.initial (Pool.Initialize :: (launchEnds <$> [o1; o2])) in
  Pool.isInitialized s = true
  ∧ Pool.launching s = []
  ∧ Pool.availableBrowsers s = fst <$> omap id [o1; o2; o3]
  ∧ Pool.browsersCreated (Pool.metrics s) = length (omap id [o1; o2; o3])
  ∧ Pool.isInitialized s2 = false
  ∧ Pool.launching s2 = [Pool.FromInitialize 2].
Proof.
  destruct o1 as [[b1 t1]|], o2 as [[b2 t2]|], o3 as [[b3 t3]|]; by repeat split.
Qed.

Section ProcessorFacts.
Import Relay Processor.

Lemma validateImageBuffer_spec buffer :
  validateImageBuffer buffer = true
  ↔ (1024 ≤ length buffer)%nat
    ∧ (Z.of_nat (length buffer) ≤ 20 * 1024 * 1024)%Z
    ∧ take 3 buffer = jpegSignature.
Proof.
  unfold validateImageBuffer. rewrite <- isValidJPEG_signature.
  repeat case_bool_decide; (split; [intros ?|intros (? & ? & ?)]);
    try done; try lia.
  repeat split; [lia|lia|done].
Qed.

Lemma handleImageTask_up bot now task r :
  up (handleImageTask bot now task r).1 = up r
  ∧ image_send_queue (handleImageTask bot now task r).1 = image_send_queue r.
Proof.
  unfold handleImageTask. repeat case_match; simplify_eq; cbn; done.
Qed.




End ProcessorFacts.



(** X13. The bot of the owning process is only ever handed a buffer that
    passed every check of [handleImageTask]: the bot is available, the
    buffer is the decoding of the task's base64 text, encoding it again
    gives that text, it has between 1 KB and 20 MB and starts with the
    JPEG signature. *)
Theorem handleImageTask_delivers_only_valid bot now task r buffer :
  (Relay.handleImageTask bot now task r).2 = Some buffer →
  Relay.botAvailable bot = true
  ∧ buffer = Base64.decode (Relay.imageBuffer task)
  ∧ Base64.encode buffer = Relay.imageBuffer task
  ∧ Base64.base64Regex (Relay.imageBuffer task) = true
  ∧ (1024 ≤ length buffer)%nat
  ∧ (Z.of_nat (length buffer) ≤ 20 * 1024 * 1024)%Z
  ∧ take 3 buffer = jpegSignature.
Proof.
  unfold Relay.handleImageTask.
  destruct (Relay.botAvailable bot) eqn:Hbot; cbn [negb];
    [|by destruct (Relay.up r)].
  case_bool_decide as Hempty; [by destruct (Relay.up r)|].
  destruct (Base64.base64Regex _) eqn:Hregex; cbn [negb]; [|by destruct (Relay.up r)].
  case_bool_decide as Hlen; [by destruct (Relay.up r)|].
  case_bool_decide as Hback; [by destruct (Relay.up r)|].
  destruct (Relay.validateImageBuffer _) eqn:Hvalid; cbn [negb];
    [|by destruct (Relay.up r)].
  apply validateImageBuffer_spec in Hvalid as (? & ? & ?).
  destruct bot as [b|]; [|done].
  destruct (Relay.bot_sendImage _ _ _ _), (Relay.up r); cbn; intros [= <-];
    by repeat split.
Qed.

(** The task a sender built for a valid image, handled by an available
    bot. *)
Lemma handleImageTask_delivers_only_valid_witness :
  let out := Relay.handleImageTask (Some goodBot) 1700000000300
               (Relay.imageTask servedEnv 42 jpeg1k "tier list") emptyRedis in
  out.2 = Some jpeg1k
  ∧ Relay.botAvailable (Some goodBot) = true
  ∧ jpeg1k = Base64.decode (Relay.imageBuffer (Relay.imageTask servedEnv 42 jpeg1k "tier list"))
  ∧ (1024 ≤ length jpeg1k)%nat.
Proof.
  cbv zeta.
  assert ((Relay.handleImageTask (Some goodBot) 1700000000300
             (Relay.imageTask servedEnv 42 jpeg1k "tier list") emptyRedis).2
          = Some jpeg1k) as Hout by (vm_compute; reflexivity).
  split; [exact Hout|].
  destruct (handleImageTask_delivers_only_valid _ _ _ _ _ Hout)
    as (Hbot & Hdec & _ & _ & Hlen & _).
  by repeat split.
Defined.

(** X14. [handleImageTask] always answers.  Whatever the task holds and
    whatever the bot does, when the store is reachable a result is
    written under the key of the task, the other keys and the queue are
    left alone, and the result says [success] exactly when the bot was
    handed the decoded buffer and answered [true]. *)
Theorem handleImageTask_always_answers bot now task r :
  Relay.up r = true →
  let out := Relay.handleImageTask bot now task r in
  ∃ result,
    Relay.image_result out.1 = <[Relay.resultKey (Relay.id task) := result]> (Relay.image_result r)
    ∧ Relay.image_send_queue out.1 = Relay.image_send_queue r
    ∧ Relay.result_timestamp result = now
    ∧ (Relay.success result = true
       ↔ ∃ b buffer, bot = Some b ∧ out.2 = Some buffer
           ∧ Relay.bot_sendImage b (Relay.chatId task) buffer (Relay.caption task)
             = Relay.Sent true).
Proof.
  intros Hup. cbv zeta. unfold Relay.handleImageTask. rewrite Hup.
  assert (∀ message,
    ∃ result,
      Relay.image_result
        (Relay.set_result
           (<[Relay.resultKey (Relay.id task) :=
                {| Relay.success := false; Relay.result_timestamp := now;
                   Relay.error := if bool_decide (message = "") then None
                                  else Some message |}]> (Relay.image_result r)) r,
         @None Buffer).1
      = <[Relay.resultKey (Relay.id task) := result]> (Relay.image_result r)
      ∧ Relay.image_send_queue
          (Relay.set_result
             (<[Relay.resultKey (Relay.id task) :=
                  {| Relay.success := false; Relay.result_timestamp := now;
                     Relay.error := if bool_decide (message = "") then None
                                    else Some message |}]> (Relay.image_result r)) r,
           @None Buffer).1
        = Relay.image_send_queue r
      ∧ Relay.result_timestamp result = now
      ∧ (Relay.success result = true
         ↔ ∃ b buffer, bot = Some b ∧ (@None Buffer) = Some buffer
             ∧ Relay.bot_sendImage b (Relay.chatId task) buffer (Relay.caption task)
               = Relay.Sent true)) as Hfail.
  { intros message. eexists. split; [reflexivity|]. split; [done|]. split; [done|].
    cbn. split; [done|]. by intros (? & ? & _ & ? & _). }
  destruct (Relay.botAvailable bot); cbn [negb]; [|apply Hfail].
  case_bool_decide; [apply Hfail|].
  destruct (Base64.base64Regex _); cbn [negb]; [|apply Hfail].
  case_bool_decide; [apply Hfail|].
  case_bool_decide; [apply Hfail|].
  destruct (Relay.validateImageBuffer _); cbn [negb]; [|apply Hfail].
  destruct bot as [b|]; [|apply Hfail].
  destruct (Relay.bot_sendImage _ _ _ _) as [ok|message] eqn:Hreply.
  - eexists. split; [reflexivity|]. split; [done|]. split; [done|]. cbn. split.
    + intros ->. by exists b, (Base64.decode (Relay.imageBuffer task)).
    + intros (b' & buffer & [= <-] & [= <-] & Hsent). congruence.
  - eexists. split; [reflexivity|]. split; [done|]. split; [done|]. cbn. split; [done|].
    intros (b' & buffer & [= <-] & [= <-] & Hsent). congruence.
Qed.

(** A task whose payload is not base64 text. *)
Lemma handleImageTask_always_answers_witness :
  let task := {| Relay.id := "7"; Relay.chatId := 42; Relay.imageBuffer := "not base64!";
                 Relay.caption := "tier list"; Relay.timestamp := 0 |} in
  let out := Relay.handleImageTask (Some goodBot) 5 task emptyRedis in
  Relay.up emptyRedis = true
  ∧ out.2 = None
  ∧ ∃ result,
      Relay.image_result out.1
      = <[Relay.resultKey (Relay.id task) := result]> (Relay.image_result emptyRedis)
      ∧ Relay.image_send_queue out.1 = Relay.image_send_queue emptyRedis
      ∧ Relay.result_timestamp result = 5%Z
      ∧ (Relay.success result = true
         ↔ ∃ b buffer, Some goodBot = Some b ∧ out.2 = Some buffer
             ∧ Relay.bot_sendImage b (Relay.chatId task) buffer (Relay.caption task)
               = Relay.Sent true).
Proof.
  cbv zeta. split; [reflexivity|]. split; [vm_compute; reflexivity|].
  exact (handleImageTask_always_answers (Some goodBot) 5
           {| Relay.id := "7"; Relay.chatId := 42; Relay.imageBuffer := "not base64!";
              Relay.caption := "tier list"; Relay.timestamp := 0 |}
           emptyRedis eq_refl).
Defined.

(** X15. [sendImage] refuses an image that fails the validation, whoever
    calls it and whatever the bot and the store would do: for a buffer of
    less than 1 KB or more than 20 MB, or one that does not start with the
    JPEG signature, it answers [false] and leaves the store as it is. *)
Theorem sendImage_rejects_invalid env r chat (buffer : Buffer) cap :
  (length buffer < 1024)%nat
  ∨ (20 * 1024 * 1024 < Z.of_nat (length buffer))%Z
  ∨ take 3 buffer ≠ jpegSignature →
  Relay.sendImage env r chat buffer cap = (false, r).
Proof.
  intros Hbad. unfold Relay.sendImage.
  destruct (Relay.validateImageBuffer buffer) eqn:Hvalid; [|done].
  apply validateImageBuffer_spec in Hvalid as (? & ? & ?).
  destruct Hbad as [?|[?|?]]; [lia|lia|done].
Qed.

(** A valid image cut down to 1023 bytes, sent from the owning process
    itself with its bot available. *)
Lemma sendImage_rejects_invalid_witness :
  let env := {| Relay.isMasterProcess := true; Relay.botService := Some goodBot;
                Relay.taskId := "8"; Relay.now := 0; Relay.others := λ _ r, r |} in
  (length (take 1023 jpeg1k) < 1024)%nat
  ∧ Relay.sendImage env emptyRedis 42 (take 1023 jpeg1k) "tier list" = (false, emptyRedis).
Proof.
  cbv zeta.
  assert (length (take 1023 jpeg1k) < 1024)%nat as Hshort by (vm_compute; lia).
  split; [exact Hshort|].
  apply sendImage_rejects_invalid. by left.
Defined.

Section TelegramFacts.
Import TelegramBot.

Lemma attempts_spec t : ∀ left attempt,
  let out := attempts t left attempt in
  (attempt ≤ out.2 ≤ attempt + left)%nat
  ∧ (out.1 = true ↔
     ∃ a, (attempt < a ≤ attempt + left)%nat ∧ delivers t a = true
          ∧ out.2 = a
          ∧ ∀ a', (attempt < a' < a)%nat → delivers t a' = false)
  ∧ (out.1 = false →
     out.2 = (attempt + left)%nat
     ∧ ∀ a, (attempt < a ≤ attempt + left)%nat → delivers t a = false).
Proof.
  induction left as [|left IH]; intros attempt; cbn zeta.
  - cbn. split; [lia|]. split.
    + split; [done|]. intros (a & ? & _). lia.
    + intros _. split; [lia|]. intros a ?. lia.
  - cbn [attempts].
    destruct (delivers t (S attempt)) eqn:Hd.
    + assert (match sendPhoto t (S attempt) with
              | Some errorMessage =>
                  if bufferError errorMessage && viaFile t (S attempt)
                  then (true, S attempt) else attempts t left (S attempt)
              | None => (true, S attempt)
              end = (true, S attempt)) as ->.
      { unfold delivers in Hd. destruct (sendPhoto t (S attempt)); [|done].
        by rewrite Hd. }
      cbn. split; [lia|]. split; [|done]. split; [|done]. intros _.
      exists (S attempt). repeat split; [lia..|done|]. intros a' ?. lia.
    + assert (match sendPhoto t (S attempt) with
              | Some errorMessage =>
                  if bufferError errorMessage && viaFile t (S attempt)
                  then (true, S attempt) else attempts t left (S attempt)
              | None => (true, S attempt)
              end = attempts t left (S attempt)) as ->.
      { unfold delivers in Hd. destruct (sendPhoto t (S attempt)); [|done].
        by rewrite Hd. }
      destruct (IH (S attempt)) as (Hrange & Htrue & Hfalse).
      split; [lia|]. split; [split|].
      * intros (a & Ha & Hda & Hout & Hbefore)%Htrue.
        exists a. repeat split; [lia..|done|done|].
        intros a' Ha'. destruct (decide (a' = S attempt)) as [->|]; [done|].
        apply Hbefore. lia.
      * intros (a & Ha & Hda & Hout & Hbefore). apply Htrue.
        exists a. repeat split; [|lia|done|done|].
        -- destruct (decide (a = S attempt)) as [->|]; [congruence|lia].
        -- intros a' Ha'. apply Hbefore. lia.
      * intros [Hout Hnone]%Hfalse. split; [lia|].
        intros a Ha. destruct (decide (a = S attempt)) as [->|]; [done|].
        apply Hnone. lia.
Qed.

Lemma validateJPEGBuffer_relayed buffer :
  Relay.validateImageBuffer buffer = true → validateJPEGBuffer buffer = true.
Proof.
  intros (Hlen & _ & Hsig%isValidJPEG_signature)%validateImageBuffer_spec.
  unfold validateJPEGBuffer. rewrite bool_decide_eq_false_2 by lia. by rewrite Hsig.
Qed.

End TelegramFacts.

(** X16. [sendImage] of the bot service, for a buffer with the JPEG
    signature and at least ten bytes: it calls [bot.sendPhoto] at most
    three times, answers [true] exactly when one of the three attempts
    succeeds or fails with a buffer error after which the file method
    succeeds, stops at the first such attempt, and answers [false] only
    after three failed attempts. *)
Theorem bot_sendImage_three_attempts (t : TelegramBot.Telegram) (buffer : Buffer) :
  TelegramBot.validateJPEGBuffer buffer = true →
  let out := TelegramBot.sendImage true t buffer in
  (out.2 ≤ 3)%nat
  ∧ (out.1 = true ↔
     ∃ a, (1 ≤ a ≤ 3)%nat ∧ TelegramBot.delivers t a = true ∧ out.2 = a
          ∧ ∀ a', (1 ≤ a' < a)%nat → TelegramBot.delivers t a' = false)
  ∧ (out.1 = false →
     out.2 = 3%nat ∧ ∀ a, (1 ≤ a ≤ 3)%nat → TelegramBot.delivers t a = false).
Proof.
  intros Hvalid. cbv zeta. unfold TelegramBot.sendImage.
  assert (buffer ≠ []) as Hne.
  { intros ->. by vm_compute in Hvalid. }
  rewrite bool_decide_eq_false_2 by by destruct buffer.
  rewrite Hvalid. cbn [negb].
  destruct (attempts_spec t TelegramBot.maxAttempts 0) as (Hrange & Htrue & Hfalse).
  unfold TelegramBot.maxAttempts in *. split; [lia|]. split; [split|].
  - intros (a & Ha & Hd & Hout & Hbefore)%Htrue. exists a.
    repeat split; [lia..|done|done|]. intros a' Ha'. apply Hbefore. lia.
  - intros (a & Ha & Hd & Hout & Hbefore). apply Htrue. exists a.
    repeat split; [lia..|done|done|]. intros a' Ha'. apply Hbefore. lia.
  - intros [Hout Hnone]%Hfalse. split; [done|]. intros a Ha. apply Hnone. lia.
Qed.

(** Ten bytes with the signature; Telegram accepts the photo at the
    second attempt. *)
Lemma bot_sendImage_three_attempts_witness :
  TelegramBot.validateJPEGBuffer (take 10 jpeg1k) = true
  ∧ TelegramBot.sendImage true secondTime (take 10 jpeg1k) = (true, 2%nat)
  ∧ ((TelegramBot.sendImage true secondTime (take 10 jpeg1k)).2 ≤ 3)%nat.
Proof.
  split; [vm_compute; reflexivity|]. split; [vm_compute; reflexivity|].
  apply (bot_sendImage_three_attempts secondTime (take 10 jpeg1k)).
  vm_compute; reflexivity.
Defined.

Section NoMasterFacts.
Import TelegramBot.

Lemma peersTick_idle peers now r :
  Forall (λ peer, peer.1.1 ≠ Some "0") peers → peersTick peers now r = r.
Proof.
  unfold peersTick. revert r. induction peers as [|peer peers IH]; intros r Hpeers; [done|].
  inversion Hpeers as [|?? Hpeer Hrest]; subst. cbn [foldl].
  assert ((Processor.tick (isMasterProcess peer.1.1)
             (messaging peer.1.1 peer.1.2 peer.2) now r).1 = r) as ->; [|by apply IH].
  unfold Processor.tick, messaging, Processor.startTaskProcessor, isMasterProcess.
  by rewrite bool_decide_eq_false_2 by done.
Qed.

Lemma waitForResult_alone key others : ∀ budget i r,
  (∀ i r, others i r = r) → Relay.up r = true → Relay.image_result r !! key = None →
  Relay.waitForResult budget i key others r = (false, r, (i + budget)%nat).
Proof.
  induction budget as [|budget IH]; intros i r Hothers Hup Hnone; cbn [Relay.waitForResult].
  - rewrite Hothers. f_equal. lia.
  - rewrite Hothers, Hup, Hnone. cbn [negb]. rewrite IH by done. f_equal. lia.
Qed.

End NoMasterFacts.

(** X17. Without a process whose [pm_id] is ['0'] no image is delivered
    through the messaging service.  In a process with any other [pm_id],
    or with none (the server started outside PM2, where the bot service
    does initialise its bot), the constructor does not start the task
    processor and [sendImage] does not send directly; when the peers are
    such processes too, [sendImage] pushes the task, polls 450 times in
    vain and answers [false]; the task stays in the queue and the bot is
    never called. *)
Theorem relay_needs_process_zero pm_id bot t peers taskId now r chat buffer cap :
  pm_id ≠ Some "0" →
  Forall (λ peer, peer.1.1 ≠ Some "0") peers →
  Relay.validateImageBuffer buffer = true →
  Relay.up r = true →
  Relay.image_result r !! Relay.resultKey taskId = None →
  let env := TelegramBot.sendEnv pm_id bot t peers taskId now in
  Processor.taskProcessorInterval (TelegramBot.messaging pm_id bot t) = false
  ∧ Relay.directSend env chat buffer cap = None
  ∧ Relay.sendImage env r chat buffer cap
    = (false, Relay.rpush (Relay.imageTask env chat buffer cap) r)
  ∧ Relay.waitForResult Relay.MAX_POLLS 0 (Relay.resultKey taskId) (Relay.others env)
      (Relay.rpush (Relay.imageTask env chat buffer cap) r)
    = (false, Relay.rpush (Relay.imageTask env chat buffer cap) r, 450%nat).
Proof.
  intros Hpm Hpeers Hvalid Hup Hnone. cbv zeta.
  assert (TelegramBot.isMasterProcess pm_id = false) as Hmaster.
  { unfold TelegramBot.isMasterProcess. by rewrite bool_decide_eq_false_2. }
  assert (Hjpeg : isValidJPEG buffer = true).
  { by apply validateImageBuffer_spec, proj2, proj2, isValidJPEG_signature in Hvalid. }
  assert (Hne : buffer ≠ []).
  { intros ->. by vm_compute in Hjpeg. }
  assert (Hwait : ∀ task,
    Relay.waitForResult Relay.MAX_POLLS 0 (Relay.resultKey taskId)
      (Relay.others (TelegramBot.sendEnv pm_id bot t peers taskId now))
      (Relay.rpush task r)
    = (false, Relay.rpush task r, 450%nat)).
  { intros task. rewrite waitForResult_alone; [done| |done|done].
    intros i r'. cbn. by apply peersTick_idle. }
  split.
  { unfold TelegramBot.messaging, Processor.startTaskProcessor. by rewrite Hmaster. }
  split.
  { unfold Relay.directSend. cbn [Relay.isMasterProcess TelegramBot.sendEnv].
    by rewrite Hmaster. }
  split; [|apply Hwait].
  unfold Relay.sendImage. rewrite Hvalid, Hjpeg.
  unfold Relay.directSend. cbn [Relay.isMasterProcess TelegramBot.sendEnv].
  rewrite Hmaster. cbn [andb negb].
  destruct (testBufferConversion_nonempty buffer Hne) as [-> Hlen].
  cbn [negb]. rewrite bool_decide_eq_false_2 by done. rewrite Hup. cbn [negb].
  pose proof (Hwait (Relay.imageTask (TelegramBot.sendEnv pm_id bot t peers taskId now)
                       chat buffer cap)) as Hw.
  cbn [Relay.taskId Relay.others TelegramBot.sendEnv] in Hw |- *.
  by rewrite Hw.
Qed.

(** The server started outside PM2: no [pm_id], the bot initialised and
    able to deliver, no other process. *)
Lemma relay_needs_process_zero_witness :
  TelegramBot.isClusterMaster None = true
  ∧ Relay.isBotAvailable (TelegramBot.botService None true secondTime) = true
  ∧ (TelegramBot.sendImage true secondTime jpeg1k).1 = true
  ∧ (Relay.sendImage (TelegramBot.sendEnv None true secondTime [] "9" 0)
       emptyRedis 42 jpeg1k "tier list").1 = false.
Proof.
  split; [reflexivity|]. split; [reflexivity|]. split; [vm_compute; reflexivity|].
  destruct (relay_needs_process_zero None true secondTime [] "9" 0 emptyRedis 42 jpeg1k
              "tier list") as (_ & _ & Hsend & _);
    [done|constructor|vm_compute; reflexivity|reflexivity|reflexivity|].
  by rewrite Hsend.
Defined.

(** X18. An image that came through the relay is always sent as a photo
    first.  Every buffer that [validateImageBuffer] of the messaging
    service accepts passes [validateJPEGBuffer] of the bot service, so for
    such a buffer [sendImage] of the bot never replaces the attempts by
    the file method: its answer does not depend on what the file method
    would do before the first attempt, and it is [true] exactly when one
    of the three attempts delivers. *)
Theorem relayed_image_is_sent_as_photo (t : TelegramBot.Telegram) (buffer : Buffer) :
  Relay.validateImageBuffer buffer = true →
  TelegramBot.validateJPEGBuffer buffer = true
  ∧ TelegramBot.sendImage true t buffer = TelegramBot.attempts t 3 0
  ∧ ((TelegramBot.sendImage true t buffer).1 = true
     ↔ ∃ a, (1 ≤ a ≤ 3)%nat ∧ TelegramBot.delivers t a = true).
Proof.
  intros Hvalid. pose proof (validateJPEGBuffer_relayed buffer Hvalid) as Hjpeg.
  assert (TelegramBot.sendImage true t buffer = TelegramBot.attempts t 3 0) as Hsend.
  { unfold TelegramBot.sendImage. rewrite Hjpeg. cbn [negb].
    rewrite bool_decide_eq_false_2; [done|]. intros Hlen.
    destruct buffer; [by vm_compute in Hvalid|done]. }
  split; [done|]. split; [done|]. rewrite Hsend.
  destruct (attempts_spec t 3 0) as (_ & Htrue & Hfalse).
  split.
  - intros (a & Ha & Hd & _)%Htrue. exists a. split; [lia|done].
  - intros (a & Ha & Hd).
    destruct (TelegramBot.attempts t 3 0).1 eqn:Hout; [done|].
    destruct (Hfalse eq_refl) as [_ Hnone]. rewrite Hnone in Hd by lia. done.
Qed.

(** The 1 KB image, which Telegram accepts at the second attempt. *)
Lemma relayed_image_is_sent_as_photo_witness :
  Relay.validateImageBuffer jpeg1k = true
  ∧ TelegramBot.validateJPEGBuffer jpeg1k = true
  ∧ TelegramBot.sendImage true secondTime jpeg1k = (true, 2%nat).
Proof.
  assert (Relay.validateImageBuffer jpeg1k = true) as Hvalid by (vm_compute; reflexivity).
  split; [exact Hvalid|].
  destruct (relayed_image_is_sent_as_photo secondTime jpeg1k Hvalid) as (Hjpeg & Hsend & _).
  split; [exact Hjpeg|]. rewrite Hsend. vm_compute; reflexivity.
Defined.

Section QueueMetricsFacts.
Import ImageQueue QueueLedger.

Lemma iq_processQueue_counts post s :
  promises (processQueue post s) = promises s
  ∧ ((metrics (processQueue post s) = metrics s
      ∧ settlements (processQueue post s) = settlements s)
     ∨ ∃ p message,
         metrics (processQueue post s) = metrics (failed s)
         ∧ settlements (processQueue post s)
           = (settlements s ++ [(p, Rejected message)])%list).
Proof.
  split; [apply iq_processQueue_promises|]. unfold processQueue.
  destruct (List.find (isFree s) (workers s)); [|by left].
  destruct (taskQueue s) as [|t rest]; [by left|].
  destruct post as [message|]; [|by left].
  right. by exists (promise t), message.
Qed.

Lemma iq_processQueue_metricsAgree post s :
  metricsAgree s → metricsAgree (processQueue post s).
Proof.
  intros (Hq & Hc & Hf). unfold metricsAgree.
  destruct (iq_processQueue_counts post s)
    as (-> & [[-> ->]|(p & message & -> & ->)]); [done|].
  rewrite fulfilled_app, rejected_app, fulfilled_one, rejected_one. cbn.
  repeat split; lia.
Qed.

Lemma metricsAgree_frame s s' :
  metrics s' = metrics s → promises s' = promises s →
  settlements s' = settlements s → metricsAgree s → metricsAgree s'.
Proof. unfold metricsAgree. by intros -> -> ->. Qed.

Lemma metricsAgree_rejected p message s :
  metricsAgree s → metricsAgree (settle p (Rejected message) (failed s)).
Proof.
  intros (Hq & Hc & Hf). unfold metricsAgree, settle, failed.
  cbn [metrics promises settlements with_settlements with_metrics tasksQueued
       m_tasksCompleted tasksFailed].
  rewrite fulfilled_app, rejected_app, fulfilled_one, rejected_one. cbn [isFulfilled].
  repeat split; lia.
Qed.

Lemma iq_step_metricsAgree s e : metricsAgree s → metricsAgree (step s e).
Proof.
  intros Hm. pose proof Hm as (Hq & Hc & Hf).
  destruct e as [|i time h wd ht q o post|p|w r post|w m|w|ok]; cbn [step].
  - unfold initialize. destruct (isInitialized s); [done|].
    eapply metricsAgree_frame; [..|exact Hm]; done.
  - unfold generateImage. case_bool_decide as Hfull.
    + unfold metricsAgree, settle.
      cbn [metrics promises settlements with_settlements with_promises].
      rewrite fulfilled_app, rejected_app, fulfilled_one, rejected_one.
      cbn [isFulfilled]. repeat split; lia.
    + match goal with |- metricsAgree (with_timers _ ?s0) =>
        apply (metricsAgree_frame s0); [done..|] end.
      apply iq_processQueue_metricsAgree. unfold metricsAgree, queued.
      cbn [metrics promises settlements with_metrics with_taskQueue with_promises
           tasksQueued m_tasksCompleted tasksFailed].
      repeat split; lia.
  - unfold timeout. destruct (List.find _ _) as [[p' taskId]|]; [|done].
    case_bool_decide.
    + match goal with |- metricsAgree (settle _ _ (failed ?s0)) =>
        apply (metricsAgree_rejected _ _ s0) end.
      eapply metricsAgree_frame; [..|exact Hm]; done.
    + eapply metricsAgree_frame; [..|exact Hm]; done.
  - unfold handleWorkerMessage. destruct (findTaskById _ _) as [t|]; [|done].
    apply iq_processQueue_metricsAgree.
    assert (∀ info, metricsAgree (setWorker w info s)) as Hset.
    { intros info. eapply metricsAgree_frame; [..|exact Hm]; done. }
    match goal with |- metricsAgree (if _ then restartWorker w ?s0 else ?s0) =>
      cut (metricsAgree s0);
        [intros H0; case_bool_decide; [|done];
         eapply metricsAgree_frame; [..|exact H0]; done|] end.
    destruct (success r), (data r) as [buffer|];
      try (apply metricsAgree_rejected, Hset).
    specialize (Hset {| busy := false; currentTaskId := None;
                        tasksCompleted := S (tasksCompleted (workerInfoOf w s)) |}).
    destruct Hset as (Hq' & Hc' & Hf').
    unfold metricsAgree, settle, updateMetrics.
    cbn [metrics promises settlements with_settlements with_metrics tasksQueued
         m_tasksCompleted tasksFailed] in *.
    rewrite fulfilled_app, rejected_app, fulfilled_one, rejected_one.
    cbn [isFulfilled]. repeat split; lia.
  - unfold handleWorkerError.
    match goal with |- metricsAgree (restartWorker w (setWorker w _ ?s0)) =>
      cut (metricsAgree s0);
        [intros H0; eapply metricsAgree_frame; [..|exact H0]; done|] end.
    destruct (findTaskById _ _) as [t|]; [|done].
    by apply metricsAgree_rejected.
  - unfold handleWorkerExit. case_bool_decide; [|done].
    eapply metricsAgree_frame; [..|exact Hm]; done.
  - unfold terminateDone. destruct (restarts s); [done|].
    destruct ok; eapply metricsAgree_frame; [..|exact Hm]; done.
Qed.

Lemma iq_run_metricsAgree trace : ∀ s, metricsAgree s → metricsAgree (run s trace).
Proof.
  induction trace as [|e trace IH]; intros s Hs; [done|].
  cbn [run foldl]. apply IH. by apply iq_step_metricsAgree.
Qed.

End QueueMetricsFacts.

(** X19. The counters of the image queue service agree with what it did
    to its promises: [tasksCompleted] is the number of calls of [resolve],
    and [tasksFailed] is the number of calls of [reject] apart from the
    refusals of submissions to a full queue, which are not counted; the
    submissions are those counted in [tasksQueued] and those refused. *)
Theorem iq_metrics_agree (trace : list ImageQueue.Event) :
  let s := ImageQueue.run ImageQueue.initial trace in
  let refused := (ImageQueue.promises s
                  - ImageQueue.tasksQueued (ImageQueue.metrics s))%nat in
  (ImageQueue.tasksQueued (ImageQueue.metrics s) + refused)%nat = ImageQueue.promises s
  ∧ ImageQueue.m_tasksCompleted (ImageQueue.metrics s)
    = fulfilled (ImageQueue.settlements s)
  ∧ (ImageQueue.tasksFailed (ImageQueue.metrics s) + refused)%nat
    = rejected (ImageQueue.settlements s).
Proof.
  intros s refused.
  destruct (iq_run_metricsAgree trace ImageQueue.initial) as (Hq & Hc & Hf).
  { repeat split. cbn. lia. }
  fold s in Hq, Hc, Hf. unfold refused. repeat split; [lia|done|done].
Qed.

Section QueueTimerFacts.
Import ImageQueue QueueTimers.

Lemma iq_submittedIds_app trace1 trace2 :
  submittedIds (trace1 ++ trace2) = (submittedIds trace1 ++ submittedIds trace2)%list.
Proof. unfold submittedIds. by rewrite omap_app. Qed.

Lemma iq_waiting_NoDup s : wellFormed s → NoDup (waiting s).
Proof.
  intros [[Hsorted _] _]. unfold waiting.
  induction Hsorted as [|t queue Hs IH Hall]; [constructor|].
  rewrite fmap_cons. apply NoDup_cons. split; [|done].
  intros (t' & Heq & Hin)%list_elem_of_fmap.
  rewrite Forall_forall in Hall. specialize (Hall _ Hin). unfold byAge in Hall. lia.
Qed.

(** What a step does to the queue and to the timers. *)
Lemma iq_step_queue_timers s e :
  (taskQueue (step s e) `sublist_of` taskQueue s
   ∧ (timers (step s e) = timers s ∨ ∃ p, e = Timeout p)
   ∧ (submittedIds [e] = [] ∨ ∃ taskId, submittedIds [e] = [taskId]
                                        ∧ taskQueue (step s e) = taskQueue s
                                        ∧ timers (step s e) = timers s))
  ∨ (∃ taskId t, submittedIds [e] = [taskId]
       ∧ taskQueue (step s e) `sublist_of` (taskQueue s ++ [t])%list
       ∧ id t = taskId ∧ promise t = promises s
       ∧ timers (step s e) = (timers s ++ [(promises s, taskId)])%list
       ∧ promises (step s e) = S (promises s)).
Proof.
  destruct e as [|i time h wd ht q o post|p|w r post|w m|w|ok]; cbn [step].
  - left. unfold initialize. destruct (isInitialized s); repeat split; auto.
  - unfold generateImage. case_bool_decide as Hfull.
    + left. cbn. repeat split; [done|by left|]. right. by exists i.
    + right.
      exists i, {| id := i; html := h; width := wd; height := ht; quality := q;
                   optimizeForSpeed := o; promise := promises s; createdAt := time |}.
      cbn [taskQueue timers promises with_timers].
      rewrite iq_processQueue_timers, iq_processQueue_promises.
      split; [done|]. split; [|by cbn].
      etrans; [apply iq_processQueue_sublist|]. cbn. reflexivity.
  - left. unfold timeout. destruct (List.find _ _) as [[? taskId]|];
      [|repeat split; auto].
    case_bool_decide; cbn; (split; [|split; [right; by eexists|by left]]);
      [apply splice1_sublist|done].
  - left. unfold handleWorkerMessage. destruct (findTaskById _ _);
      [|repeat split; auto].
    rewrite iq_processQueue_timers. split; [|split; [left|by left]].
    + etrans; [apply iq_processQueue_sublist|]. by repeat case_match.
    + by repeat case_match.
  - left. unfold handleWorkerError. destruct (findTaskById _ _); repeat split; auto.
  - left. unfold handleWorkerExit. case_bool_decide; repeat split; auto.
  - left. unfold terminateDone. destruct (restarts s); [repeat split; auto|].
    destruct ok; repeat split; auto.
Qed.

Lemma iq_step_timersMatch ids s e :
  NoDup (ids ++ submittedIds [e]) →
  timersMatch ids s → timersMatch (ids ++ submittedIds [e]) (step s e).
Proof.
  intros Hnd (Hmatch & Hq & Ht). unfold timersMatch.
  destruct (iq_step_queue_timers s e)
    as [(Hsq & Hst & _)|(taskId & t & Hid & Hsq & Hidt & Hpt & Hst & _)].
  - assert (timers (step s e) `sublist_of` timers s) as Hsub.
    { destruct Hst as [->|[p ->]]; [done|]. cbn [step]. unfold timeout.
      destruct (List.find _ _) as [[? taskId]|]; [|done].
      case_bool_decide; cbn; apply sublist_filter. }
    repeat split.
    + intros t p Hin Htimer. apply Hmatch; by eapply sublist_elem_of_inv.
    + intros t Hin. apply elem_of_app. left. apply Hq. by eapply sublist_elem_of_inv.
    + intros p i Hin. apply elem_of_app. left. eapply Ht. by eapply sublist_elem_of_inv.
  - rewrite Hid in *. rewrite Hst. apply NoDup_app in Hnd as (_ & Hfresh & _).
    assert (taskId ∉ ids) as Hnew.
    { intros Hin. apply (Hfresh _ Hin). by apply list_elem_of_singleton. }
    assert (∀ t', t' ∈ taskQueue (step s e) → t' ∈ taskQueue s ∨ t' = t) as Hin'.
    { intros t' Hin. eapply sublist_elem_of_inv in Hin; [|exact Hsq].
      apply elem_of_app in Hin as [?| ->%list_elem_of_singleton]; auto. }
    repeat split.
    + intros t' p [Hin| ->]%Hin' [Htimer|[= -> Heq]%list_elem_of_singleton]%elem_of_app.
      * by apply Hmatch.
      * exfalso. apply Hnew. rewrite <- Heq. by apply Hq.
      * exfalso. apply Hnew. rewrite <- Hidt. by eapply Ht.
      * done.
    + intros t' [Hin| ->]%Hin'; apply elem_of_app.
      * left. by apply Hq.
      * right. by apply list_elem_of_singleton.
    + intros p i [Hin|[= -> ->]%list_elem_of_singleton]%elem_of_app; apply elem_of_app.
      * left. by eapply Ht.
      * right. by apply list_elem_of_singleton.
Qed.

(** The timer of a task that is still queued: the task leaves the queue,
    its promise is rejected and the failure is counted. *)
Lemma iq_timeout_queued ids s t :
  NoDup (waiting s) → timersMatch ids s → timersArmed s → t ∈ taskQueue s →
  timeout (promise t) s
  = settle (promise t) (Rejected "Таймаут генерации изображения")
      (failed
         (with_taskQueue (filter (λ t', promise t' ≠ promise t) (taskQueue s))
            (with_timers (filter (λ x, x.1 ≠ promise t) (timers s)) s))).
Proof.
  intros Hnd (Hmatch & _) (Hnt & _ & Harmed) Hin. unfold timeout.
  destruct (List.find _ (timers s)) as [[p' i]|] eqn:Hfind.
  2: { exfalso. pose proof (List.find_none _ _ Hfind (promise t, id t)) as Hnone.
       rewrite <- list_elem_of_In in Hnone. specialize (Hnone (Harmed t Hin)).
       cbn in Hnone. by rewrite bool_decide_eq_true_2 in Hnone. }
  apply find_elem_of in Hfind as [Htimer Hp%bool_decide_eq_true].
  cbn in Hp. subst p'.
  assert (i = id t) as ->.
  { eapply NoDup_fst_eq; [exact Hnt|exact Htimer|by apply Harmed]. }
  cbn [taskQueue with_timers].
  destruct (findIndex_range (λ t', bool_decide (id t' = id t)) (taskQueue s))
    as [Hno|Hrange].
  { apply findIndex_absent in Hno. rewrite Forall_forall in Hno.
    specialize (Hno t Hin). by rewrite bool_decide_eq_true_2 in Hno. }
  rewrite bool_decide_eq_true_2 by lia.
  destruct (Z_of_nat_complete (findIndex (λ t', bool_decide (id t' = id t))
                                         (taskQueue s))) as [n Hn]; [lia|].
  rewrite Hn. apply findIndex_found in Hn as (t' & Ht' & Hid%bool_decide_eq_true & _).
  rewrite splice1_at.
  assert (promise t' = promise t) as Hpt.
  { apply Hmatch; [by eapply list_elem_of_lookup_2|]. rewrite Hid. by apply Harmed. }
  by rewrite (delete_filter promise _ n t' Hnd Ht'), Hpt.
Qed.

(** The timer of a task that has left the queue does nothing. *)
Lemma iq_timeout_gone ids s p :
  timersMatch ids s → p ∉ waiting s →
  timeout p s = with_timers (filter (λ x, x.1 ≠ p) (timers s)) s.
Proof.
  intros (Hmatch & _) Hout. unfold timeout.
  destruct (List.find _ (timers s)) as [[p' i]|] eqn:Hfind.
  - apply find_elem_of in Hfind as [Htimer Hp%bool_decide_eq_true].
    cbn in Hp. subst p'. cbn [taskQueue with_timers].
    destruct (findIndex_range (λ t', bool_decide (id t' = i)) (taskQueue s))
      as [->|Hrange]; [by rewrite bool_decide_eq_false_2 by (intros H; by apply H)|].
    exfalso.
    destruct (Z_of_nat_complete (findIndex (λ t', bool_decide (id t' = i))
                                           (taskQueue s))) as [n Hn]; [lia|].
    apply findIndex_found in Hn as (t' & Ht' & <-%bool_decide_eq_true & _).
    apply list_elem_of_lookup_2 in Ht'. apply Hout.
    rewrite <- (Hmatch t' p Ht' Htimer). apply list_elem_of_fmap. by exists t'.
  - rewrite filter_id; [by destruct s|]. apply Forall_forall. intros x Hx Heq.
    pose proof (List.find_none _ _ Hfind x) as Hnone.
    rewrite <- list_elem_of_In in Hnone. specialize (Hnone Hx).
    by rewrite bool_decide_eq_true_2 in Hnone.
Qed.

Lemma iq_step_timersArmed ids s e :
  NoDup (waiting s) → timersMatch ids s → timersArmed s → timersArmed (step s e).
Proof.
  intros Hnd Hmatch Harmed. pose proof Harmed as (Hnt & Hlt & Hin).
  destruct (iq_step_queue_timers s e)
    as [(Hsq & Hst & _)|(taskId & t & Hid & Hsq & Hidt & Hpt & Hst & Hnew)].
  - destruct Hst as [Hst|[p ->]].
    + unfold timersArmed. rewrite Hst. split; [done|]. split.
      * eapply Forall_impl; [done|]. cbn.
        destruct (iq_step_queue s e) as [[_ ?]|(_ & _ & _ & ? & _)]; lia.
      * intros t Ht. apply Hin. by eapply sublist_elem_of_inv.
    + cbn [step]. destruct (decide (p ∈ waiting s)) as [Hp|Hp].
      * apply list_elem_of_fmap in Hp as (t & -> & Ht).
        rewrite (iq_timeout_queued ids s t Hnd Hmatch Harmed Ht).
        unfold timersArmed, settle, failed.
        cbn [timers promises taskQueue with_settlements with_taskQueue with_timers
             with_metrics].
        split; [|split].
        -- eapply sublist_NoDup; [exact Hnt|apply fmap_sublist, sublist_filter].
        -- eapply sublist_Forall_inv; [apply sublist_filter|done].
        -- intros t' [Hne Ht']%list_elem_of_filter. apply list_elem_of_filter.
           split; [done|]. by apply Hin.
      * rewrite (iq_timeout_gone ids s p Hmatch Hp). unfold timersArmed.
        cbn [timers promises taskQueue with_timers].
        split; [|split].
        -- eapply sublist_NoDup; [exact Hnt|apply fmap_sublist, sublist_filter].
        -- eapply sublist_Forall_inv; [apply sublist_filter|done].
        -- intros t' Ht'. apply list_elem_of_filter. split; [|by apply Hin].
           cbn. intros Heq. apply Hp. rewrite <- Heq.
           apply list_elem_of_fmap. by exists t'.
  - unfold timersArmed. rewrite Hst, Hnew. split; [|split].
    + rewrite fmap_app. apply NoDup_app. split; [done|].
      split; [|apply NoDup_singleton].
      intros x Hx ->%list_elem_of_singleton.
      apply list_elem_of_fmap in Hx as ([p i] & Heq & Hx). cbn in Heq. subst p.
      rewrite Forall_forall in Hlt. specialize (Hlt _ Hx). cbn in Hlt. lia.
    + apply Forall_app. split; [|constructor; [cbn; lia|constructor]].
      eapply Forall_impl; [done|]. cbn. lia.
    + intros t' Ht'. eapply sublist_elem_of_inv in Ht'; [|exact Hsq].
      apply elem_of_app in Ht' as [Ht'| ->%list_elem_of_singleton]; apply elem_of_app.
      * left. by apply Hin.
      * right. rewrite Hidt, Hpt. by apply list_elem_of_singleton.
Qed.

Lemma iq_run_timers trace :
  NoDup (submittedIds trace) →
  NoDup (waiting (run initial trace))
  ∧ timersMatch (submittedIds trace) (run initial trace)
  ∧ timersArmed (run initial trace).
Proof.
  intros Hnd. split.
  { apply iq_waiting_NoDup, iq_run_wellFormed, iq_initial_wellFormed. }
  induction trace as [|e trace IH] using rev_ind.
  - split.
    + repeat split; cbn; by intros; exfalso; eapply not_elem_of_nil.
    + split; [constructor|]. split; [constructor|]. by intros t ?%not_elem_of_nil.
  - rewrite iq_submittedIds_app in Hnd |- *.
    destruct IH as [Hmatch Harmed]; [by apply NoDup_app in Hnd as (? & _)|].
    unfold run. rewrite foldl_snoc. fold (run initial trace). split.
    + by apply iq_step_timersMatch.
    + eapply iq_step_timersArmed; [|done..].
      apply iq_waiting_NoDup, iq_run_wellFormed, iq_initial_wellFormed.
Qed.

End QueueTimerFacts.

(** X20. Under unique task ids, the timer that [generateImage] of the
    image queue service arms for a task does this: when it fires while the
    task is still queued, the task leaves the queue, its promise is
    rejected with the timeout error and the failure is counted; when the
    task has left the queue by then, in particular when it was handed to a
    worker, the timer changes neither the queue, nor a promise, nor a
    counter.  The workers are never touched. *)
Theorem iq_timeout_rejects_queued (trace : list ImageQueue.Event) (p : nat) :
  NoDup (QueueTimers.submittedIds trace) →
  let s := ImageQueue.run ImageQueue.initial trace in
  let s' := ImageQueue.timeout p s in
  (if decide (p ∈ QueueTimers.waiting s)
   then ImageQueue.taskQueue s'
        = filter (λ t, ImageQueue.promise t ≠ p) (ImageQueue.taskQueue s)
        ∧ S (length (ImageQueue.taskQueue s')) = length (ImageQueue.taskQueue s)
        ∧ ImageQueue.settlements s'
          = (ImageQueue.settlements s
             ++ [(p, Rejected "Таймаут генерации изображения")])%list
        ∧ ImageQueue.tasksFailed (ImageQueue.metrics s')
          = S (ImageQueue.tasksFailed (ImageQueue.metrics s))
   else ImageQueue.taskQueue s' = ImageQueue.taskQueue s
        ∧ ImageQueue.settlements s' = ImageQueue.settlements s
        ∧ ImageQueue.metrics s' = ImageQueue.metrics s)
  ∧ ImageQueue.heap s' = ImageQueue.heap s
  ∧ ImageQueue.workers s' = ImageQueue.workers s.
Proof.
  intros Hids s s'.
  destruct (iq_run_timers trace Hids) as (Hq & Hmatch & Harmed).
  fold s in Hq, Hmatch, Harmed.
  unfold s'. destruct (decide (p ∈ QueueTimers.waiting s)) as [Hp|Hp].
  - pose proof Hp as Hp'. apply list_elem_of_fmap in Hp' as (t & -> & Ht).
    rewrite (iq_timeout_queued _ s t Hq Hmatch Harmed Ht). cbn.
    repeat split.
    by apply (dropped_length ImageQueue.promise).
  - by rewrite (iq_timeout_gone _ s p Hmatch Hp).
Qed.

(** The timer of the second of two queued tasks. *)
Lemma iq_timeout_rejects_queued_witness :
  NoDup (QueueTimers.submittedIds twoWaiting)
  ∧ QueueTimers.waiting (ImageQueue.run ImageQueue.initial twoWaiting) = [0%nat; 1%nat]
  ∧ ImageQueue.settlements
      (ImageQueue.timeout 1 (ImageQueue.run ImageQueue.initial twoWaiting))
    = [(1%nat, Rejected "Таймаут генерации изображения")].
Proof.
  assert (NoDup (QueueTimers.submittedIds twoWaiting)) as Hids.
  { apply (bool_decide_unpack _). vm_compute. exact I. }
  split; [exact Hids|]. split; [vm_compute; reflexivity|].
  pose proof (iq_timeout_rejects_queued twoWaiting 1 Hids) as H1. cbv zeta in H1.
  destruct (decide (1%nat ∈ QueueTimers.waiting (ImageQueue.run ImageQueue.initial twoWaiting)))
    as [_|Hout]; [|exfalso; apply Hout; vm_compute; repeat constructor].
  destruct H1 as [(_ & _ & -> & _) _]. vm_compute; reflexivity.
Defined.

Section CacheFacts.
Import Cache.

Lemma lookup_deleted (m : gmap string (string * option Z)) ks key :
  foldr delete m ks !! key = if decide (key ∈ ks) then None else m !! key.
Proof.
  induction ks as [|k ks IH]; cbn [foldr]; [done|].
  destruct (decide (key = k)) as [->|Hne].
  - rewrite lookup_delete_eq. rewrite decide_True; [done|]. by left.
  - rewrite lookup_delete_ne by done. rewrite IH.
    destruct (decide (key ∈ ks)) as [Hin|Hout].
    + rewrite decide_True; [done|]. by right.
    + rewrite decide_False; [done|]. by intros [?|?]%elem_of_cons.
Qed.

End CacheFacts.

Section WithCacheFacts.
Import Cache.
Context {T : Type} (parse : string → option T) (stringify : T → option string).

Lemma withCache_miss (fn : T + string) key options now later r :
  skipCache options ≠ Some true →
  get now (cacheKey key options) r = Some None →
  withCache parse stringify fn key options now later r
  = match fn with
    | inr error => (Threw error, r, true)
    | inl result =>
        (Returned result,
         match stringify result with
         | Some text =>
             match set later (cacheKey key options) text (default 3600%Z (ttl options)) r with
             | Some r' => r'
             | None => r
             end
         | None => r
         end, true)
    end.
Proof.
  intros Hskip Hget. unfold withCache. rewrite Hget.
  destruct (skipCache options) as [[|]|]; [done|by destruct fn..].
Qed.

Lemma withCache_hit (fn : T + string) key options now later r text cached :
  skipCache options ≠ Some true →
  get now (cacheKey key options) r = Some (Some text) →
  text ≠ "" → parse text = Some cached →
  withCache parse stringify fn key options now later r = (Returned cached, r, false).
Proof.
  intros Hskip Hget Htext Hparse. unfold withCache. rewrite Hget.
  rewrite bool_decide_eq_true_2 by done. rewrite Hparse.
  by destruct (skipCache options) as [[|]|].
Qed.

End WithCacheFacts.

(** X21. The round trip of [withCache].  After a miss the function is
    called, its result is returned and stored under the cache key; the
    next call for that key, while the entry has not expired, returns what
    [JSON.parse] makes of the stored text and does not call its function,
    nor change the store.  With a time to live of [0] the entry never
    expires; otherwise the first call at or after the second of expiry
    calls its function again. *)
Theorem withCache_miss_then_hit {T : Type} (parse : string → option T)
    (stringify : T → option string) (result cached : T) (text key : string)
    (options : Cache.CacheOptions) (now later now' later' : Z) (r : Cache.Store)
    (fn' : T + string) :
  Cache.skipCache options ≠ Some true →
  Cache.get now (Cache.cacheKey key options) r = Some None →
  Cache.writable r = true →
  stringify result = Some text → text ≠ "" → parse text = Some cached →
  (0 ≤ default 3600 (Cache.ttl options))%Z →
  (later ≤ now')%Z →
  let ttl := default 3600%Z (Cache.ttl options) in
  let first := Cache.withCache parse stringify (inl result) key options now later r in
  let second := Cache.withCache parse stringify fn' key options now' later' first.1.2 in
  first.1.1 = Cache.Returned result
  ∧ first.2 = true
  ∧ ((ttl = 0 ∨ now' < later + ttl)%Z → second = (Cache.Returned cached, first.1.2, false))
  ∧ ((ttl ≠ 0 ∧ later + ttl ≤ now')%Z → second.2 = true).
Proof.
  intros Hskip Hmiss Hw Hstr Htext Hparse Httl Hlater. cbv zeta.
  rewrite (withCache_miss parse stringify _ _ _ _ _ _ Hskip Hmiss), Hstr.
  cbn [fst snd]. split; [done|]. split; [done|].
  assert (Cache.readable r = true) as Hr.
  { unfold Cache.get in Hmiss. by destruct (Cache.readable r). }
  unfold Cache.set. rewrite Hw. cbn [negb].
  case_bool_decide as Hzero.
  - split; [|intros [? _]; done]. intros _.
    apply withCache_hit with (text := text); [done| |done|done].
    unfold Cache.get. cbn. by rewrite Hr, lookup_insert_eq.
  - rewrite bool_decide_eq_false_2 by lia. split.
    + intros [?|Hlive]; [done|].
      apply withCache_hit with (text := text); [done| |done|done].
      unfold Cache.get, Cache.expired. cbn. rewrite Hr, lookup_insert_eq. cbn.
      by rewrite bool_decide_eq_false_2 by lia.
    + intros [_ Hdead].
      rewrite withCache_miss; [by destruct fn'|done|].
      unfold Cache.get, Cache.expired. cbn. rewrite Hr, lookup_insert_eq. cbn.
      by rewrite bool_decide_eq_true_2 by lia.
Qed.

(** The list of clubs is computed at second 100, stored at second 101
    for 600 seconds and asked for again at second 700. *)
Lemma withCache_miss_then_hit_witness :
  let first := Cache.withCache unquote quote (inl "clubs") "all" clubsOptions
                 100 101 emptyStore in
  Cache.get 100 (Cache.cacheKey "all" clubsOptions) emptyStore = Some None
  ∧ Cache.entries first.1.2 = {["cache:clubs:all" := ("'clubs'", Some 701%Z)]}
  ∧ Cache.withCache unquote quote (inr "database is down") "all" clubsOptions
      700 700 first.1.2
    = (Cache.Returned "clubs", first.1.2, false).
Proof.
  cbv zeta. split; [reflexivity|]. split; [vm_compute; reflexivity|].
  destruct (withCache_miss_then_hit unquote quote "clubs" "clubs" "'clubs'" "all"
              clubsOptions 100 101 700 700 emptyStore (inr "database is down"))
    as (_ & _ & Hhit & _);
    [done|reflexivity|reflexivity|reflexivity|done|reflexivity|cbn; lia|lia|].
  apply Hhit. right. cbn. lia.
Defined.

(** X22. A cache that cannot be read fails the call, a cache that cannot
    be written does not.  When the [GET] command is rejected [withCache]
    ends with that rejection and the function is not called; when the
    [SET] command is rejected after a miss, or [JSON.stringify] throws,
    the call ends as the function did and the store is left as it was. *)
Theorem withCache_store_failures {T : Type} (parse : string → option T)
    (stringify : T → option string) (fn : T + string) (key : string)
    (options : Cache.CacheOptions) (now later : Z) (r : Cache.Store) :
  Cache.skipCache options ≠ Some true →
  let out := Cache.withCache parse stringify fn key options now later r in
  (Cache.readable r = false → out = (Cache.GetRejected, r, false))
  ∧ (Cache.get now (Cache.cacheKey key options) r = Some None →
     Cache.writable r = false ∨ (∀ x, fn = inl x → stringify x = None) →
     out = (match fn with
            | inl result => Cache.Returned result
            | inr error => Cache.Threw error
            end, r, true)).
Proof.
  intros Hskip. cbv zeta. split.
  - intros Hr. unfold Cache.withCache, Cache.get. rewrite Hr.
    by destruct (Cache.skipCache options) as [[|]|].
  - intros Hmiss Hfail. rewrite withCache_miss by done.
    destruct fn as [result|error]; [|done].
    destruct Hfail as [Hw|Hjson].
    + unfold Cache.set. rewrite Hw. cbn. by destruct (stringify result).
    + by rewrite (Hjson result eq_refl).
Qed.

(** A call for the list of clubs against a store that refuses to
    write. *)
Lemma withCache_store_failures_witness :
  let options := Cache.createCacheOptions false clubsOptions in
  Cache.skipCache options ≠ Some true
  ∧ Cache.withCache unquote quote (inl "clubs") "all" options 100 101 readOnlyStore
    = (Cache.Returned "clubs", readOnlyStore, true).
Proof.
  cbv zeta.
  assert (Cache.skipCache (Cache.createCacheOptions false clubsOptions) ≠ Some true)
    as Hskip by done.
  split; [exact Hskip|].
  destruct (withCache_store_failures unquote quote (inl "clubs") "all"
              (Cache.createCacheOptions false clubsOptions)
              100 101 readOnlyStore Hskip) as [_ Hset].
  apply Hset; [reflexivity|by left].
Defined.

(** X23. [invalidateCache] forces the next call to compute.  When the
    store answers, no key that matches the pattern can be read afterwards
    and every other key reads as before; so after
    [invalidateCache(pattern)] a call of [withCache] whose cache key
    matches the pattern calls its function, whatever was cached. *)
Theorem invalidateCache_forces_recompute {T : Type} (parse : string → option T)
    (stringify : T → option string) (glob : string → string → bool)
    (pattern : string) (now now' later' : Z) (r : Cache.Store) (fn : T + string)
    (key : string) (options : Cache.CacheOptions) :
  Cache.readable r = true → Cache.writable r = true → (now ≤ now')%Z →
  let r' := Cache.invalidateCache glob now pattern r in
  (∀ k, Cache.get now' k r'
        = if glob pattern k then Some None else Cache.get now' k r)
  ∧ (glob pattern (Cache.cacheKey key options) = true →
     (Cache.withCache parse stringify fn key options now' later' r').2 = true).
Proof.
  intros Hr Hw Hnow. cbv zeta.
  assert (∀ k, Cache.get now' k (Cache.invalidateCache glob now pattern r)
               = if glob pattern k then Some None else Cache.get now' k r) as Hget.
  { intros k. unfold Cache.invalidateCache, Cache.keys, Cache.deleteMany. rewrite Hr.
    set (ks := filter _ _).
    assert (∀ k' e, Cache.entries r !! k' = Some e →
              k' ∈ ks ↔ Cache.expired now e = false ∧ glob pattern k' = true) as Hks.
    { intros k' e He. unfold ks. rewrite list_elem_of_filter, list_elem_of_fmap. split.
      - intros [Hg ([k2 e2] & -> & Hin)]. split; [|done].
        apply elem_of_map_to_list, map_lookup_filter_Some in Hin as [Hin Hlive].
        cbn in *. by simplify_eq.
      - intros [Hlive Hg]. split; [done|]. exists (k', e). split; [done|].
        by apply elem_of_map_to_list, map_lookup_filter_Some. }
    assert (∀ e, Cache.expired now e = true → Cache.expired now' e = true) as Hmono.
    { intros [v [d|]]; unfold Cache.expired; cbn; [|done].
      rewrite !bool_decide_eq_true. lia. }
    case_bool_decide as Hlen.
    - rewrite bool_decide_eq_false_2 by lia. rewrite Hw. cbn [negb].
      unfold Cache.get. cbn. rewrite Hr, lookup_deleted.
      destruct (Cache.entries r !! k) as [e|] eqn:He.
      + destruct (decide (k ∈ ks)) as [Hin|Hout].
        * apply (Hks _ _ He) in Hin as [_ ->]. done.
        * destruct (glob pattern k) eqn:Hg; [|done].
          destruct (Cache.expired now e) eqn:Hlive.
          -- by rewrite (Hmono _ Hlive).
          -- exfalso. apply Hout. by apply (Hks _ _ He).
      + destruct (decide (k ∈ ks)); by destruct (glob pattern k).
    - assert (ks = []) as Hnil by (destruct ks; [done|cbn in Hlen; lia]).
      unfold Cache.get. rewrite Hr.
      destruct (glob pattern k) eqn:Hg; [|done].
      destruct (Cache.entries r !! k) as [e|] eqn:He; [|done].
      destruct (Cache.expired now e) eqn:Hlive.
      + by rewrite (Hmono _ Hlive).
      + assert (k ∈ ks) as Hin by by apply (Hks _ _ He).
        rewrite Hnil in Hin. by apply elem_of_nil in Hin. }
  split; [exact Hget|]. intros Hg.
  unfold Cache.withCache. rewrite Hget, Hg.
  destruct (default false (Cache.skipCache options)); [done|by destruct fn].
Qed.

(** A cached list of clubs is invalidated at second 200 with the pattern
    of [invalidateClubsCache]. *)
Lemma invalidateCache_forces_recompute_witness :
  let cached := (Cache.withCache unquote quote (inl "clubs") "all" clubsOptions
                   100 101 emptyStore).1.2 in
  Cache.get 200 "cache:clubs:all" cached = Some (Some "'clubs'")
  ∧ Cache.get 200 "cache:clubs:all"
      (Cache.invalidateCache prefixGlob 200 "cache:clubs:*" cached) = Some None
  ∧ (Cache.withCache unquote quote (inl "new clubs") "all" clubsOptions 200 201
       (Cache.invalidateCache prefixGlob 200 "cache:clubs:*" cached)).2 = true.
Proof.
  cbv zeta. split; [vm_compute; reflexivity|].
  destruct (invalidateCache_forces_recompute unquote quote prefixGlob "cache:clubs:*"
              200 200 201
              (Cache.withCache unquote quote (inl "clubs") "all" clubsOptions
                 100 101 emptyStore).1.2
              (inl "new clubs") "all" clubsOptions) as [Hget Hcall];
    [reflexivity|reflexivity|lia|].
  split; [by rewrite Hget|]. by apply Hcall.
Defined.
